(** * msn-social-graph.py: the timeline store, the conversation
      reconstructor and the edge synthesizer, embedded from the script.

    Python objects with identity (Contact, Session) are addressed by their
    position: a contact is its index in the ordered dictionary [contacts],
    a session is the pair (contact index, index in [Contact.sessions]).
    Timestamps ("posts") are the strings the script reads from the DateTime
    attribute; Python compares them code point by code point, which for
    UTF-8 text is the byte-wise lexicographic order [String.compare]. *)

From Stdlib Require Import ZArith NArith Lia Bool Ascii String Orders OrdersTac.
From stdpp Require Import gmap strings list.

Open Scope string_scope.
Open Scope list_scope.
Open Scope Z_scope.

(** ** Order on Python strings *)

Module PyStr.

Definition lt (a b : string) : bool := String.ltb a b.
Definition le (a b : string) : bool := String.leb a b.
(* Python: [a >= b] and [a > b] on str *)
Definition ge (a b : string) : bool := String.leb b a.
Definition gt (a b : string) : bool := String.ltb b a.

(* Python truthiness of a str: the empty string is false. *)
Definition truthy (s : string) : bool :=
  match s with EmptyString => false | String _ _ => true end.

End PyStr.

(** ** Python exceptions and results *)

Inductive PyExn := KeyError | IndexError | ValueError | TypeError.

Inductive Result (A : Type) : Type :=
| Ok (a : A)
| Raise (e : PyExn)
| OutOfFuel.
Arguments Ok {A} a.
Arguments Raise {A} e.
Arguments OutOfFuel {A}.

Definition rbind {A B} (m : Result A) (k : A -> Result B) : Result B :=
  match m with
  | Ok a => k a
  | Raise e => Raise e
  | OutOfFuel => OutOfFuel
  end.

Notation "'do' x <- m ; k" := (rbind m (fun x => k))
  (at level 10, x name, m at level 100, k at level 200).
Notation "'do' ' p <- m ; k" := (rbind m (fun p => k))
  (at level 10, p pattern, m at level 100, k at level 200).

Definition of_option {A} (e : PyExn) (o : option A) : Result A :=
  match o with Some a => Ok a | None => Raise e end.

(** [l[i]] with Python's negative indices, as a position in [l]. *)
Definition py_norm_index (len : nat) (i : Z) : option nat :=
  if 0 <=? i then (if i <? Z.of_nat len then Some (Z.to_nat i) else None)
  else if - Z.of_nat len <=? i then Some (Z.to_nat (Z.of_nat len + i))
  else None.

Definition py_index {A} (l : list A) (i : Z) : Result A :=
  match py_norm_index (length l) i with
  | Some n => of_option IndexError (l !! n)
  | None => Raise IndexError
  end.

(** [range(a, b)] *)
Definition py_range (a b : Z) : list Z := seqZ a (b - a).

(** [min(l, key=...)] and [max(l, key=...)]: the first extremal element in
    iteration order; ValueError on an empty sequence.  The elements come
    paired with their (already computed) keys. *)
Fixpoint py_min_from {A} (best : string * A) (l : list (string * A)) : string * A :=
  match l with
  | [] => best
  | x :: l' => py_min_from (if PyStr.lt (fst x) (fst best) then x else best) l'
  end.

Definition py_min_by {A} (l : list (string * A)) : Result (string * A) :=
  match l with
  | [] => Raise ValueError
  | x :: l' => Ok (py_min_from x l')
  end.

Fixpoint py_max_from {A} (best : string * A) (l : list (string * A)) : string * A :=
  match l with
  | [] => best
  | x :: l' => py_max_from (if PyStr.gt (fst x) (fst best) then x else best) l'
  end.

Definition py_max_by {A} (l : list (string * A)) : Result (string * A) :=
  match l with
  | [] => Raise ValueError
  | x :: l' => Ok (py_max_from x l')
  end.

(** Monadic map over a list, left to right. *)
Fixpoint mapR {A B} (f : A -> Result B) (l : list A) : Result (list B) :=
  match l with
  | [] => Ok []
  | x :: l' => do y <- f x; do ys <- mapR f l'; Ok (y :: ys)
  end.

(** ** Data model *)

(** A Session object is identified by (contact position, session position). *)
Definition SessionRef : Type := nat * nat.

Record Session := mkSession {
  Session_id : Z;
  Session_contact : nat;           (* back reference: position in [contacts] *)
  Session_posts : list string
}.

Record Contact := mkContact {
  Contact_email : string;
  Contact_sessions : list Session
}.

(** What the script writes to stderr.  Only the three warnings are
    modelled; the progress lines ("reading ...", "calculating ...") are
    left out. *)
Inductive Diag :=
| WarnNonMonotonic (post last : string)
| WarnReentry (email : string)
| WarnMissingFirst (email : string).

Global Instance Diag_eq_dec : EqDecision Diag.
Proof. solve_decision. Defined.

(** The script's global state: the ordered dictionary [contacts]
    (email -> Contact, in insertion order), the dictionary [posts]
    (post -> Session[]) and the stderr stream. *)
Record World := mkWorld {
  contacts : list Contact;
  posts : gmap string (list SessionRef);
  stderr : list Diag
}.

Definition empty_world : World := mkWorld [] ∅ [].

Definition lookupSession (w : World) (r : SessionRef) : option Session :=
  c ← contacts w !! r.1; Contact_sessions c !! r.2.

(** [posts[post].append(session)] or [posts[post] = [session]] *)
Definition addGlobalPost (post : string) (session : SessionRef)
    (g : gmap string (list SessionRef)) : gmap string (list SessionRef) :=
  match g !! post with
  | Some l => <[post := l ++ [session]]> g
  | None => <[post := [session]]> g
  end.

Definition set_posts (s : Session) (ps : list string) : Session :=
  mkSession (Session_id s) (Session_contact s) ps.

Definition set_sessions (c : Contact) (ss : list Session) : Contact :=
  mkContact (Contact_email c) ss.

Definition update_session (r : SessionRef) (s' : Session) (cs : list Contact) : list Contact :=
  match cs !! r.1 with
  | Some c => <[r.1 := set_sessions c (<[r.2 := s']> (Contact_sessions c))]> cs
  | None => cs
  end.

(** [Session.addPost]: drops a post that is not later than the session's
    last one, otherwise appends it and registers it in the global index. *)
Definition Session_addPost (self : SessionRef) (post : string) (w : World) : World :=
  match lookupSession w self with
  | None => w   (* no such object: [self] always comes from [getSession] *)
  | Some s =>
      match last (Session_posts s) with
      | Some l =>
          if PyStr.le post l
          then mkWorld (contacts w) (posts w) (stderr w ++ [WarnNonMonotonic post l])
          else mkWorld (update_session self (set_posts s (Session_posts s ++ [post])) (contacts w))
                       (addGlobalPost post self (posts w)) (stderr w)
      | None =>
          mkWorld (update_session self (set_posts s (Session_posts s ++ [post])) (contacts w))
                  (addGlobalPost post self (posts w)) (stderr w)
      end
  end.

(** [Contact.reserveSessions] on the contact at position [ci]. *)
Definition Contact_reserveSessions (ci : nat) (sessionCount : Z) (w : World) : World :=
  match contacts w !! ci with
  | None => w
  | Some c =>
      let new := map (fun sessionId => mkSession sessionId ci [])
                     (py_range (Z.of_nat (length (Contact_sessions c)) + 1) (sessionCount + 1)) in
      mkWorld (<[ci := set_sessions c (Contact_sessions c ++ new)]> (contacts w))
              (posts w) (stderr w)
  end.

(** [Contact.getSession]: [self.sessions[sessionId-1]]. *)
Definition Contact_getSession (w : World) (ci : nat) (sessionId : Z) : Result SessionRef :=
  match contacts w !! ci with
  | None => Raise KeyError
  | Some c =>
      match py_norm_index (length (Contact_sessions c)) (sessionId - 1) with
      | Some k => Ok (ci, k)
      | None => Raise IndexError
      end
  end.

(** ** Session ingestion (the XML event loop) *)

(** An attribute the loop reads with [int(elem.attrib[name])]: the
    attribute may be absent ([elem.attrib[name]] raises KeyError), hold text
    that is not an integer literal ([int] raises ValueError), or hold an
    integer. *)
Inductive IntAttr := AttrAbsent | AttrNotInt | AttrInt (z : Z).

Definition int_attrib (a : IntAttr) : Result Z :=
  match a with
  | AttrAbsent => Raise KeyError
  | AttrNotInt => Raise ValueError
  | AttrInt z => Ok z
  end.

(** One element of the parsed log, with the attributes the loop reads
    ([DateTime] is used as the string it is; [None]: attribute absent). *)
Record Elem := mkElem {
  tag : string;
  LastSessionID : IntAttr;
  SessionID : IntAttr;
  DateTime : option string
}.

Record ScanState := mkScan {
  scan_prevTag : option string;
  scan_prevPost : option string;
  scan_prevSessionId : option Z
}.

Definition opt_truthy (o : option string) : bool :=
  match o with Some s => PyStr.truthy s | None => false end.

(* [sessionId != prevSessionId], where prevSessionId may still be None *)
Definition sessionId_differs (sessionId : Z) (prev : option Z) : bool :=
  match prev with Some q => negb (sessionId =? q) | None => true end.

Definition tag_is (t : string) (o : option string) : bool :=
  match o with Some u => String.eqb u t | None => false end.

(** The filter of lines 298-300, with the tag names as the script spells
    them. *)
Definition tag_retained (t : string) : bool :=
  negb (negb (String.eqb t "Join") && negb (String.eqb t "Message")
        && negb (String.eqb t "Leave") && negb (String.eqb t "Invitation")
        && negb (String.eqb t "InvitatationResponse")).

Definition scan_elem (ci : nat) (elem : Elem) (st : ScanState * World)
    : Result (ScanState * World) :=
  let sc := st.1 in
  let w := st.2 in
  if String.eqb (tag elem) "Log" then
    do lastSessionId <- int_attrib (LastSessionID elem);
    Ok (sc, Contact_reserveSessions ci lastSessionId w)
  else if negb (tag_retained (tag elem)) then Ok (sc, w)
  else
    do sessionId <- int_attrib (SessionID elem);
    do post <- of_option KeyError (DateTime elem);
    do w1 <-
      (if opt_truthy (scan_prevPost sc)
          && (String.eqb (tag elem) "Leave"
              || sessionId_differs sessionId (scan_prevSessionId sc))
       then
         match scan_prevSessionId sc, scan_prevPost sc with
         | Some prevSessionId, Some prevPost =>
             do s <- Contact_getSession w ci prevSessionId;
             Ok (Session_addPost s prevPost w)
         | _, _ => Raise TypeError
         end
       else Ok w);
    do w2post <-
      (if tag_is "Join" (scan_prevTag sc)
          || sessionId_differs sessionId (scan_prevSessionId sc)
       then
         do s <- Contact_getSession w1 ci sessionId;
         Ok (Session_addPost s post w1, None)
       else Ok (w1, Some post));
    Ok (mkScan (Some (tag elem)) w2post.2 (Some sessionId), w2post.1).

Fixpoint scan_elems (ci : nat) (elems : list Elem) (st : ScanState * World)
    : Result (ScanState * World) :=
  match elems with
  | [] => Ok st
  | e :: rest => do st' <- scan_elem ci e st; scan_elems ci rest st'
  end.

(** [contacts[email]]: the position of the contact with that key. *)
Definition contact_index (email : string) (cs : list Contact) : option nat :=
  fst <$> list_find (fun c => Contact_email c = email) cs.

(** One log file: its contact's email (from the file name) and elements. *)
Definition read_file (email : string) (elems : list Elem) (w : World) : Result World :=
  let w0 :=
    match contact_index email (contacts w) with
    | Some _ => w
    | None => mkWorld (contacts w ++ [mkContact email []]) (posts w) (stderr w)
    end in
  do ci <- of_option KeyError (contact_index email (contacts w0));
  do st <- scan_elems ci elems (mkScan None None None, w0);
  (* Save the final post of the final session. *)
  if opt_truthy (scan_prevPost st.1) then
    match scan_prevSessionId st.1, scan_prevPost st.1 with
    | Some prevSessionId, Some prevPost =>
        do s <- Contact_getSession st.2 ci prevSessionId;
        Ok (Session_addPost s prevPost st.2)
    | _, _ => Raise TypeError
    end
  else Ok st.2.

Fixpoint read_files (files : list (string * list Elem)) (w : World) : Result World :=
  match files with
  | [] => Ok w
  | f :: rest => do w' <- read_file f.1 f.2 w; read_files rest w'
  end.

(** ** The blank-conversation backfill *)

Definition digit_char (d : N) : ascii := ascii_of_N (48 + d).

(** The [w] low-order decimal digits of [n], most significant first. *)
Fixpoint digits_w (w : nat) (n : N) : string :=
  match w with
  | O => ""
  | S w' => digits_w w' (n / 10)%N ++ String (digit_char (n mod 10)%N) ""
  end.

Fixpoint ndigits (fuel : nat) (n : N) : nat :=
  match fuel with
  | O => 1
  | S fuel' => if (n <? 10)%N then 1%nat else S (ndigits fuel' (n / 10)%N)
  end.

(** ["%010d" % n] for a non-negative [n]: decimal, zero-padded to at least
    ten digits. *)
Definition fmt_010d (n : N) : string :=
  digits_w (Nat.max 10 (ndigits (N.to_nat (N.size n)) n)) n.

Definition blank_post (blankConvoCounter : N) : string :=
  "0000-" ++ fmt_010d blankConvoCounter.

Definition backfill_contact (st : N * World) (ci : nat) : Result (N * World) :=
  let blankConvoCounter := st.1 in
  let w := st.2 in
  do c <- of_option KeyError (contacts w !! ci);
  do r <- Contact_getSession w ci 1;
  do s <- of_option IndexError (lookupSession w r);
  if (length (Session_posts s) =? 0)%nat then
    let w1 := mkWorld (contacts w) (posts w)
                      (stderr w ++ [WarnMissingFirst (Contact_email c)]) in
    Ok ((blankConvoCounter + 1)%N, Session_addPost r (blank_post blankConvoCounter) w1)
  else Ok st.

Fixpoint foldR {A S} (f : S -> A -> Result S) (l : list A) (s : S) : Result S :=
  match l with
  | [] => Ok s
  | x :: l' => do s' <- f s x; foldR f l' s'
  end.

Definition backfill_from (blankConvoCounter : N) (w : World) : Result (N * World) :=
  foldR backfill_contact (seq 0 (length (contacts w))) (blankConvoCounter, w).

Definition backfill (w : World) : Result World :=
  do st <- backfill_from 0%N w; Ok st.2.

(** ** The conversation reconstructor *)

Record Participant := mkParticipant {
  Participant_email : string;
  Participant_firstPost : string;
  Participant_lastPost : string
}.

Record Conversation := mkConversation {
  participants : list Participant;
  Conversation_firstPost : string;
  Conversation_lastPost : string
}.

Global Instance Participant_eq_dec : EqDecision Participant.
Proof. solve_decision. Defined.

(** [Conversation.__init__] *)
Definition Conversation_init (pars : list Participant) : Result Conversation :=
  do fp <- py_min_by (map (fun par => (Participant_firstPost par, par)) pars);
  do lp <- py_max_by (map (fun par => (Participant_lastPost par, par)) pars);
  Ok (mkConversation pars (Participant_firstPost fp.2) (Participant_lastPost lp.2)).

Record Interval := mkInterval {
  Interval_firstPost : string;
  Interval_lastPost : option string       (* None until the contact leaves *)
}.

(** [session.posts[0]], [session.posts[-1]] and [session.contact] through
    a session reference. *)
Definition session_of (w : World) (r : SessionRef) : Result Session :=
  of_option IndexError (lookupSession w r).

Definition first_post (w : World) (r : SessionRef) : Result string :=
  do s <- session_of w r; py_index (Session_posts s) 0.

Definition last_post (w : World) (r : SessionRef) : Result string :=
  do s <- session_of w r; py_index (Session_posts s) (-1).

Definition session_contact (w : World) (r : SessionRef) : Result nat :=
  do s <- session_of w r; Ok (Session_contact s).

Definition lookup_posts (w : World) (p : string) : Result (list SessionRef) :=
  of_option KeyError (posts w !! p).

Definition key_first (w : World) (r : SessionRef) : Result (string * SessionRef) :=
  do k <- first_post w r; Ok (k, r).

Definition key_last (w : World) (r : SessionRef) : Result (string * SessionRef) :=
  do k <- last_post w r; Ok (k, r).

(** One turn of the backward loop (lines 158-162): [None] is [break]. *)
Definition backward_step (w : World) (sessionA : SessionRef) : Result (option SessionRef) :=
  do firstPostA <- first_post w sessionA;
  do candidates <- lookup_posts w firstPostA;
  do keyed <- mapR (key_first w) candidates;
  do nextSessionA <- py_min_by keyed;
  if PyStr.ge nextSessionA.1 firstPostA then Ok None
  else Ok (Some nextSessionA.2).

Fixpoint walk_backwards (fuel : nat) (w : World) (sessionA : SessionRef) : Result SessionRef :=
  match fuel with
  | O => OutOfFuel
  | S fuel' =>
      do next <- backward_step w sessionA;
      match next with
      | None => Ok sessionA
      | Some nextSessionA => walk_backwards fuel' w nextSessionA
      end
  end.

(** The variables of the forward walk.  [intervals] is the ordered
    dictionary contact -> Interval; the two sets of contacts are kept as
    duplicate-free lists, whose order stands for the (unspecified)
    iteration order of a Python set. *)
Record Sweep := mkSweep {
  intervals : list (nat * Interval);
  prevPresentContacts : list nat;
  warnedContacts : list nat;
  prevPost : option string;
  warnings : list Diag
}.

Definition init_sweep : Sweep := mkSweep [] [] [] None [].

Fixpoint intervals_get (c : nat) (ivs : list (nat * Interval)) : option Interval :=
  match ivs with
  | [] => None
  | (c', i) :: rest => if (c' =? c)%nat then Some i else intervals_get c rest
  end.

Fixpoint intervals_set (c : nat) (i : Interval) (ivs : list (nat * Interval))
    : list (nat * Interval) :=
  match ivs with
  | [] => [(c, i)]
  | (c', i') :: rest =>
      if (c' =? c)%nat then (c', i) :: rest else (c', i') :: intervals_set c i rest
  end.

Definition contact_email (w : World) (c : nat) : Result string :=
  do x <- of_option KeyError (contacts w !! c); Ok (Contact_email x).

(** Body of [for contactB in addedContacts] (lines 185-198). *)
Definition add_contact (w : World) (p : string) (sw : Sweep) (contactB : nat) : Result Sweep :=
  match intervals_get contactB (intervals sw) with
  | Some _ =>
      if decide (contactB ∈ warnedContacts sw) then Ok sw
      else
        do email <- contact_email w contactB;
        Ok (mkSweep (intervals sw) (prevPresentContacts sw)
                    (contactB :: warnedContacts sw) (prevPost sw)
                    (warnings sw ++ [WarnReentry email]))
  | None =>
      Ok (mkSweep (intervals_set contactB (mkInterval p None) (intervals sw))
                  (prevPresentContacts sw) (warnedContacts sw) (prevPost sw)
                  (warnings sw))
  end.

(** Body of [for contactB in deletedContacts] (lines 201-203). *)
Definition del_contact (sw : Sweep) (contactB : nat) : Result Sweep :=
  do interval <- of_option KeyError (intervals_get contactB (intervals sw));
  match Interval_lastPost interval with
  | None =>
      Ok (mkSweep (intervals_set contactB
                     (mkInterval (Interval_firstPost interval) (prevPost sw))
                     (intervals sw))
                  (prevPresentContacts sw) (warnedContacts sw) (prevPost sw)
                  (warnings sw))
  | Some _ => Ok sw
  end.

Definition skip_post (sw : Sweep) (p : string) : bool :=
  match prevPost sw with
  | Some q => PyStr.truthy q && PyStr.le p q
  | None => false
  end.

(** Body of [for p in sessionA.posts] (lines 174-206).  The two inner
    loops visit [addedContacts] and [deletedContacts], which are Python
    sets of contacts: the list order followed here is one of their
    iteration orders.  It decides the order of the keys of [intervals]
    (hence of the participants) and of the warnings when several contacts
    arrive at one post, and nothing else; what is stated about those for
    such a post is stated up to permutation. *)
Definition sweep_post (w : World) (sw : Sweep) (p : string) : Result Sweep :=
  if skip_post sw p then Ok sw
  else
    do sessions <- lookup_posts w p;
    do cs <- mapR (session_contact w) sessions;
    let presentContacts := remove_dups cs in
    let addedContacts := list_difference presentContacts (prevPresentContacts sw) in
    let deletedContacts := list_difference (prevPresentContacts sw) presentContacts in
    do sw1 <- foldR (add_contact w p) addedContacts sw;
    do sw2 <- foldR del_contact deletedContacts sw1;
    Ok (mkSweep (intervals sw2) presentContacts (warnedContacts sw2) (Some p)
                (warnings sw2)).

(** One turn of the forward loop (lines 173-215): the sweep over the
    session's posts, then the choice of the next session ([None]: break). *)
Definition forward_step (w : World) (sessionA : SessionRef) (sw : Sweep)
    : Result (Sweep * option SessionRef) :=
  do s <- session_of w sessionA;
  do sw' <- foldR (sweep_post w) (Session_posts s) sw;
  do prev <- of_option KeyError (prevPost sw');
  do candidates <- lookup_posts w prev;
  do keyed <- mapR (key_last w) candidates;
  do nextSessionA <- py_max_by keyed;
  do lastA <- last_post w sessionA;
  if PyStr.le nextSessionA.1 lastA then Ok (sw', None)
  else Ok (sw', Some nextSessionA.2).

Fixpoint walk_forwards (fuel : nat) (w : World) (sessionA : SessionRef) (sw : Sweep)
    : Result Sweep :=
  match fuel with
  | O => OutOfFuel
  | S fuel' =>
      do st <- forward_step w sessionA sw;
      match st.2 with
      | None => Ok st.1
      | Some nextSessionA => walk_forwards fuel' w nextSessionA st.1
      end
  end.

(** Lines 219-221: close the intervals that are still open. *)
Definition close_interval (prev : option string) (ci : nat * Interval) : nat * Interval :=
  match Interval_lastPost ci.2 with
  | None => (ci.1, mkInterval (Interval_firstPost ci.2) prev)
  | Some _ => ci
  end.

(** Lines 226-228.  An interval still without a last post here would need
    [prevPost] to be None with a contact recorded, which the forward walk
    excludes; Python would fail later, in [max], on comparing None. *)
Definition to_participant (w : World) (ci : nat * Interval) : Result Participant :=
  do email <- contact_email w ci.1;
  do l <- of_option TypeError (Interval_lastPost ci.2);
  Ok (mkParticipant email (Interval_firstPost ci.2) l).

Definition finish (w : World) (sw : Sweep) : Result (Conversation * list Diag) :=
  do pars <- mapR (to_participant w) (map (close_interval (prevPost sw)) (intervals sw));
  do convo <- Conversation_init pars;
  Ok (convo, warnings sw).

Definition buildConversationByPost_fuel (fuel : nat) (w : World) (post : string)
    : Result (Conversation * list Diag) :=
  do sessions <- lookup_posts w post;
  do session0 <- py_index sessions 0;
  do sessionA <- walk_backwards fuel w session0;
  do sw <- walk_forwards fuel w sessionA init_sweep;
  finish w sw.

Definition num_sessions (w : World) : nat :=
  sum_list (map (fun c => length (Contact_sessions c)) (contacts w)).

(** Each loop adopts a session at most once, so one turn per session and a
    last one that breaks are enough (see the termination theorems). *)
Definition buildConversationByPost (w : World) (post : string)
    : Result (Conversation * list Diag) :=
  buildConversationByPost_fuel (S (num_sessions w)) w post.

(** ** The precedence classifier *)

Definition session1_first (w : World) (ci : nat) : Result string :=
  do r <- Contact_getSession w ci 1; first_post w r.

Definition session1_last (w : World) (ci : nat) : Result string :=
  do r <- Contact_getSession w ci 1; last_post w r.

(** [Contact.isFormerContactTo], with the warnings its two
    reconstructions print. *)
Definition Contact_isFormerContactTo (w : World) (self other : nat)
    : Result (bool * list Diag) :=
  do myFirstPost <- session1_first w self;
  do hisFirstPost <- session1_first w other;
  if PyStr.ge myFirstPost hisFirstPost then Ok (false, [])
  else
    do myFirstConvo <- buildConversationByPost w myFirstPost;
    do hisFirstConvo <- buildConversationByPost w hisFirstPost;
    Ok (PyStr.lt (Conversation_firstPost myFirstConvo.1)
                 (Conversation_firstPost hisFirstConvo.1),
        myFirstConvo.2 ++ hisFirstConvo.2).

(** ** The edge synthesizer *)

Inductive Color := gray | black | blue | green.

Record Edge := mkEdge { src : string; dest : string; color : Color }.

Global Instance Color_eq_dec : EqDecision Color.
Proof. solve_decision. Defined.
Global Instance Edge_eq_dec : EqDecision Edge.
Proof. solve_decision. Defined.

(** Lines 358-373: four assignments, each overriding the previous one. *)
Definition edge_color (firstPostA lastPostA firstPostB lastPostB convo_firstPost : string)
    : Color :=
  let color := gray in
  let color := if PyStr.le firstPostB lastPostA then black else color in
  let color := if PyStr.le firstPostB firstPostA && PyStr.ge lastPostB firstPostA
               then blue else color in
  let color := if String.eqb firstPostB convo_firstPost then green else color in
  color.

(** Body of [for emailB, firstPostB, lastPostB in convo.participants];
    the state is ([edges], num_edges, stderr). *)
Definition edge_from (w : World) (contactA : nat) (emailA firstPostA lastPostA : string)
    (convo : Conversation) (st : list Edge * nat * list Diag) (par : Participant)
    : Result (list Edge * nat * list Diag) :=
  do contactB <- of_option KeyError (contact_index (Participant_email par) (contacts w));
  do former <- Contact_isFormerContactTo w contactB contactA;
  if negb former.1 then Ok (st.1.1, st.1.2, st.2 ++ former.2)
  else
    let color := edge_color firstPostA lastPostA (Participant_firstPost par)
                            (Participant_lastPost par) (Conversation_firstPost convo) in
    Ok (st.1.1 ++ [mkEdge (Participant_email par) emailA color], S st.1.2,
        st.2 ++ former.2).

(** Body of [for emailA, contactA in contacts.items()] (lines 340-382). *)
Definition edges_for (mainUsersEmail : string) (w : World)
    (st : list Edge * list Diag) (contactA : nat) : Result (list Edge * list Diag) :=
  do emailA <- contact_email w contactA;
  do firstPostA <- session1_first w contactA;
  do lastPostA <- session1_last w contactA;
  do convo <- buildConversationByPost w firstPostA;
  do r <- foldR (edge_from w contactA emailA firstPostA lastPostA convo.1)
                (participants convo.1) (st.1, O, st.2 ++ convo.2);
  if (r.1.2 =? 0)%nat
  then Ok (r.1.1 ++ [mkEdge mainUsersEmail emailA black], r.2)
  else Ok (r.1.1, r.2).

Definition synthesize_edges (mainUsersEmail : string) (w : World)
    : Result (list Edge * list Diag) :=
  foldR (edges_for mainUsersEmail w) (seq 0 (length (contacts w))) ([], []).

(** The whole script after argument parsing: read, backfill, draw. *)
Definition main (mainUsersEmail : string) (files : list (string * list Elem))
    : Result (list Edge * list Diag) :=
  do w <- read_files files empty_world;
  do w' <- backfill w;
  do r <- synthesize_edges mainUsersEmail w';
  Ok (r.1, stderr w' ++ r.2).
(** ** Store invariants *)

Fixpoint increasing (l : list string) : bool :=
  match l with
  | [] => true
  | a :: l' =>
      match l' with
      | [] => true
      | b :: _ => PyStr.lt a b && increasing l'
      end
  end.

Definition posts_increasing (w : World) : Prop :=
  forall r s, lookupSession w r = Some s -> increasing (Session_posts s) = true.

(** The three outcomes of [Session.addPost]. *)
Inductive addPost_spec (self : SessionRef) (post : string) (w : World) : World -> Prop :=
| addPost_dangling :
    lookupSession w self = None -> addPost_spec self post w w
| addPost_dropped s l :
    lookupSession w self = Some s ->
    last (Session_posts s) = Some l -> PyStr.le post l = true ->
    addPost_spec self post w
      (mkWorld (contacts w) (posts w) (stderr w ++ [WarnNonMonotonic post l]))
| addPost_stored s :
    lookupSession w self = Some s ->
    (forall l, last (Session_posts s) = Some l -> PyStr.lt l post = true) ->
    addPost_spec self post w
      (mkWorld (update_session self (set_posts s (Session_posts s ++ [post])) (contacts w))
               (addGlobalPost post self (posts w)) (stderr w)).

Record wf_world (w : World) : Prop := mk_wf {
  wf_sound : forall p refs r, posts w !! p = Some refs -> r ∈ refs ->
             exists s, lookupSession w r = Some s /\ p ∈ Session_posts s;
  wf_complete : forall r s p, lookupSession w r = Some s -> p ∈ Session_posts s ->
             exists refs, posts w !! p = Some refs /\ r ∈ refs;
  wf_nonempty : forall p, posts w !! p <> Some [];
  wf_backref : forall r s, lookupSession w r = Some s -> Session_contact s = r.1;
  wf_increasing : posts_increasing w;
  wf_emails : NoDup (Contact_email <$> contacts w)
}.


(** ** Measures for the two walks *)

(** All session objects of the store. *)
Fixpoint refs_from (ci : nat) (cs : list Contact) : list SessionRef :=
  match cs with
  | [] => []
  | c :: cs' => map (pair ci) (seq 0 (length (Contact_sessions c))) ++ refs_from (S ci) cs'
  end.

Definition all_refs (w : World) : list SessionRef := refs_from 0 (contacts w).

Fixpoint count_if {A} (P : A -> bool) (l : list A) : nat :=
  match l with
  | [] => O
  | x :: l' => if P x then S (count_if P l') else count_if P l'
  end.

(** [a]'s first post is strictly earlier than [b]'s. *)
Definition starts_before (w : World) (a b : SessionRef) : bool :=
  match first_post w a, first_post w b with
  | Ok x, Ok y => PyStr.lt x y
  | _, _ => false
  end.

(** [a]'s last post is strictly later than [b]'s. *)
Definition ends_after (w : World) (a b : SessionRef) : bool :=
  match last_post w a, last_post w b with
  | Ok x, Ok y => PyStr.gt x y
  | _, _ => false
  end.

(** Sessions that start before [r]: what the backward walk can still adopt. *)
Definition backward_measure (w : World) (r : SessionRef) : nat :=
  count_if (fun a => starts_before w a r) (all_refs w).

(** Sessions that end after [r]: what the forward walk can still adopt. *)
Definition forward_measure (w : World) (r : SessionRef) : nat :=
  count_if (fun a => ends_after w a r) (all_refs w).

(** A session object that holds at least one post. *)
Definition live_session (w : World) (r : SessionRef) : Prop :=
  exists s, lookupSession w r = Some s /\ Session_posts s <> [].

(** Each contact is warned about at most once: the re-entry warning for a
    contact is on stderr exactly when the contact is in [warnedContacts]. *)
Definition warn_inv (w : World) (sw : Sweep) : Prop :=
  forall c email, contact_email w c = Ok email ->
    count_occ Diag_eq_dec (warnings sw) (WarnReentry email)
    = (if decide (c ∈ warnedContacts sw) then 1 else 0)%nat.

(** What the forward walk keeps true of its variables between two posts. *)
Record sweep_inv (w : World) (sw : Sweep) : Prop := mk_sweep_inv {
  inv_present : forall c, c ∈ prevPresentContacts sw ->
                is_Some (intervals_get c (intervals sw));
  inv_contacts : forall c, is_Some (intervals_get c (intervals sw)) ->
                 is_Some (contacts w !! c);
  inv_prev : match prevPost sw with
             | Some q => is_Some (posts w !! q) /\ intervals sw <> []
             | None => prevPresentContacts sw = [] /\ intervals sw = []
             end;
  inv_closed : forall c i, intervals_get c (intervals sw) = Some i ->
               c ∉ prevPresentContacts sw -> is_Some (Interval_lastPost i);
  inv_warned : forall c, c ∈ warnedContacts sw ->
               is_Some (intervals_get c (intervals sw));
  inv_warnings : warn_inv w sw
}.

Definition close_at (prev : option string) (i : Interval) : Interval :=
  match Interval_lastPost i with
  | None => mkInterval (Interval_firstPost i) prev
  | Some _ => i
  end.


(** What one (not skipped) post does to the variables of the sweep;
    [present] is the set of contacts with a marker at [p]. *)
Record swept (w : World) (sw : Sweep) (p : string) (present : list nat) (sw' : Sweep)
    : Prop := mk_swept {
  swept_refs : exists refs cs, posts w !! p = Some refs /\
      mapR (session_contact w) refs = Ok cs /\ present = remove_dups cs;
  swept_prevPresent : prevPresentContacts sw' = present;
  swept_prevPost : prevPost sw' = Some p;
  swept_intervals : forall c, intervals_get c (intervals sw')
     = match intervals_get c (intervals sw) with
       | Some i => Some (if decide (c ∈ prevPresentContacts sw /\ c ∉ present)
                         then close_at (prevPost sw) i else i)
       | None => if decide (c ∈ present /\ c ∉ prevPresentContacts sw)
                 then Some (mkInterval p None) else None
       end;
  swept_warned : forall c, c ∈ warnedContacts sw' <->
     c ∈ warnedContacts sw \/
     (c ∈ present /\ (c ∉ prevPresentContacts sw) /\
      is_Some (intervals_get c (intervals sw)))
}.

(** The contact's session 1 exists and holds a post. *)
Definition has_first (w : World) (ci : nat) : Prop :=
  exists r s, Contact_getSession w ci 1 = Ok r /\
              lookupSession w r = Some s /\ Session_posts s <> [].

(** ** Scenarios and the spec's wording of the colour rules *)

Definition log (lastSessionId : Z) : Elem :=
  mkElem "Log" (AttrInt lastSessionId) AttrAbsent None.

Definition event (t : string) (sessionId : Z) (dateTime : string) : Elem :=
  mkElem t AttrAbsent (AttrInt sessionId) (Some dateTime).

(** Scenario 1: A's log yields the markers 10, 20, 40, 50 (first post,
    post after B's join, post before B's leave, last post) and B's log the
    markers 20, 40. *)
Definition scenario1_files : list (string * list Elem) :=
  [("A", [log 1; event "Message" 1 "10"; event "Join" 1 "15"; event "Message" 1 "20";
          event "Message" 1 "30"; event "Message" 1 "40"; event "Leave" 1 "45";
          event "Message" 1 "50"]);
   ("B", [log 1; event "Message" 1 "20"; event "Message" 1 "30"; event "Message" 1 "40"])].

(** The same store with the two shared timestamps registered in either
    order ([true]: A's session first). *)
Definition scenario1_store (a_first_20 a_first_40 : bool) : World :=
  mkWorld
    [mkContact "A" [mkSession 1 0 ["10"; "20"; "40"; "50"]];
     mkContact "B" [mkSession 1 1 ["20"; "40"]]]
    (<["10" := [(0, 0)%nat]]>
     (<["20" := if a_first_20 then [(0, 0)%nat; (1, 0)%nat] else [(1, 0)%nat; (0, 0)%nat]]>
      (<["40" := if a_first_40 then [(0, 0)%nat; (1, 0)%nat] else [(1, 0)%nat; (0, 0)%nat]]>
       (<["50" := [(0, 0)%nat]]> ∅))))
    [].

Definition scenario1_conversation : Conversation :=
  mkConversation [mkParticipant "A" "10" "50"; mkParticipant "B" "20" "40"] "10" "50".

(** Two sessions that share the timestamp 20 only: A has 10, 20 and B has
    15, 20, 30. *)
Definition overlap_files : list (string * list Elem) :=
  [("A", [log 1; event "Message" 1 "10"; event "Message" 1 "20"]);
   ("B", [log 1; event "Message" 1 "15"; event "Join" 1 "18"; event "Message" 1 "20";
          event "Message" 1 "30"])].

(** Scenario 1 with B's log read first: the index lists B's session first
    at the shared timestamps 20 and 40, so a reconstruction from either
    starts in B's session and walks back to A's. *)
Definition joined_files : list (string * list Elem) :=
  [("B", [log 1; event "Message" 1 "20"; event "Message" 1 "30"; event "Message" 1 "40"]);
   ("A", [log 1; event "Message" 1 "10"; event "Join" 1 "15"; event "Message" 1 "20";
          event "Message" 1 "30"; event "Message" 1 "40"; event "Leave" 1 "45";
          event "Message" 1 "50"])].

(** The session the reconstruction starts from, and the one the backward
    walk ends at. *)
Definition anchor_session (w : World) (post : string) : Result SessionRef :=
  do sessions <- lookup_posts w post; py_index sessions 0.

Definition left_edge (w : World) (post : string) : Result SessionRef :=
  do session0 <- anchor_session w post; walk_backwards (S (num_sessions w)) w session0.

(** Scenario 2: B's session has the markers 10, 40, 50, 60, 70; A is there
    at 10 and 40, is gone at 50 and posts again (a second session) at 60
    and 70. *)
Definition reentry_files : list (string * list Elem) :=
  [("B", [log 1; event "Message" 1 "10"; event "Message" 1 "40"; event "Leave" 1 "45";
          event "Message" 1 "50"; event "Leave" 1 "52"; event "Join" 1 "55";
          event "Message" 1 "60";
          event "Message" 1 "70"]);
   ("A", [log 2; event "Message" 1 "10"; event "Message" 1 "40";
          event "Message" 2 "60"; event "Message" 2 "70"])].


(** A log whose last event is an InvitationResponse, and the same log with
    a Message in its place. *)
Definition invitation_response_file : list (string * list Elem) :=
  [("C", [log 1; event "Message" 1 "70"; event "InvitationResponse" 1 "80"])].

Definition message_file : list (string * list Elem) :=
  [("C", [log 1; event "Message" 1 "70"; event "Message" 1 "80"])].

Definition session_posts_of (r : Result World) (ref : SessionRef) : option (list string) :=
  match r with
  | Ok w => Session_posts <$> lookupSession w ref
  | _ => None
  end.

(** Scenario 3: R's first log is there; C's and D's are missing (C's log
    starts with session 2, D's holds no event), so the backfill gives both
    a blank first conversation. *)
Definition missing_first_files : list (string * list Elem) :=
  [("R", [log 1; event "Message" 1 "2009-06-28T15:11:13.765Z";
          event "Message" 1 "2009-06-28T15:20:00.000Z"]);
   ("C", [log 2; event "Message" 2 "2010-01-01T08:00:00.000Z"]);
   ("D", [log 1])].

(** B was met first, alone (session 1 with the markers 01, 02), and later
    (session 2, markers 20, 40) joined the first conversation with A. *)
Definition introduction_files : list (string * list Elem) :=
  [("A", [log 1; event "Message" 1 "10"; event "Join" 1 "15"; event "Message" 1 "20";
          event "Message" 1 "30"; event "Message" 1 "40"; event "Leave" 1 "45";
          event "Message" 1 "50"]);
   ("B", [log 2; event "Message" 1 "01"; event "Message" 1 "02";
          event "Message" 2 "20"; event "Message" 2 "30"; event "Message" 2 "40"])].


(** ** Definitions for the further properties *)

(** A timestamp that sorts at or after "0001", as every ISO date-time of
    year 1 or later does; the synthetic keys do not. *)
Definition real_timestamp (p : string) : bool := PyStr.le "0001" p.

(** No session mixes synthetic keys and real timestamps. *)
Definition session_unmixed (s : Session) : bool :=
  forallb real_timestamp (Session_posts s)
  || forallb (fun p => negb (real_timestamp p)) (Session_posts s).

Definition unmixed (w : World) : bool :=
  forallb (fun c => forallb session_unmixed (Contact_sessions c)) (contacts w).

(** Every interval recorded so far starts at a post in [Q], and so does
    the cursor. *)
Definition firsts_in (Q : string -> Prop) (sw : Sweep) : Prop :=
  (forall c i, (c, i) ∈ intervals sw -> Q (Interval_firstPost i)) /\
  (forall q, prevPost sw = Some q -> Q q).

(** A session all of whose posts are in [Q]. *)
Definition session_in (w : World) (Q : string -> Prop) (r : SessionRef) : Prop :=
  exists s, lookupSession w r = Some s /\ forall p, p ∈ Session_posts s -> Q p.

(** The intervals recorded so far are well ordered: a closed interval ends
    no earlier than it starts, every interval starts no later than the
    cursor, and without a cursor nothing is recorded. *)
Record ordered_sweep (sw : Sweep) : Prop := mk_ordered {
  ord_closed : forall c i l, intervals_get c (intervals sw) = Some i ->
               Interval_lastPost i = Some l -> PyStr.le (Interval_firstPost i) l = true;
  ord_cursor : forall c i q, intervals_get c (intervals sw) = Some i ->
               prevPost sw = Some q -> PyStr.le (Interval_firstPost i) q = true;
  ord_start : prevPost sw = None -> intervals sw = []
}.

(** The email of the contact at position [ci]. *)
Definition email_at (w : World) (ci : nat) : option string :=
  Contact_email <$> contacts w !! ci.

(** Session ids follow positions: [sessions[k]] was created with id [k+1]. *)
Definition ids_by_position (w : World) : Prop :=
  forall r s, lookupSession w r = Some s -> Session_id s = Z.of_nat r.2 + 1.

(** [w'] extends [w]: no contact, session, stored post, index entry or
    diagnostic of [w] is removed or reordered. *)
Record extends (w w' : World) : Prop := mk_extends {
  ext_contacts : (Contact_email <$> contacts w) `prefix_of` (Contact_email <$> contacts w');
  ext_sessions : forall r s, lookupSession w r = Some s ->
     exists s', lookupSession w' r = Some s' /\ Session_id s' = Session_id s /\
       Session_contact s' = Session_contact s /\
       Session_posts s `prefix_of` Session_posts s';
  ext_index : forall p l, posts w !! p = Some l ->
     exists l', posts w' !! p = Some l' /\ l `prefix_of` l';
  ext_stderr : stderr w `prefix_of` stderr w'
}.

(** Every stored post [p] of a contact with email [e] satisfies [Q e p]. *)
Definition posts_from (Q : string -> string -> Prop) (w : World) : Prop :=
  forall r c s p, contacts w !! r.1 = Some c -> Contact_sessions c !! r.2 = Some s ->
    p ∈ Session_posts s -> Q (Contact_email c) p.

(** [p] is the DateTime of an element the ingestion loop retains, in a log
    of the contact [email]. *)
Definition from_logs (files : list (string * list Elem)) (email p : string) : Prop :=
  exists f e, f ∈ files /\ f.1 = email /\ e ∈ f.2 /\
    tag_retained (tag e) = true /\ DateTime e = Some p.

(** Each session holds real timestamps only or synthetic keys only. *)
Definition sessions_unmixed (w : World) : Prop :=
  forall r s, lookupSession w r = Some s ->
    (forall p, p ∈ Session_posts s -> real_timestamp p = true) \/
    (forall p, p ∈ Session_posts s -> real_timestamp p = false).

(** ** [utf8toascii]

    The function iterates over the characters of a Python [str], that is
    over code points; a string is here the list of its code points
    (' ' is 32, '~' 126, tab 9, carriage return 13, '?' 63). *)
Definition utf8toascii_step (ret : list N) (c : N) : list N :=
  if ((32 <=? c)%N && (c <=? 126)%N) || (c =? 9)%N then ret ++ [c]
  else if negb (c =? 13)%N then ret ++ [63%N]
  else ret.

Definition utf8toascii (str : list N) : list N :=
  fold_left utf8toascii_step str [].

(** A character the terminal can show: printable ASCII or a tab. *)
Definition printable (c : N) : bool :=
  ((32 <=? c)%N && (c <=? 126)%N) || (c =? 9)%N.

(** Every DateTime the ingestion loop retains is a real timestamp. *)
Definition logs_real (files : list (string * list Elem)) : bool :=
  forallb (fun f : string * list Elem =>
    forallb (fun e =>
      negb (tag_retained (tag e))
      || match DateTime e with Some p => real_timestamp p | None => true end) f.2) files.

(** What the event loop keeps true between two elements of the log of the
    contact [ci], whose key is [email]: [P] of the store, and [Q] of the
    post it still holds back. *)
Definition scan_keeps (P : World -> Prop) (Q : string -> string -> Prop)
    (ci : nat) (email : string) (st : ScanState * World) : Prop :=
  P st.2 /\ email_at st.2 ci = Some email /\
  forall p, scan_prevPost st.1 = Some p -> Q email p.

(** The contact at [ci] has at least one Session object. *)
Definition has_sessions (w : World) (ci : nat) : bool :=
  match contacts w !! ci with
  | Some c => negb (length (Contact_sessions c) =? 0)%nat
  | None => false
  end.

Definition all_have_sessions (w : World) : bool :=
  forallb (fun c => negb (length (Contact_sessions c) =? 0)%nat) (contacts w).

(** The contacts the backfill gives a placeholder, in the order in which
    the loop meets them: those whose session 1 exists and holds no post. *)
Definition needs_blank (w : World) (ci : nat) : bool :=
  match lookupSession w (ci, 0%nat) with
  | Some s => (length (Session_posts s) =? 0)%nat
  | None => false
  end.

Definition blank_contacts (w : World) : list nat :=
  List.filter (needs_blank w) (seq 0 (length (contacts w))).

(** ** The order of timestamps as a relation *)

Module StrOrd.
Definition t := string.
Definition eq := @Logic.eq string.
Inductive str_lt (a b : string) : Prop := str_lt_intro (H : PyStr.lt a b = true).
Inductive str_le (a b : string) : Prop := str_le_intro (H : PyStr.le a b = true).
Definition lt := str_lt.
Definition le := str_le.
End StrOrd.

(** ** The sessions of one conversation *)

(** [p] is one of the posts of the session [r]. *)
Definition has_post (w : World) (r : SessionRef) (p : string) : Prop :=
  exists s, lookupSession w r = Some s /\ p ∈ Session_posts s.

(** Two sessions share a timestamp. *)
Definition shares (w : World) (r1 r2 : SessionRef) : Prop :=
  exists q, has_post w r1 q /\ has_post w r2 q.

(** Two sessions belong to one conversation: a chain of sessions leads
    from one to the other, each sharing a timestamp with the next. *)
Definition same_conversation (w : World) : SessionRef -> SessionRef -> Prop :=
  rtc (shares w).

(** [p] lies within the lifetime of the session [r], between its first and
    its last post. *)
Definition within (w : World) (r : SessionRef) (p : string) : Prop :=
  exists f l, first_post w r = Ok f /\ last_post w r = Ok l /\
    PyStr.le f p = true /\ PyStr.le p l = true.

(** The logs agree: when two sessions share a timestamp, every post of the
    one that lies within the lifetime of the other is a post of the other
    too.  (A join, a leave, the first and the last message seen in one log
    of a conversation are seen in the log of everyone present.) *)
Definition aligned (w : World) : Prop :=
  forall r1 r2 p, shares w r1 r2 -> has_post w r1 p -> within w r2 p -> has_post w r2 p.

(** The same as a check that can be run. *)
Definition posts_of (w : World) (r : SessionRef) : list string :=
  match lookupSession w r with
  | Some s => Session_posts s
  | None => []
  end.

Definition has_postb (w : World) (r : SessionRef) (p : string) : bool :=
  bool_decide (p ∈ posts_of w r).

Definition sharesb (w : World) (r1 r2 : SessionRef) : bool :=
  existsb (has_postb w r2) (posts_of w r1).

Definition withinb (w : World) (r : SessionRef) (p : string) : bool :=
  match head (posts_of w r), last (posts_of w r) with
  | Some f, Some l => PyStr.le f p && PyStr.le p l
  | _, _ => false
  end.

Definition alignedb (w : World) : bool :=
  forallb (fun r1 =>
    forallb (fun r2 =>
      negb (sharesb w r1 r2)
      || forallb (fun p => negb (withinb w r2 p) || has_postb w r2 p) (posts_of w r1))
      (all_refs w))
    (all_refs w).

(** ** The trace of the forward walk *)

(** The set [presentContacts] of line 177-179 for the post [p]. *)
Definition present_at (w : World) (p : string) : Result (list nat) :=
  do sessions <- lookup_posts w p;
  do cs <- mapR (session_contact w) sessions;
  Ok (remove_dups cs).

(** [prevPresentContacts] is the present set of [prevPost]. *)
Definition cursor_ok (w : World) (sw : Sweep) : Prop :=
  match prevPost sw with
  | Some c => present_at w c = Ok (prevPresentContacts sw)
  | None => True
  end.

(** What holds each time the forward walk, started at the left edge [L],
    is about to sweep a session [S]: [done] lists the posts processed so
    far. *)
Record trace_inv (w : World) (L S : SessionRef) (sw : Sweep) (done : list string)
    : Prop := mk_trace {
  tr_fold : foldR (sweep_post w) done init_sweep = Ok sw;
  tr_sorted : increasing done = true;
  tr_sound : forall p, p ∈ done -> exists M, same_conversation w L M /\ has_post w M p;
  tr_complete : forall M p c, same_conversation w L M -> has_post w M p ->
                last done = Some c -> PyStr.le p c = true -> p ∈ done;
  tr_session : same_conversation w L S;
  tr_prev : prevPost sw = last done;
  tr_cursor : cursor_ok w sw;
  tr_start : match last done with
             | Some c => has_post w S c /\
                         exists l, last_post w S = Ok l /\ PyStr.lt c l = true
             | None => S = L
             end
}.
Open Scope nat_scope.

(** * Facts about the order on strings *)

Lemma ascii_compare_refl c : Ascii.compare c c = Eq.
Proof. unfold Ascii.compare. apply N.compare_refl. Qed.

Lemma ascii_compare_eq c d : Ascii.compare c d = Eq -> c = d.
Proof.
  unfold Ascii.compare. intros H. apply N.compare_eq in H.
  rewrite <- (ascii_N_embedding c), <- (ascii_N_embedding d). now f_equal.
Qed.

Lemma str_compare_refl s : String.compare s s = Eq.
Proof. induction s as [|c s IH]; simpl; [reflexivity|]. now rewrite ascii_compare_refl. Qed.

Lemma str_compare_lt_trans a : forall b c,
  String.compare a b = Lt -> String.compare b c = Lt -> String.compare a c = Lt.
Proof.
  induction a as [|x a IH]; intros [|y b] [|z c]; simpl; try discriminate; auto.
  destruct (Ascii.compare x y) eqn:Exy; try discriminate.
  - apply ascii_compare_eq in Exy. subst y.
    destruct (Ascii.compare x z) eqn:Exz; try discriminate; auto.
    intros; eapply IH; eauto.
  - intros _. destruct (Ascii.compare y z) eqn:Eyz; try discriminate.
    + apply ascii_compare_eq in Eyz. subst z. now rewrite Exy.
    + intros _. unfold Ascii.compare in *.
      rewrite N.compare_lt_iff in *.
      assert (H : (N_of_ascii x < N_of_ascii z)%N) by lia.
      apply N.compare_lt_iff in H. now rewrite H.
Qed.

Lemma str_compare_gt_lt a b : String.compare a b = Gt <-> String.compare b a = Lt.
Proof.
  rewrite (String.compare_antisym b a).
  destruct (String.compare a b); simpl; split; congruence.
Qed.

Lemma str_lt_irrefl a : PyStr.lt a a = false.
Proof. unfold PyStr.lt, String.ltb. now rewrite str_compare_refl. Qed.

Lemma str_lt_trans a b c : PyStr.lt a b = true -> PyStr.lt b c = true -> PyStr.lt a c = true.
Proof.
  unfold PyStr.lt, String.ltb. intros H1 H2.
  destruct (String.compare a b) eqn:E1; try discriminate.
  destruct (String.compare b c) eqn:E2; try discriminate.
  now rewrite (str_compare_lt_trans _ _ _ E1 E2).
Qed.

Lemma str_le_refl a : PyStr.le a a = true.
Proof. unfold PyStr.le, String.leb. now rewrite str_compare_refl. Qed.

Lemma str_lt_le a b : PyStr.lt a b = true -> PyStr.le a b = true.
Proof.
  unfold PyStr.lt, PyStr.le, String.ltb, String.leb.
  destruct (String.compare a b); congruence.
Qed.

(* [a >= b] is the negation of [a < b]: the order is total. *)
Lemma str_ge_not_lt a b : PyStr.ge a b = negb (PyStr.lt a b).
Proof.
  unfold PyStr.ge, PyStr.lt, String.leb, String.ltb.
  rewrite (String.compare_antisym a b).
  destruct (String.compare b a); reflexivity.
Qed.

Lemma str_le_not_gt a b : PyStr.le a b = negb (PyStr.gt a b).
Proof. unfold PyStr.le, PyStr.gt. fold (PyStr.ge b a). rewrite str_ge_not_lt. reflexivity. Qed.

Lemma str_le_lt_or_eq a b : PyStr.le a b = true <-> PyStr.lt a b = true \/ a = b.
Proof.
  unfold PyStr.le, PyStr.lt, String.leb, String.ltb.
  destruct (String.compare a b) eqn:E; split; intros H; auto; try discriminate.
  - right. now apply String.compare_eq_iff.
  - destruct H as [H|H]; [discriminate|]. subst. rewrite str_compare_refl in E. discriminate.
Qed.

Lemma str_lt_le_trans a b c : PyStr.lt a b = true -> PyStr.le b c = true -> PyStr.lt a c = true.
Proof.
  intros H1 H2. apply str_le_lt_or_eq in H2 as [H2| ->]; eauto using str_lt_trans.
Qed.

Lemma str_le_lt_trans a b c : PyStr.le a b = true -> PyStr.lt b c = true -> PyStr.lt a c = true.
Proof.
  intros H1 H2. apply str_le_lt_or_eq in H1 as [H1| ->]; eauto using str_lt_trans.
Qed.

Lemma str_le_trans a b c : PyStr.le a b = true -> PyStr.le b c = true -> PyStr.le a c = true.
Proof.
  intros H1 H2. apply str_le_lt_or_eq in H1 as [H1| ->]; auto.
  apply str_lt_le. eauto using str_lt_le_trans.
Qed.

Lemma str_lt_asym a b : PyStr.lt a b = true -> PyStr.lt b a = false.
Proof.
  intros H. destruct (PyStr.lt b a) eqn:E; auto.
  pose proof (str_lt_trans _ _ _ H E) as F. now rewrite str_lt_irrefl in F.
Qed.

(** * The store invariants are kept by every writer *)

Lemma increasing_snoc l p :
  increasing l = true ->
  (forall x, last l = Some x -> PyStr.lt x p = true) ->
  increasing (l ++ [p]) = true.
Proof.
  induction l as [|a l IH]; [reflexivity|].
  destruct l as [|b l]; simpl.
  - intros _ H. rewrite (H a eq_refl). reflexivity.
  - intros Hab Hlast. apply andb_prop in Hab as [Hab Hinc].
    rewrite Hab. simpl. apply IH; auto.
Qed.

Section update.
Variables (w : World) (r : SessionRef) (s s' : Session).
Hypothesis Hr : lookupSession w r = Some s.

Lemma lookup_update_session r' :
    (c ← update_session r s' (contacts w) !! r'.1; Contact_sessions c !! r'.2)
    = if decide (r' = r) then Some s' else lookupSession w r'.
Proof.
    unfold lookupSession, update_session in *.
    destruct (contacts w !! r.1) as [c|] eqn:Ec; simpl in Hr; [|discriminate].
    destruct r as [ci si], r' as [ci' si']; simpl in *.
    destruct (decide (ci' = ci)) as [->|Hne].
    - rewrite list_lookup_insert_eq by (eapply lookup_lt_Some; eauto).
      simpl. rewrite Ec. simpl.
      destruct (decide (si' = si)) as [->|Hne'].
      + rewrite decide_True by reflexivity.
        apply list_lookup_insert_eq. eapply lookup_lt_Some; eauto.
      + rewrite decide_False by congruence.
        apply list_lookup_insert_ne. congruence.
    - rewrite list_lookup_insert_ne by congruence.
      rewrite decide_False by congruence. reflexivity.
Qed.
End update.

Lemma Session_addPost_cases self post w :
  addPost_spec self post w (Session_addPost self post w).
Proof.
  unfold Session_addPost.
  destruct (lookupSession w self) as [s|] eqn:Es; [|now constructor].
  destruct (last (Session_posts s)) as [l|] eqn:El.
  - destruct (PyStr.le post l) eqn:Hle.
    + eapply addPost_dropped; eauto.
    + eapply addPost_stored; eauto. intros l' Hl'. rewrite El in Hl'.
      injection Hl' as <-.
      rewrite str_le_not_gt in Hle. unfold PyStr.gt in Hle.
      now apply negb_false_iff in Hle.
  - eapply addPost_stored; eauto. intros l Hl. rewrite El in Hl. discriminate.
Qed.

Lemma Session_addPost_increasing self post w :
  posts_increasing w -> posts_increasing (Session_addPost self post w).
Proof.
  intros Hinc. destruct (Session_addPost_cases self post w) as [H|s l H Hl Hle|s H Hl]; auto.
  intros r' s'. unfold lookupSession at 1. simpl.
  rewrite (lookup_update_session w self s _ H).
  case_decide; [|apply Hinc].
  intros [= <-]. simpl. apply increasing_snoc; eauto.
Qed.

Lemma wf_empty : wf_world empty_world.
Proof.
  split; unfold posts_increasing, lookupSession; simpl; intros *.
  - rewrite lookup_empty. discriminate.
  - discriminate.
  - rewrite lookup_empty. discriminate.
  - discriminate.
  - discriminate.
  - constructor.
Qed.

Lemma emails_insert (cs : list Contact) i c ss :
  cs !! i = Some c ->
  Contact_email <$> <[i := set_sessions c ss]> cs = Contact_email <$> cs.
Proof.
  intros H. rewrite list_fmap_insert. simpl. apply list_insert_id.
  rewrite list_lookup_fmap, H. reflexivity.
Qed.

Lemma emails_update_session r s' (cs : list Contact) :
  Contact_email <$> update_session r s' cs = Contact_email <$> cs.
Proof.
  unfold update_session. destruct (cs !! r.1) eqn:E; [|reflexivity].
  now apply emails_insert.
Qed.

Lemma emails_reserve ci n w :
  Contact_email <$> contacts (Contact_reserveSessions ci n w) = Contact_email <$> contacts w.
Proof.
  unfold Contact_reserveSessions. destruct (contacts w !! ci) eqn:E; [|reflexivity].
  simpl. now apply emails_insert.
Qed.

Lemma contact_index_None email (cs : list Contact) :
  contact_index email cs = None -> email ∉ Contact_email <$> cs.
Proof.
  unfold contact_index. intros H Hin.
  apply fmap_None in H. apply list_find_None in H.
  apply list_elem_of_fmap in Hin as (c & -> & Hc).
  rewrite Forall_forall in H. now apply (H c).
Qed.

Lemma contact_index_Some email (cs : list Contact) i :
  contact_index email cs = Some i ->
  exists c, cs !! i = Some c /\ Contact_email c = email.
Proof.
  unfold contact_index. intros H.
  apply fmap_Some in H as ([j c] & H & ->). apply list_find_Some in H as (H1 & H2 & _).
  eauto.
Qed.

Lemma lookup_addGlobalPost post self g p :
  addGlobalPost post self g !! p
  = if decide (p = post) then Some (default [] (g !! post) ++ [self]) else g !! p.
Proof.
  unfold addGlobalPost.
  destruct (g !! post) as [l|] eqn:E; simpl;
    (case_decide; [subst; apply lookup_insert_eq | now apply lookup_insert_ne]).
Qed.

Lemma Session_addPost_wf self post w :
  wf_world w -> wf_world (Session_addPost self post w).
Proof.
  intros Hwf.
  pose proof (Session_addPost_increasing self post w (wf_increasing _ Hwf)) as Hinc.
  destruct (Session_addPost_cases self post w) as [H|s l H Hl Hle|s H Hl]; auto.
  { destruct Hwf. split; auto. }
  assert (Hlk : forall r', lookupSession
      (mkWorld (update_session self (set_posts s (Session_posts s ++ [post])) (contacts w))
               (addGlobalPost post self (posts w)) (stderr w)) r'
      = if decide (r' = self) then Some (set_posts s (Session_posts s ++ [post]))
        else lookupSession w r').
  { intros r'. unfold lookupSession at 1. simpl.
    exact (lookup_update_session w self s _ H r'). }
  split; auto.
  - intros p refs r. simpl. rewrite lookup_addGlobalPost, Hlk.
    case_decide as Hp.
    + subst p. intros [= <-] Hin. case_decide as Hr.
      * eexists; split; eauto. simpl. apply elem_of_app. right. apply list_elem_of_singleton. reflexivity.
      * apply elem_of_app in Hin as [Hin|Hin];
          [|apply list_elem_of_singleton in Hin; congruence].
        destruct (posts w !! post) as [l|] eqn:El; simpl in Hin;
          [|now apply not_elem_of_nil in Hin].
        eapply wf_sound; eauto.
    + intros Hrefs Hin. case_decide as Hr.
      * subst r. eexists; split; eauto. simpl.
        destruct (wf_sound _ Hwf _ _ _ Hrefs Hin) as (s0 & Hs0 & Hp0).
        rewrite H in Hs0. injection Hs0 as <-. apply elem_of_app. now left.
      * eapply wf_sound; eauto.
  - intros r s1 p. rewrite Hlk. simpl. rewrite lookup_addGlobalPost.
    case_decide as Hr; intros Hs1 Hin.
    + injection Hs1 as <-. simpl in Hin. subst r.
      case_decide as Hp;
        [eexists; split; eauto; apply elem_of_app; right; now apply list_elem_of_singleton|].
      apply elem_of_app in Hin as [Hin|Hin];
        [|apply list_elem_of_singleton in Hin; congruence].
      eapply wf_complete; eauto.
    + destruct (wf_complete _ Hwf _ _ _ Hs1 Hin) as (refs & Hrefs & Hrin).
      case_decide as Hp; [|eauto].
      subst p. rewrite Hrefs. simpl. eexists; split; eauto. apply elem_of_app. now left.
  - intros p. simpl. rewrite lookup_addGlobalPost. case_decide.
    + intros [= E]. now destruct (default [] (posts w !! post)).
    + now apply wf_nonempty.
  - intros r s1. rewrite Hlk. case_decide as Hr.
    + intros [= <-]. simpl. subst r. eapply wf_backref; eauto.
    + now apply wf_backref.
  - simpl. rewrite emails_update_session. now apply wf_emails.
Qed.

Lemma lookupSession_reserve ci n w r :
  lookupSession (Contact_reserveSessions ci n w) r = lookupSession w r
  \/ (lookupSession w r = None /\ r.1 = ci /\
      exists sid, lookupSession (Contact_reserveSessions ci n w) r = Some (mkSession sid ci [])).
Proof.
  unfold Contact_reserveSessions, lookupSession.
  destruct (contacts w !! ci) as [c|] eqn:Ec; [|now left]. simpl.
  destruct (decide (r.1 = ci)) as [E|E].
  - rewrite E, Ec. rewrite list_lookup_insert_eq by (eapply lookup_lt_Some; eauto). simpl.
    destruct (Contact_sessions c !! r.2) as [s|] eqn:Es.
    + left. now apply lookup_app_l_Some.
    + match goal with |- context [(?a ++ ?b) !! _] =>
        destruct ((a ++ b) !! r.2) as [s|] eqn:Es' end; [|now left].
      right. split; [reflexivity|]. split; [reflexivity|].
      apply lookup_app_Some in Es' as [Es'|[_ Es']]; [congruence|].
      apply list_lookup_fmap_Some in Es' as (sid & -> & _). eauto.
  - left. rewrite list_lookup_insert_ne by congruence. reflexivity.
Qed.

Lemma Contact_reserveSessions_wf ci n w :
  wf_world w -> wf_world (Contact_reserveSessions ci n w).
Proof.
  intros Hwf.
  assert (Hp : posts (Contact_reserveSessions ci n w) = posts w).
  { unfold Contact_reserveSessions. now destruct (contacts w !! ci). }
  split.
  - intros p refs r. rewrite Hp. intros Hrefs Hin.
    destruct (wf_sound _ Hwf _ _ _ Hrefs Hin) as (s & Hs & Hps).
    exists s. split; auto.
    destruct (lookupSession_reserve ci n w r) as [->|(E & _)]; congruence.
  - intros r s p Hs Hin. rewrite Hp.
    destruct (lookupSession_reserve ci n w r) as [E|(_ & _ & sid & E)].
    + rewrite E in Hs. eapply wf_complete; eauto.
    + rewrite E in Hs. injection Hs as <-. simpl in Hin. now apply not_elem_of_nil in Hin.
  - intros p. rewrite Hp. now apply wf_nonempty.
  - intros r s Hs.
    destruct (lookupSession_reserve ci n w r) as [E|(_ & Hr & sid & E)].
    + rewrite E in Hs. eapply wf_backref; eauto.
    + rewrite E in Hs. injection Hs as <-. simpl. congruence.
  - intros r s Hs.
    destruct (lookupSession_reserve ci n w r) as [E|(_ & Hr & sid & E)].
    + rewrite E in Hs. eapply wf_increasing; eauto.
    + rewrite E in Hs. injection Hs as <-. reflexivity.
  - rewrite emails_reserve. now apply wf_emails.
Qed.

Lemma new_contact_wf email w :
  wf_world w -> contact_index email (contacts w) = None ->
  wf_world (mkWorld (contacts w ++ [mkContact email []]) (posts w) (stderr w)).
Proof.
  intros Hwf Hnew.
  assert (Hlk : forall r, lookupSession
      (mkWorld (contacts w ++ [mkContact email []]) (posts w) (stderr w)) r
      = lookupSession w r).
  { intros r. unfold lookupSession. simpl.
    destruct (contacts w !! r.1) as [c|] eqn:Ec.
    - now rewrite (lookup_app_l_Some _ _ _ _ Ec).
    - destruct ((contacts w ++ [mkContact email []]) !! r.1) as [c|] eqn:Ec'; [|reflexivity].
      apply lookup_app_Some in Ec' as [Ec'|[_ Ec']]; [congruence|].
      apply list_lookup_singleton_Some in Ec' as [_ <-]. simpl.
      now destruct r.2. }
  destruct Hwf as [H1 H2 H3 H4 H5 H6].
  split; unfold posts_increasing; simpl; try (intros *; rewrite ?Hlk; eauto; fail).
  rewrite fmap_app. simpl. apply NoDup_app. split; [assumption|].
  split; [|apply NoDup_singleton].
  intros x Hx Hx'. apply list_elem_of_singleton in Hx'. subst x.
  now apply contact_index_None in Hnew.
Qed.

Lemma Contact_getSession_contact w ci sessionId r :
  Contact_getSession w ci sessionId = Ok r -> r.1 = ci.
Proof.
  unfold Contact_getSession. destruct (contacts w !! ci); [|discriminate].
  destruct (py_norm_index _ _); [|discriminate]. now intros [= <-].
Qed.

Lemma scan_elem_wf ci elem st st' :
  wf_world st.2 -> scan_elem ci elem st = Ok st' -> wf_world st'.2.
Proof.
  intros Hwf. unfold scan_elem.
  destruct (String.eqb (tag elem) "Log").
  { destruct (LastSessionID elem) as [| |lastSessionId]; simpl; try discriminate.
    intros [= <-]. simpl. now apply Contact_reserveSessions_wf. }
  destruct (negb (tag_retained (tag elem))); [now intros [= <-]|].
  destruct (SessionID elem) as [| |sessionId]; simpl; try discriminate.
  destruct (DateTime elem) as [post|]; simpl; [|discriminate].
  match goal with |- rbind ?m _ = _ -> _ => destruct m as [w1| |] eqn:E1 end;
    simpl; try discriminate.
  assert (Hwf1 : wf_world w1).
  { destruct (_ && _) in E1; [|now injection E1 as <-].
    destruct (scan_prevSessionId st.1), (scan_prevPost st.1); try discriminate.
    destruct (Contact_getSession _ _ _); simpl in E1; try discriminate.
    injection E1 as <-. now apply Session_addPost_wf. }
  match goal with |- rbind ?m _ = _ -> _ => destruct m as [w2| |] eqn:E2 end;
    simpl; try discriminate.
  intros [= <-]. simpl.
  destruct (_ || _) in E2.
  - destruct (Contact_getSession _ _ _); simpl in E2; try discriminate.
    injection E2 as <-. simpl. now apply Session_addPost_wf.
  - now injection E2 as <-.
Qed.

Lemma scan_elems_wf ci elems : forall st st',
  wf_world st.2 -> scan_elems ci elems st = Ok st' -> wf_world st'.2.
Proof.
  induction elems as [|e rest IH]; simpl; intros st st' Hwf.
  - now intros [= <-].
  - destruct (scan_elem ci e st) as [st1| |] eqn:E; simpl; try discriminate.
    apply IH. eapply scan_elem_wf; eauto.
Qed.

Lemma read_file_wf email elems w w' :
  wf_world w -> read_file email elems w = Ok w' -> wf_world w'.
Proof.
  intros Hwf. unfold read_file.
  set (w0 := match contact_index email (contacts w) with Some _ => w | None => _ end).
  assert (Hwf0 : wf_world w0).
  { subst w0. destruct (contact_index email (contacts w)) eqn:E; auto using new_contact_wf. }
  destruct (contact_index email (contacts w0)) as [ci|]; simpl; [|discriminate].
  destruct (scan_elems ci elems _) as [st| |] eqn:E; simpl; try discriminate.
  apply scan_elems_wf in E; auto.
  destruct (opt_truthy _); [|now intros [= <-]].
  destruct (scan_prevSessionId st.1), (scan_prevPost st.1); try discriminate.
  destruct (Contact_getSession _ _ _); simpl; try discriminate.
  intros [= <-]. now apply Session_addPost_wf.
Qed.

Lemma read_files_wf files : forall w w',
  wf_world w -> read_files files w = Ok w' -> wf_world w'.
Proof.
  induction files as [|f rest IH]; simpl; intros w w' Hwf.
  - now intros [= <-].
  - destruct (read_file f.1 f.2 w) as [w1| |] eqn:E; simpl; try discriminate.
    apply IH. eapply read_file_wf; eauto.
Qed.

Lemma backfill_contact_wf st ci st' :
  wf_world st.2 -> backfill_contact st ci = Ok st' -> wf_world st'.2.
Proof.
  intros Hwf. unfold backfill_contact.
  destruct (contacts st.2 !! ci); simpl; [|discriminate].
  destruct (Contact_getSession _ _ _); simpl; try discriminate.
  destruct (lookupSession _ _); simpl; try discriminate.
  destruct (_ =? _)%nat; [|now intros [= <-]].
  intros [= <-]. simpl. apply Session_addPost_wf.
  destruct Hwf as [H1 H2 H3 H4 H5 H6]. split; auto.
Qed.

Lemma foldR_invariant {A S} (P : S -> Prop) (f : S -> A -> Result S) l :
  (forall s x s', P s -> f s x = Ok s' -> P s') ->
  forall s s', P s -> foldR f l s = Ok s' -> P s'.
Proof.
  intros Hf. induction l as [|x l IH]; simpl; intros s s' Hs.
  - now intros [= <-].
  - destruct (f s x) as [s1| |] eqn:E; simpl; try discriminate. eauto.
Qed.

Lemma backfill_wf w w' : wf_world w -> backfill w = Ok w' -> wf_world w'.
Proof.
  intros Hwf. unfold backfill, backfill_from.
  destruct (foldR _ _ _) as [st| |] eqn:E; simpl; try discriminate.
  intros [= <-].
  eapply (foldR_invariant (fun st => wf_world st.2)) in E; eauto.
  intros; eapply backfill_contact_wf; eauto.
Qed.


(** * Results, folds and the extremal element *)

Lemma rbind_Ok {A B} (m : Result A) (k : A -> Result B) b :
  rbind m k = Ok b <-> exists a, m = Ok a /\ k a = Ok b.
Proof.
  destruct m as [a| |]; simpl; split.
  - eauto.
  - intros (a' & [= <-] & H). exact H.
  - discriminate.
  - intros (a' & H & _). discriminate.
  - discriminate.
  - intros (a' & H & _). discriminate.
Qed.

Lemma rbind_OutOfFuel {A B} (m : Result A) (k : A -> Result B) :
  rbind m k = OutOfFuel <-> m = OutOfFuel \/ exists a, m = Ok a /\ k a = OutOfFuel.
Proof.
  destruct m as [a| |]; simpl; split; eauto.
  - intros [H|(a' & [= <-] & H)]; [discriminate|exact H].
  - discriminate.
  - intros [H|(a' & H & _)]; discriminate.
Qed.

Lemma of_option_Ok {A} e (o : option A) a : of_option e o = Ok a <-> o = Some a.
Proof. destruct o; simpl; split; congruence. Qed.

Lemma of_option_fuel {A} e (o : option A) : of_option e o <> OutOfFuel.
Proof. now destruct o. Qed.

Lemma py_index_fuel {A} (l : list A) i : py_index l i <> OutOfFuel.
Proof.
  unfold py_index. destruct (py_norm_index _ _); [apply of_option_fuel|discriminate].
Qed.

Lemma py_index_first {A} (l : list A) x : py_index l 0 = Ok x <-> head l = Some x.
Proof.
  unfold py_index, py_norm_index. destruct l as [|y l]; simpl; [split; discriminate|].
  split; congruence.
Qed.

Lemma py_index_last {A} (l : list A) x : py_index l (-1) = Ok x <-> last l = Some x.
Proof.
  unfold py_index, py_norm_index. simpl.
  destruct l as [|y l]; [simpl; split; discriminate|].
  replace (- Z.of_nat (length (y :: l)) <=? -1)%Z with true
    by (symmetry; apply Z.leb_le; simpl length; lia).
  replace (Z.to_nat (Z.of_nat (length (y :: l)) + -1)) with (pred (length (y :: l)))
    by (simpl length; lia).
  rewrite <- last_lookup. rewrite of_option_Ok. reflexivity.
Qed.

Lemma mapR_Ok_elem {A B} (f : A -> Result B) l : forall ys y,
  mapR f l = Ok ys -> y ∈ ys -> exists x, x ∈ l /\ f x = Ok y.
Proof.
  induction l as [|x l IH]; simpl; intros ys y.
  - intros [= <-] H. now apply not_elem_of_nil in H.
  - intros H. apply rbind_Ok in H as (y0 & Hy0 & H).
    apply rbind_Ok in H as (ys0 & Hys0 & [= <-]).
    intros Hin. apply elem_of_cons in Hin as [->|Hin].
    + exists x. split; [apply elem_of_cons; now left|assumption].
    + destruct (IH _ _ Hys0 Hin) as (x' & Hx' & Hfx').
      exists x'. split; [apply elem_of_cons; now right|assumption].
Qed.

Lemma mapR_Ok_elem_inv {A B} (f : A -> Result B) l : forall ys x,
  mapR f l = Ok ys -> x ∈ l -> exists y, y ∈ ys /\ f x = Ok y.
Proof.
  induction l as [|x0 l IH]; simpl; intros ys x.
  - intros _ H. now apply not_elem_of_nil in H.
  - intros H. apply rbind_Ok in H as (y0 & Hy0 & H).
    apply rbind_Ok in H as (ys0 & Hys0 & [= <-]).
    intros Hin. apply elem_of_cons in Hin as [->|Hin].
    + exists y0. split; [apply elem_of_cons; now left|assumption].
    + destruct (IH _ _ Hys0 Hin) as (y & Hy & Hfx).
      exists y. split; [apply elem_of_cons; now right|assumption].
Qed.

Lemma mapR_total {A B} (f : A -> Result B) l :
  (forall x, x ∈ l -> exists y, f x = Ok y) -> exists ys, mapR f l = Ok ys.
Proof.
  induction l as [|x l IH]; simpl; intros H; [eauto|].
  destruct (H x) as (y & Hy); [apply elem_of_cons; now left|].
  destruct IH as (ys & Hys); [intros; apply H; apply elem_of_cons; now right|].
  rewrite Hy, Hys. simpl. eauto.
Qed.

Lemma mapR_length {A B} (f : A -> Result B) l : forall ys,
  mapR f l = Ok ys -> length ys = length l.
Proof.
  induction l as [|x l IH]; simpl; intros ys.
  - now intros [= <-].
  - intros H. apply rbind_Ok in H as (y0 & Hy0 & H).
    apply rbind_Ok in H as (ys0 & Hys0 & [= <-]). simpl. f_equal. eauto.
Qed.

Lemma mapR_fuel {A B} (f : A -> Result B) l :
  (forall x, f x <> OutOfFuel) -> mapR f l <> OutOfFuel.
Proof.
  intros Hf. induction l as [|x l IH]; simpl; [discriminate|].
  intros H. apply rbind_OutOfFuel in H as [H|(y & _ & H)]; [now apply (Hf x)|].
  apply rbind_OutOfFuel in H as [H|(ys & _ & H)]; [now apply IH|discriminate].
Qed.

Lemma foldR_fuel {A S} (f : S -> A -> Result S) l :
  (forall s x, f s x <> OutOfFuel) -> forall s, foldR f l s <> OutOfFuel.
Proof.
  intros Hf. induction l as [|x l IH]; simpl; intros s; [discriminate|].
  intros H. apply rbind_OutOfFuel in H as [H|(y & _ & H)]; [now apply (Hf s x)|].
  now apply (IH y).
Qed.

Lemma foldR_app {A S} (f : S -> A -> Result S) l1 l2 s :
  foldR f (l1 ++ l2) s = rbind (foldR f l1 s) (foldR f l2).
Proof.
  revert s. induction l1 as [|x l1 IH]; simpl; intros s; [reflexivity|].
  destruct (f s x); simpl; auto.
Qed.

Lemma py_min_from_elem {A} (l : list (string * A)) : forall best,
  py_min_from best l ∈ best :: l.
Proof.
  induction l as [|x l IH]; simpl; intros best; [apply elem_of_cons; now left|].
  specialize (IH (if PyStr.lt x.1 best.1 then x else best)).
  apply elem_of_cons in IH as [->|IH].
  - destruct (PyStr.lt x.1 best.1); [apply elem_of_cons; right|]; apply elem_of_cons; now left.
  - apply elem_of_cons; right. apply elem_of_cons; now right.
Qed.

Lemma py_max_from_elem {A} (l : list (string * A)) : forall best,
  py_max_from best l ∈ best :: l.
Proof.
  induction l as [|x l IH]; simpl; intros best; [apply elem_of_cons; now left|].
  specialize (IH (if PyStr.gt x.1 best.1 then x else best)).
  apply elem_of_cons in IH as [->|IH].
  - destruct (PyStr.gt x.1 best.1); [apply elem_of_cons; right|]; apply elem_of_cons; now left.
  - apply elem_of_cons; right. apply elem_of_cons; now right.
Qed.

Lemma py_min_by_Ok {A} (l : list (string * A)) x :
  py_min_by l = Ok x -> x ∈ l.
Proof. destruct l; simpl; [discriminate|]. intros [= <-]. apply py_min_from_elem. Qed.

Lemma py_max_by_Ok {A} (l : list (string * A)) x :
  py_max_by l = Ok x -> x ∈ l.
Proof. destruct l; simpl; [discriminate|]. intros [= <-]. apply py_max_from_elem. Qed.

Lemma py_min_by_total {A} (l : list (string * A)) :
  l <> [] -> exists x, py_min_by l = Ok x.
Proof. destruct l; [congruence|]. simpl; eauto. Qed.

Lemma py_max_by_total {A} (l : list (string * A)) :
  l <> [] -> exists x, py_max_by l = Ok x.
Proof. destruct l; [congruence|]. simpl; eauto. Qed.

Lemma py_min_by_fuel {A} (l : list (string * A)) : py_min_by l <> OutOfFuel.
Proof. now destruct l. Qed.

Lemma py_max_by_fuel {A} (l : list (string * A)) : py_max_by l <> OutOfFuel.
Proof. now destruct l. Qed.

(** * The sessions of a store and the two measures *)

Lemma refs_from_length cs : forall ci,
  length (refs_from ci cs) = sum_list (map (fun c => length (Contact_sessions c)) cs).
Proof.
  induction cs as [|c cs IH]; simpl; intros ci; [reflexivity|].
  rewrite length_app, length_map, length_seq, IH. reflexivity.
Qed.

Lemma refs_from_elem cs : forall ci k c si,
  cs !! k = Some c -> si < length (Contact_sessions c) ->
  (ci + k, si) ∈ refs_from ci cs.
Proof.
  induction cs as [|c0 cs IH]; intros ci k c si; [discriminate|].
  destruct k as [|k]; simpl.
  - intros [= ->] Hlt. apply elem_of_app. left.
    rewrite Nat.add_0_r. apply list_elem_of_fmap. exists si. split; [reflexivity|].
    apply elem_of_seq. lia.
  - intros Hk Hlt. apply elem_of_app. right.
    replace (ci + S k) with (S ci + k) by lia. eapply IH; eauto.
Qed.

Lemma all_refs_length w : length (all_refs w) = num_sessions w.
Proof. apply refs_from_length. Qed.

Lemma all_refs_elem w r s : lookupSession w r = Some s -> r ∈ all_refs w.
Proof.
  unfold lookupSession, all_refs. destruct r as [ci si]. simpl.
  destruct (contacts w !! ci) as [c|] eqn:Ec; simpl; [|discriminate].
  intros Hs. apply (refs_from_elem _ 0 ci c si Ec).
  eapply lookup_lt_Some; eauto.
Qed.

Lemma count_if_le {A} (P : A -> bool) l : count_if P l <= length l.
Proof. induction l as [|x l IH]; simpl; [lia|]. destruct (P x); lia. Qed.

Lemma count_if_mono {A} (P Q : A -> bool) l :
  (forall y, P y = true -> Q y = true) -> count_if P l <= count_if Q l.
Proof.
  intros H. induction l as [|x l IH]; simpl; [lia|].
  destruct (P x) eqn:EP; [rewrite (H _ EP); lia|]. destruct (Q x); lia.
Qed.

Lemma count_if_lt {A} (P Q : A -> bool) l x :
  (forall y, P y = true -> Q y = true) ->
  x ∈ l -> Q x = true -> P x = false ->
  count_if P l < count_if Q l.
Proof.
  intros H Hin HQ HP. induction l as [|y l IH]; [now apply not_elem_of_nil in Hin|].
  simpl. apply elem_of_cons in Hin as [<-|Hin].
  - rewrite HQ, HP. pose proof (count_if_mono P Q l H). lia.
  - specialize (IH Hin). destruct (P y) eqn:EP; [rewrite (H _ EP); lia|].
    destruct (Q y); lia.
Qed.

(** * Termination of the two walks *)

Lemma first_post_Ok w r x :
  first_post w r = Ok x <->
  exists s, lookupSession w r = Some s /\ head (Session_posts s) = Some x.
Proof.
  unfold first_post, session_of. rewrite rbind_Ok. split.
  - intros (s & Hs & Hx). apply of_option_Ok in Hs. apply py_index_first in Hx. eauto.
  - intros (s & Hs & Hx). exists s. rewrite of_option_Ok, py_index_first. auto.
Qed.

Lemma last_post_Ok w r x :
  last_post w r = Ok x <->
  exists s, lookupSession w r = Some s /\ last (Session_posts s) = Some x.
Proof.
  unfold last_post, session_of. rewrite rbind_Ok. split.
  - intros (s & Hs & Hx). apply of_option_Ok in Hs. apply py_index_last in Hx. eauto.
  - intros (s & Hs & Hx). exists s. rewrite of_option_Ok, py_index_last. auto.
Qed.

Lemma first_post_fuel w r : first_post w r <> OutOfFuel.
Proof.
  unfold first_post. intros H. apply rbind_OutOfFuel in H as [H|(s & _ & H)].
  - now apply of_option_fuel in H.
  - now apply py_index_fuel in H.
Qed.

Lemma last_post_fuel w r : last_post w r <> OutOfFuel.
Proof.
  unfold last_post. intros H. apply rbind_OutOfFuel in H as [H|(s & _ & H)].
  - now apply of_option_fuel in H.
  - now apply py_index_fuel in H.
Qed.

Lemma key_first_Ok w r y : key_first w r = Ok y <-> first_post w r = Ok y.1 /\ y.2 = r.
Proof.
  unfold key_first. rewrite rbind_Ok. destruct y as [k r']. simpl. split.
  - intros (k' & Hk & [= -> ->]). auto.
  - intros (Hk & ->). eauto.
Qed.

Lemma key_last_Ok w r y : key_last w r = Ok y <-> last_post w r = Ok y.1 /\ y.2 = r.
Proof.
  unfold key_last. rewrite rbind_Ok. destruct y as [k r']. simpl. split.
  - intros (k' & Hk & [= -> ->]). auto.
  - intros (Hk & ->). eauto.
Qed.

Lemma key_first_fuel w r : key_first w r <> OutOfFuel.
Proof.
  unfold key_first. intros H. apply rbind_OutOfFuel in H as [H|(s & _ & H)];
    [now apply first_post_fuel in H|discriminate].
Qed.

Lemma key_last_fuel w r : key_last w r <> OutOfFuel.
Proof.
  unfold key_last. intros H. apply rbind_OutOfFuel in H as [H|(s & _ & H)];
    [now apply last_post_fuel in H|discriminate].
Qed.

(** What a turn of the backward loop that adopts a session has found. *)
Lemma backward_step_Some w r r' :
  backward_step w r = Ok (Some r') ->
  exists fA k refs,
    first_post w r = Ok fA /\ posts w !! fA = Some refs /\ r' ∈ refs /\
    first_post w r' = Ok k /\ PyStr.lt k fA = true.
Proof.
  unfold backward_step, lookup_posts. intros H.
  apply rbind_Ok in H as (fA & HfA & H).
  apply rbind_Ok in H as (refs & Hrefs & H). apply of_option_Ok in Hrefs.
  apply rbind_Ok in H as (keyed & Hkeyed & H).
  apply rbind_Ok in H as ([k r0] & Hmin & H). simpl in H.
  destruct (PyStr.ge k fA) eqn:Hge; [discriminate|]. injection H as ->.
  apply py_min_by_Ok in Hmin.
  destruct (mapR_Ok_elem _ _ _ _ Hkeyed Hmin) as (x & Hx & Hkx).
  apply key_first_Ok in Hkx as [Hk Hr]. simpl in *. subst x.
  exists fA, k, refs. repeat split; auto.
  rewrite str_ge_not_lt in Hge. now apply negb_false_iff in Hge.
Qed.

Lemma backward_step_starts_before w r r' :
  backward_step w r = Ok (Some r') -> starts_before w r' r = true.
Proof.
  intros H. apply backward_step_Some in H as (fA & k & refs & HfA & _ & _ & Hk & Hlt).
  unfold starts_before. now rewrite Hk, HfA.
Qed.

Lemma starts_before_trans w a b c :
  starts_before w a b = true -> starts_before w b c = true -> starts_before w a c = true.
Proof.
  unfold starts_before.
  destruct (first_post w a), (first_post w b), (first_post w c); try discriminate.
  apply str_lt_trans.
Qed.

Lemma starts_before_irrefl w a : starts_before w a a = false.
Proof.
  unfold starts_before. destruct (first_post w a); auto using str_lt_irrefl.
Qed.

Lemma starts_before_valid w a b : starts_before w a b = true -> a ∈ all_refs w.
Proof.
  unfold starts_before. destruct (first_post w a) as [x| |] eqn:E; try discriminate.
  intros _. apply first_post_Ok in E as (s & Hs & _). eapply all_refs_elem; eauto.
Qed.

Lemma backward_measure_decreases w r r' :
  starts_before w r' r = true -> backward_measure w r' < backward_measure w r.
Proof.
  intros H. unfold backward_measure. apply (count_if_lt _ _ _ r').
  - intros y Hy. eapply starts_before_trans; eauto.
  - eapply starts_before_valid; eauto.
  - assumption.
  - apply starts_before_irrefl.
Qed.

Lemma backward_step_fuel w r : backward_step w r <> OutOfFuel.
Proof.
  unfold backward_step, lookup_posts. intros H.
  apply rbind_OutOfFuel in H as [H|(fA & _ & H)]; [now apply first_post_fuel in H|].
  apply rbind_OutOfFuel in H as [H|(refs & _ & H)]; [now apply of_option_fuel in H|].
  apply rbind_OutOfFuel in H as [H|(keyed & _ & H)];
    [revert H; apply mapR_fuel, key_first_fuel|].
  apply rbind_OutOfFuel in H as [H|(x & _ & H)]; [now apply py_min_by_fuel in H|].
  destruct (PyStr.ge _ _); discriminate.
Qed.

Lemma walk_backwards_terminates w : forall fuel r,
  backward_measure w r < fuel -> walk_backwards fuel w r <> OutOfFuel.
Proof.
  induction fuel as [|fuel IH]; intros r Hm; [lia|]. simpl.
  intros H. apply rbind_OutOfFuel in H as [H|([r'|] & Hstep & H)].
  - now apply backward_step_fuel in H.
  - revert H. apply IH.
    pose proof (backward_measure_decreases w r r'
                  (backward_step_starts_before _ _ _ Hstep)). lia.
  - discriminate.
Qed.

Lemma walk_backwards_more_fuel w : forall fuel fuel' r,
  fuel <= fuel' -> walk_backwards fuel w r <> OutOfFuel ->
  walk_backwards fuel' w r = walk_backwards fuel w r.
Proof.
  induction fuel as [|fuel IH]; intros fuel' r Hle; simpl; [congruence|].
  destruct fuel' as [|fuel']; [lia|]. simpl.
  destruct (backward_step w r) as [[r'|]| |]; simpl; auto.
  intros H. apply IH; [lia|assumption].
Qed.

Lemma backward_measure_bound w r : backward_measure w r <= num_sessions w.
Proof. unfold backward_measure. rewrite <- all_refs_length. apply count_if_le. Qed.

(** What a turn of the forward loop that adopts a session has found. *)
Lemma forward_step_Ok w r sw sw' next :
  forward_step w r sw = Ok (sw', next) ->
  exists s prev refs k r0 lastA,
    lookupSession w r = Some s /\
    foldR (sweep_post w) (Session_posts s) sw = Ok sw' /\
    prevPost sw' = Some prev /\ posts w !! prev = Some refs /\ r0 ∈ refs /\
    last_post w r0 = Ok k /\ last_post w r = Ok lastA /\
    next = (if PyStr.le k lastA then None else Some r0).
Proof.
  unfold forward_step, lookup_posts, session_of. intros H.
  apply rbind_Ok in H as (s & Hs & H). apply of_option_Ok in Hs.
  apply rbind_Ok in H as (sw1 & Hsw1 & H).
  apply rbind_Ok in H as (prev & Hprev & H). apply of_option_Ok in Hprev.
  apply rbind_Ok in H as (refs & Hrefs & H). apply of_option_Ok in Hrefs.
  apply rbind_Ok in H as (keyed & Hkeyed & H).
  apply rbind_Ok in H as ([k r0] & Hmax & H).
  apply rbind_Ok in H as (lastA & HlastA & H). simpl in H.
  apply py_max_by_Ok in Hmax.
  destruct (mapR_Ok_elem _ _ _ _ Hkeyed Hmax) as (x & Hx & Hkx).
  apply key_last_Ok in Hkx as [Hk Hr]. simpl in *. subst x.
  exists s, prev, refs, k, r0, lastA.
  destruct (PyStr.le k lastA); injection H as <- <-; repeat split; auto.
Qed.

Lemma forward_step_ends_after w r sw sw' r' :
  forward_step w r sw = Ok (sw', Some r') -> ends_after w r' r = true.
Proof.
  intros H. apply forward_step_Ok in H
    as (s & prev & refs & k & r0 & lastA & _ & _ & _ & _ & _ & Hk & HlastA & Hnext).
  destruct (PyStr.le k lastA) eqn:Hle; [discriminate|]. injection Hnext as ->.
  unfold ends_after. rewrite Hk, HlastA.
  rewrite str_le_not_gt in Hle. now apply negb_false_iff in Hle.
Qed.

Lemma ends_after_trans w a b c :
  ends_after w a b = true -> ends_after w b c = true -> ends_after w a c = true.
Proof.
  unfold ends_after.
  destruct (last_post w a), (last_post w b), (last_post w c); try discriminate.
  unfold PyStr.gt. intros H1 H2. eapply str_lt_trans; eauto.
Qed.

Lemma ends_after_irrefl w a : ends_after w a a = false.
Proof.
  unfold ends_after, PyStr.gt. destruct (last_post w a); auto using str_lt_irrefl.
Qed.

Lemma ends_after_valid w a b : ends_after w a b = true -> a ∈ all_refs w.
Proof.
  unfold ends_after. destruct (last_post w a) as [x| |] eqn:E; try discriminate.
  intros _. apply last_post_Ok in E as (s & Hs & _). eapply all_refs_elem; eauto.
Qed.

Lemma forward_measure_decreases w r r' :
  ends_after w r' r = true -> forward_measure w r' < forward_measure w r.
Proof.
  intros H. unfold forward_measure. apply (count_if_lt _ _ _ r').
  - intros y Hy. eapply ends_after_trans; eauto.
  - eapply ends_after_valid; eauto.
  - assumption.
  - apply ends_after_irrefl.
Qed.

Lemma forward_measure_bound w r : forward_measure w r <= num_sessions w.
Proof. unfold forward_measure. rewrite <- all_refs_length. apply count_if_le. Qed.

Lemma contact_email_fuel w c : contact_email w c <> OutOfFuel.
Proof. unfold contact_email. now destruct (contacts w !! c). Qed.

Lemma add_contact_fuel w p sw c : add_contact w p sw c <> OutOfFuel.
Proof.
  unfold add_contact. destruct (intervals_get _ _); [|discriminate].
  case_decide; [discriminate|].
  pose proof (contact_email_fuel w c). now destruct (contact_email w c).
Qed.

Lemma del_contact_fuel sw c : del_contact sw c <> OutOfFuel.
Proof.
  unfold del_contact. destruct (intervals_get _ _) as [i|]; simpl; [|discriminate].
  now destruct (Interval_lastPost i).
Qed.

Lemma session_contact_fuel w r : session_contact w r <> OutOfFuel.
Proof. unfold session_contact, session_of. now destruct (lookupSession w r). Qed.

Lemma sweep_post_fuel w sw p : sweep_post w sw p <> OutOfFuel.
Proof.
  unfold sweep_post, lookup_posts. destruct (skip_post sw p); [discriminate|].
  intros H.
  apply rbind_OutOfFuel in H as [H|(refs & _ & H)]; [now apply of_option_fuel in H|].
  apply rbind_OutOfFuel in H as [H|(cs & _ & H)];
    [revert H; apply mapR_fuel, session_contact_fuel|].
  apply rbind_OutOfFuel in H as [H|(sw1 & _ & H)];
    [revert H; apply foldR_fuel, add_contact_fuel|].
  apply rbind_OutOfFuel in H as [H|(sw2 & _ & H)];
    [revert H; apply foldR_fuel, del_contact_fuel|].
  discriminate.
Qed.

Lemma forward_step_fuel w r sw : forward_step w r sw <> OutOfFuel.
Proof.
  unfold forward_step, lookup_posts, session_of. intros H.
  apply rbind_OutOfFuel in H as [H|(s & _ & H)]; [now apply of_option_fuel in H|].
  apply rbind_OutOfFuel in H as [H|(sw1 & _ & H)];
    [revert H; apply foldR_fuel, sweep_post_fuel|].
  apply rbind_OutOfFuel in H as [H|(prev & _ & H)]; [now apply of_option_fuel in H|].
  apply rbind_OutOfFuel in H as [H|(refs & _ & H)]; [now apply of_option_fuel in H|].
  apply rbind_OutOfFuel in H as [H|(keyed & _ & H)];
    [revert H; apply mapR_fuel, key_last_fuel|].
  apply rbind_OutOfFuel in H as [H|(x & _ & H)]; [now apply py_max_by_fuel in H|].
  apply rbind_OutOfFuel in H as [H|(lastA & _ & H)]; [now apply last_post_fuel in H|].
  destruct (PyStr.le _ _); discriminate.
Qed.

Lemma walk_forwards_terminates w : forall fuel r sw,
  forward_measure w r < fuel -> walk_forwards fuel w r sw <> OutOfFuel.
Proof.
  induction fuel as [|fuel IH]; intros r sw Hm; [lia|]. simpl.
  intros H. apply rbind_OutOfFuel in H as [H|([sw' [r'|]] & Hstep & H)].
  - now apply forward_step_fuel in H.
  - simpl in H. revert H. apply IH.
    pose proof (forward_measure_decreases w r r'
                  (forward_step_ends_after _ _ _ _ _ Hstep)). lia.
  - discriminate.
Qed.

Lemma walk_forwards_more_fuel w : forall fuel fuel' r sw,
  fuel <= fuel' -> walk_forwards fuel w r sw <> OutOfFuel ->
  walk_forwards fuel' w r sw = walk_forwards fuel w r sw.
Proof.
  induction fuel as [|fuel IH]; intros fuel' r sw Hle; simpl; [congruence|].
  destruct fuel' as [|fuel']; [lia|]. simpl.
  destruct (forward_step w r sw) as [[sw' [r'|]]| |]; simpl; auto.
  intros H. apply IH; [lia|assumption].
Qed.

(** * The ordered dictionary of intervals *)

Lemma intervals_get_set_eq c i ivs : intervals_get c (intervals_set c i ivs) = Some i.
Proof.
  induction ivs as [|[c' i'] ivs IH]; simpl.
  - now rewrite Nat.eqb_refl.
  - destruct (c' =? c) eqn:E; simpl; rewrite E; auto.
Qed.

Lemma intervals_get_set_ne c c' i ivs :
  c <> c' -> intervals_get c' (intervals_set c i ivs) = intervals_get c' ivs.
Proof.
  intros Hne. induction ivs as [|[c0 i0] ivs IH]; simpl.
  - destruct (c =? c') eqn:E; [apply Nat.eqb_eq in E; congruence|reflexivity].
  - destruct (c0 =? c) eqn:E; simpl.
    + apply Nat.eqb_eq in E. subst c0.
      destruct (c =? c') eqn:E'; [apply Nat.eqb_eq in E'; congruence|reflexivity].
    + destruct (c0 =? c'); auto.
Qed.

Lemma intervals_get_set c c' i ivs :
  intervals_get c' (intervals_set c i ivs)
  = if decide (c' = c) then Some i else intervals_get c' ivs.
Proof.
  case_decide; [subst; apply intervals_get_set_eq|].
  apply intervals_get_set_ne. congruence.
Qed.

Lemma intervals_get_elem c i ivs : intervals_get c ivs = Some i -> (c, i) ∈ ivs.
Proof.
  induction ivs as [|[c' i'] ivs IH]; simpl; [discriminate|].
  destruct (c' =? c) eqn:E.
  - apply Nat.eqb_eq in E. subst c'. intros [= ->]. apply elem_of_cons. now left.
  - intros H. apply elem_of_cons. right. auto.
Qed.

Lemma intervals_elem_get c i ivs : (c, i) ∈ ivs -> is_Some (intervals_get c ivs).
Proof.
  induction ivs as [|[c' i'] ivs IH]; simpl; intros H;
    [now apply not_elem_of_nil in H|].
  destruct (c' =? c) eqn:E; [eauto|].
  apply elem_of_cons in H as [[= -> ->]|H]; [rewrite Nat.eqb_refl in E; discriminate|auto].
Qed.

(** * The two inner loops of the sweep *)

Lemma add_contact_Ok w p sw c sw' :
  add_contact w p sw c = Ok sw' ->
  prevPresentContacts sw' = prevPresentContacts sw /\ prevPost sw' = prevPost sw /\
  (forall c', intervals_get c' (intervals sw')
     = match intervals_get c' (intervals sw) with
       | Some i => Some i
       | None => if decide (c' = c) then Some (mkInterval p None) else None
       end) /\
  (forall c', c' ∈ warnedContacts sw' <->
     c' ∈ warnedContacts sw \/ (c' = c /\ is_Some (intervals_get c (intervals sw)))).
Proof.
  unfold add_contact. destruct (intervals_get c (intervals sw)) as [i|] eqn:Ei.
  - case_decide as Hw.
    + intros [= <-]. repeat split; auto.
      * intros c'. destruct (intervals_get c' (intervals sw)) eqn:E; auto.
        case_decide; congruence.
      * intros [H|[-> _]]; auto.
    + intros H. apply rbind_Ok in H as (email & He & [= <-]). simpl.
      repeat split; auto.
      * intros c'. destruct (intervals_get c' (intervals sw)) eqn:E; auto.
        case_decide; congruence.
      * intros H. apply elem_of_cons in H as [->|H]; eauto.
      * intros [H|[-> _]]; apply elem_of_cons; auto.
  - intros [= <-]. simpl. repeat split; auto.
    + intros c'. rewrite intervals_get_set.
      case_decide; [subst; now rewrite Ei|].
      now destruct (intervals_get c' (intervals sw)).
    + intros [H|[_ [x Hx]]]; [assumption|discriminate].
Qed.

Lemma add_loop_Ok w p added : forall sw sw1,
  NoDup added ->
  foldR (add_contact w p) added sw = Ok sw1 ->
  prevPresentContacts sw1 = prevPresentContacts sw /\ prevPost sw1 = prevPost sw /\
  (forall c', intervals_get c' (intervals sw1)
     = match intervals_get c' (intervals sw) with
       | Some i => Some i
       | None => if decide (c' ∈ added) then Some (mkInterval p None) else None
       end) /\
  (forall c', c' ∈ warnedContacts sw1 <->
     c' ∈ warnedContacts sw \/ (c' ∈ added /\ is_Some (intervals_get c' (intervals sw)))).
Proof.
  induction added as [|c added IH]; simpl; intros sw sw1 Hnd.
  - intros [= <-]. repeat split; auto.
    + intros c'. now destruct (intervals_get c' (intervals sw)).
    + intros [H|[H _]]; [assumption|now apply not_elem_of_nil in H].
  - intros H. apply rbind_Ok in H as (sw0 & H0 & H).
    apply NoDup_cons in Hnd as [Hc Hnd].
    apply add_contact_Ok in H0 as (Hp0 & Hq0 & Hi0 & Hw0).
    apply IH in H as (Hp & Hq & Hi & Hw); auto.
    repeat split; try congruence.
    + intros c'. rewrite Hi, Hi0.
      destruct (intervals_get c' (intervals sw)) as [i|]; auto.
      destruct (decide (c' = c)) as [->|Hne].
      * rewrite decide_True by (apply elem_of_cons; now left). reflexivity.
      * destruct (decide (c' ∈ added)) as [Hin|Hin].
        -- rewrite decide_True by (apply elem_of_cons; now right). reflexivity.
        -- rewrite decide_False; [reflexivity|].
           intros H. apply elem_of_cons in H as [H|H]; congruence.
    + intros H. apply Hw in H as [H|[Hin Hs]].
      * apply Hw0 in H as [H|[-> Hs]]; auto.
        right. split; [apply elem_of_cons; now left|assumption].
      * right. split; [apply elem_of_cons; now right|].
        rewrite Hi0 in Hs. destruct (intervals_get c' (intervals sw)); eauto.
        rewrite decide_False in Hs by congruence. now destruct Hs.
    + intros [H|[Hin Hs]].
      * apply Hw. left. apply Hw0. now left.
      * apply Hw. apply elem_of_cons in Hin as [->|Hin].
        -- left. apply Hw0. right. auto.
        -- right. split; auto. rewrite Hi0. destruct Hs as [i ->]. eauto.
Qed.

Lemma add_loop_total w p added : forall sw,
  (forall c, c ∈ added -> is_Some (contacts w !! c)) ->
  exists sw1, foldR (add_contact w p) added sw = Ok sw1.
Proof.
  induction added as [|c added IH]; simpl; intros sw Hv; [eauto|].
  assert (exists sw0, add_contact w p sw c = Ok sw0) as (sw0 & H0).
  { unfold add_contact. destruct (intervals_get c (intervals sw)); [|eauto].
    case_decide; [eauto|].
    destruct (Hv c) as [x Hx]; [apply elem_of_cons; now left|].
    unfold contact_email. rewrite Hx. simpl. eauto. }
  rewrite H0. simpl. apply IH. intros c' Hc'. apply Hv. apply elem_of_cons. now right.
Qed.

Lemma close_at_idem prev i : close_at prev (close_at prev i) = close_at prev i.
Proof.
  unfold close_at. destruct (Interval_lastPost i) eqn:E; simpl; [now rewrite E|].
  now destruct prev.
Qed.

Lemma close_at_first prev i : Interval_firstPost (close_at prev i) = Interval_firstPost i.
Proof. unfold close_at. now destruct (Interval_lastPost i). Qed.

Lemma close_at_closed prev i l : Interval_lastPost i = Some l -> close_at prev i = i.
Proof. unfold close_at. now intros ->. Qed.

Lemma del_contact_Ok sw c sw' :
  del_contact sw c = Ok sw' ->
  prevPresentContacts sw' = prevPresentContacts sw /\ prevPost sw' = prevPost sw /\
  warnedContacts sw' = warnedContacts sw /\ warnings sw' = warnings sw /\
  (forall c', intervals_get c' (intervals sw')
     = match intervals_get c' (intervals sw) with
       | Some i => Some (if decide (c' = c) then close_at (prevPost sw) i else i)
       | None => None
       end).
Proof.
  unfold del_contact. intros H. apply rbind_Ok in H as (i & Hi & H).
  apply of_option_Ok in Hi.
  destruct (Interval_lastPost i) eqn:El.
  - injection H as <-. repeat split; auto. intros c'.
    destruct (intervals_get c' (intervals sw)) as [i'|] eqn:E; auto.
    case_decide; [subst c'|reflexivity].
    rewrite Hi in E. injection E as <-. unfold close_at. now rewrite El.
  - injection H as <-. simpl. repeat split; auto. intros c'.
    rewrite intervals_get_set. case_decide.
    + subst c'. rewrite Hi. unfold close_at. now rewrite El.
    + now destruct (intervals_get c' (intervals sw)).
Qed.

Lemma del_loop_Ok deleted : forall sw sw2,
  foldR del_contact deleted sw = Ok sw2 ->
  prevPresentContacts sw2 = prevPresentContacts sw /\ prevPost sw2 = prevPost sw /\
  warnedContacts sw2 = warnedContacts sw /\ warnings sw2 = warnings sw /\
  (forall c', intervals_get c' (intervals sw2)
     = match intervals_get c' (intervals sw) with
       | Some i => Some (if decide (c' ∈ deleted) then close_at (prevPost sw) i else i)
       | None => None
       end).
Proof.
  induction deleted as [|c deleted IH]; simpl; intros sw sw2.
  - intros [= <-]. repeat split; auto. intros c'.
    destruct (intervals_get c' (intervals sw)); auto.
  - intros H. apply rbind_Ok in H as (sw0 & H0 & H).
    apply del_contact_Ok in H0 as (Hp0 & Hq0 & Hw0 & Hg0 & Hi0).
    apply IH in H as (Hp & Hq & Hw & Hg & Hi).
    repeat split; try congruence.
    intros c'. rewrite Hi, Hi0, Hq0.
    destruct (intervals_get c' (intervals sw)) as [i|]; auto. f_equal.
    destruct (decide (c' = c)) as [->|Hne].
    + rewrite (decide_True (P := c ∈ c :: deleted)) by (apply elem_of_cons; now left).
      case_decide; auto using close_at_idem.
    + destruct (decide (c' ∈ deleted)) as [Hin|Hin].
      * rewrite decide_True by (apply elem_of_cons; now right). reflexivity.
      * rewrite decide_False; [reflexivity|].
        intros H. apply elem_of_cons in H as [H|H]; congruence.
Qed.

Lemma del_loop_total deleted : forall sw,
  (forall c, c ∈ deleted -> is_Some (intervals_get c (intervals sw))) ->
  exists sw2, foldR del_contact deleted sw = Ok sw2.
Proof.
  induction deleted as [|c deleted IH]; simpl; intros sw Hv; [eauto|].
  assert (exists sw0, del_contact sw c = Ok sw0) as (sw0 & H0).
  { unfold del_contact. destruct (Hv c) as [i Hi]; [apply elem_of_cons; now left|].
    rewrite Hi. simpl. destruct (Interval_lastPost i); eauto. }
  rewrite H0. simpl. apply IH. intros c' Hc'.
  apply del_contact_Ok in H0 as (_ & _ & _ & _ & Hi0). rewrite Hi0.
  destruct (Hv c') as [i Hi]; [apply elem_of_cons; now right|]. rewrite Hi. eauto.
Qed.

Lemma contact_email_inj w c c' email :
  wf_world w -> contact_email w c = Ok email -> contact_email w c' = Ok email -> c = c'.
Proof.
  intros Hwf. unfold contact_email. intros H H'.
  apply rbind_Ok in H as (x & Hx & [= <-]). apply of_option_Ok in Hx.
  apply rbind_Ok in H' as (x' & Hx' & [= E]). apply of_option_Ok in Hx'.
  eapply (NoDup_lookup _ c c' (Contact_email x) (wf_emails _ Hwf)).
  - rewrite list_lookup_fmap, Hx. reflexivity.
  - rewrite list_lookup_fmap, Hx'. simpl. congruence.
Qed.

Lemma add_contact_warn_inv w p sw c sw' :
  wf_world w -> warn_inv w sw -> add_contact w p sw c = Ok sw' -> warn_inv w sw'.
Proof.
  intros Hwf Hinv. unfold add_contact.
  destruct (intervals_get c (intervals sw)); [|intros [= <-]; exact Hinv].
  case_decide as Hw; [intros [= <-]; exact Hinv|].
  intros H. apply rbind_Ok in H as (email & He & [= <-]).
  intros c' email' He'. cbn [warnings warnedContacts]. rewrite count_occ_app.
  specialize (Hinv c' email' He').
  destruct (decide (c' = c)) as [->|Hne].
  - assert (email' = email) as -> by congruence.
    rewrite decide_True by (apply elem_of_cons; now left).
    rewrite decide_False in Hinv by assumption.
    rewrite count_occ_cons_eq by reflexivity. cbn [count_occ]. lia.
  - assert (email' <> email).
    { intros ->. apply Hne. eapply contact_email_inj; eauto. }
    rewrite count_occ_cons_neq by congruence. cbn [count_occ].
    rewrite Hinv.
    destruct (decide (c' ∈ warnedContacts sw)) as [Hin|Hin].
    + rewrite decide_True by (apply elem_of_cons; now right). lia.
    + rewrite decide_False; [lia|].
      intros H'. apply elem_of_cons in H' as [H'|H']; congruence.
Qed.

Lemma del_contact_warn_inv w sw c sw' :
  warn_inv w sw -> del_contact sw c = Ok sw' -> warn_inv w sw'.
Proof.
  intros Hinv H. apply del_contact_Ok in H as (_ & _ & Hw & Hg & _).
  unfold warn_inv. now rewrite Hw, Hg.
Qed.

Lemma sweep_post_Ok w sw p sw' :
  sweep_post w sw p = Ok sw' ->
  (skip_post sw p = true /\ sw' = sw) \/
  (skip_post sw p = false /\ exists present, swept w sw p present sw').
Proof.
  unfold sweep_post, lookup_posts. destruct (skip_post sw p); [intros [= <-]; auto|].
  intros H. right. split; [reflexivity|].
  apply rbind_Ok in H as (refs & Hrefs & H). apply of_option_Ok in Hrefs.
  apply rbind_Ok in H as (cs & Hcs & H).
  apply rbind_Ok in H as (sw1 & H1 & H).
  apply rbind_Ok in H as (sw2 & H2 & [= <-]).
  apply add_loop_Ok in H1 as (Hp1 & Hq1 & Hi1 & Hw1);
    [|apply NoDup_list_difference, NoDup_remove_dups].
  apply del_loop_Ok in H2 as (Hp2 & Hq2 & Hw2 & Hg2 & Hi2).
  exists (remove_dups cs). split; simpl; eauto.
  - intros c. rewrite Hi2, Hi1, Hq1.
    destruct (intervals_get c (intervals sw)) as [i|].
    + f_equal. destruct (decide (c ∈ list_difference _ _)) as [Hin|Hin].
      * apply list_elem_of_difference in Hin. now rewrite decide_True.
      * rewrite decide_False; [reflexivity|]. now rewrite <- list_elem_of_difference.
    + destruct (decide (c ∈ list_difference (remove_dups cs) _)) as [Hin|Hin].
      * apply list_elem_of_difference in Hin. rewrite (decide_True (P := _ /\ _)) by assumption.
        f_equal. rewrite decide_False; [reflexivity|].
        intros H. apply list_elem_of_difference in H. tauto.
      * rewrite decide_False; [reflexivity|]. now rewrite <- list_elem_of_difference.
  - intros c. rewrite Hw2, Hw1. rewrite list_elem_of_difference. tauto.
Qed.

Lemma sweep_post_warn_inv w sw p sw' :
  wf_world w -> warn_inv w sw -> sweep_post w sw p = Ok sw' -> warn_inv w sw'.
Proof.
  intros Hwf Hinv. unfold sweep_post.
  destruct (skip_post sw p); [intros [= <-]; exact Hinv|].
  intros H.
  apply rbind_Ok in H as (refs & Hrefs & H).
  apply rbind_Ok in H as (cs & Hcs & H).
  apply rbind_Ok in H as (sw1 & H1 & H).
  apply rbind_Ok in H as (sw2 & H2 & [= <-]).
  eapply (foldR_invariant (warn_inv w)) in H1; eauto using add_contact_warn_inv.
  eapply (foldR_invariant (warn_inv w)) in H2; eauto using del_contact_warn_inv.
Qed.

Lemma session_contact_Ok w r c :
  wf_world w -> session_contact w r = Ok c -> c = r.1 /\ is_Some (contacts w !! c).
Proof.
  intros Hwf. unfold session_contact, session_of. intros H.
  apply rbind_Ok in H as (s & Hs & [= <-]). apply of_option_Ok in Hs.
  rewrite (wf_backref _ Hwf _ _ Hs). split; [reflexivity|].
  unfold lookupSession in Hs. destruct (contacts w !! r.1); [eauto|discriminate].
Qed.

Lemma swept_present_valid w sw p present sw' c :
  wf_world w -> swept w sw p present sw' -> c ∈ present -> is_Some (contacts w !! c).
Proof.
  intros Hwf H Hc. destruct (swept_refs _ _ _ _ _ H) as (refs & cs & Hrefs & Hcs & E).
  rewrite E in Hc. rewrite elem_of_remove_dups in Hc.
  destruct (mapR_Ok_elem _ _ _ _ Hcs Hc) as (r & _ & Hr).
  now apply session_contact_Ok in Hr as [_ ?].
Qed.

Lemma swept_present_nonempty w sw p present sw' :
  wf_world w -> swept w sw p present sw' -> exists c, c ∈ present.
Proof.
  intros Hwf H. destruct (swept_refs _ _ _ _ _ H) as (refs & cs & Hrefs & Hcs & E).
  rewrite E. destruct cs as [|c cs].
  - apply mapR_length in Hcs. destruct refs; [|discriminate].
    now apply wf_nonempty in Hrefs.
  - exists c. apply elem_of_remove_dups, elem_of_cons. now left.
Qed.

Lemma sweep_post_inv w sw p sw' :
  wf_world w -> sweep_inv w sw -> sweep_post w sw p = Ok sw' -> sweep_inv w sw'.
Proof.
  intros Hwf Hinv H.
  pose proof (sweep_post_warn_inv w sw p sw' Hwf (inv_warnings _ _ Hinv) H) as Hwarn.
  apply sweep_post_Ok in H as [[_ ->]|[_ (present & Hs)]]; [assumption|].
  pose proof (swept_intervals _ _ _ _ _ Hs) as Hi.
  pose proof (swept_prevPresent _ _ _ _ _ Hs) as Hp.
  pose proof (swept_warned _ _ _ _ _ Hs) as Hw.
  assert (Hpres : forall c, c ∈ present -> is_Some (intervals_get c (intervals sw'))).
  { intros c Hc. rewrite Hi.
    destruct (intervals_get c (intervals sw)) as [i|] eqn:E; [eauto|].
    rewrite decide_True; [eauto|]. split; [assumption|].
    intros Hc'. apply (inv_present _ _ Hinv) in Hc'. rewrite E in Hc'. now destruct Hc'. }
  split.
  - intros c. rewrite Hp. apply Hpres.
  - intros c. rewrite Hi.
    destruct (intervals_get c (intervals sw)) as [i|] eqn:E.
    + intros _. apply (inv_contacts _ _ Hinv). rewrite E. eauto.
    + case_decide as Hd; [|intros [? ?]; discriminate].
      intros _. eapply swept_present_valid; [eassumption|eassumption|]. apply Hd.
  - rewrite (swept_prevPost _ _ _ _ _ Hs). split.
    + destruct (swept_refs _ _ _ _ _ Hs) as (refs & cs & -> & _). eauto.
    + destruct (swept_present_nonempty _ _ _ _ _ Hwf Hs) as (c & Hc).
      apply Hpres in Hc as [i Hc]. intros E. rewrite E in Hc. discriminate.
  - intros c i. rewrite Hi, Hp.
    destruct (intervals_get c (intervals sw)) as [i0|] eqn:E.
    + intros [= <-] Hnp. case_decide as Hd.
      * destruct Hd as [Hd _].
        pose proof (inv_prev _ _ Hinv) as Hprev.
        destruct (prevPost sw) as [q|].
        -- unfold close_at. destruct (Interval_lastPost i0) eqn:El; simpl; [rewrite El|]; eauto.
        -- destruct Hprev as [Hprev _]. rewrite Hprev in Hd. now apply not_elem_of_nil in Hd.
      * apply (inv_closed _ _ Hinv c i0 E). intros Hc. apply Hd. auto.
    + case_decide as Hd; [|discriminate]. intros _ Hnp. tauto.
  - intros c Hc. apply Hw in Hc as [Hc|(Hc & _ & _)]; [|auto].
    apply (inv_warned _ _ Hinv) in Hc as [i Hc]. rewrite Hi, Hc. eauto.
  - exact Hwarn.
Qed.

Lemma sweep_post_total w sw p :
  wf_world w -> sweep_inv w sw -> is_Some (posts w !! p) ->
  exists sw', sweep_post w sw p = Ok sw'.
Proof.
  intros Hwf Hinv [refs Hrefs]. unfold sweep_post, lookup_posts.
  destruct (skip_post sw p); [eauto|]. rewrite Hrefs. simpl.
  destruct (mapR_total (session_contact w) refs) as (cs & Hcs).
  { intros r Hr. destruct (wf_sound _ Hwf _ _ _ Hrefs Hr) as (s & Hs & _).
    unfold session_contact, session_of. rewrite Hs. simpl. eauto. }
  rewrite Hcs. simpl.
  destruct (add_loop_total w p (list_difference (remove_dups cs) (prevPresentContacts sw)) sw)
    as (sw1 & H1).
  { intros c Hc. apply list_elem_of_difference in Hc as [Hc _].
    rewrite elem_of_remove_dups in Hc.
    destruct (mapR_Ok_elem _ _ _ _ Hcs Hc) as (r & _ & Hr).
    now apply session_contact_Ok in Hr as [_ ?]. }
  rewrite H1. simpl.
  destruct (del_loop_total (list_difference (prevPresentContacts sw) (remove_dups cs)) sw1)
    as (sw2 & H2).
  { intros c Hc. apply list_elem_of_difference in Hc as [Hc _].
    apply add_loop_Ok in H1 as (_ & _ & Hi1 & _);
      [|apply NoDup_list_difference, NoDup_remove_dups].
    rewrite Hi1. apply (inv_present _ _ Hinv) in Hc as [i ->]. eauto. }
  rewrite H2. simpl. eauto.
Qed.

(** * The walks raise nothing on a well-formed store *)

Lemma sweep_inv_init w : sweep_inv w init_sweep.
Proof.
  split; simpl.
  - intros c H. now apply not_elem_of_nil in H.
  - intros c [i H]. discriminate.
  - auto.
  - intros c i H. discriminate.
  - intros c H. now apply not_elem_of_nil in H.
  - intros c email _. reflexivity.
Qed.

Lemma sweep_post_prev w sw p sw' :
  sweep_post w sw p = Ok sw' -> is_Some (prevPost sw').
Proof.
  intros H. pose proof H as H'.
  apply sweep_post_Ok in H as [[Hskip ->]|[_ (present & Hs)]].
  - unfold skip_post in Hskip. destruct (prevPost sw); [eauto|discriminate].
  - rewrite (swept_prevPost _ _ _ _ _ Hs). eauto.
Qed.

Lemma sweep_loop_inv w ps : forall sw sw',
  wf_world w -> sweep_inv w sw -> foldR (sweep_post w) ps sw = Ok sw' -> sweep_inv w sw'.
Proof.
  intros sw sw' Hwf. apply (foldR_invariant (sweep_inv w)).
  intros; eapply sweep_post_inv; eauto.
Qed.

Lemma sweep_loop_total w ps : forall sw,
  wf_world w -> sweep_inv w sw -> (forall p, p ∈ ps -> is_Some (posts w !! p)) ->
  exists sw', foldR (sweep_post w) ps sw = Ok sw'.
Proof.
  induction ps as [|p ps IH]; simpl; intros sw Hwf Hinv Hps; [eauto|].
  destruct (sweep_post_total w sw p Hwf Hinv) as (sw1 & H1);
    [apply Hps, elem_of_cons; now left|].
  rewrite H1. simpl. apply IH; auto.
  - eapply sweep_post_inv; eauto.
  - intros q Hq. apply Hps, elem_of_cons. now right.
Qed.

Lemma sweep_loop_prev w ps : forall sw sw',
  foldR (sweep_post w) ps sw = Ok sw' ->
  ps <> [] \/ is_Some (prevPost sw) -> is_Some (prevPost sw').
Proof.
  induction ps as [|p ps IH]; simpl; intros sw sw'.
  - intros [= <-] [H|H]; [congruence|assumption].
  - intros H _. apply rbind_Ok in H as (sw1 & H1 & H).
    eapply IH; eauto. right. eapply sweep_post_prev; eauto.
Qed.

Lemma live_first_post w r : live_session w r -> exists x, first_post w r = Ok x.
Proof.
  intros (s & Hs & Hne). destruct (Session_posts s) as [|x l] eqn:E; [congruence|].
  exists x. apply first_post_Ok. exists s. rewrite E. auto.
Qed.

Lemma live_last_post w r : live_session w r -> exists x, last_post w r = Ok x.
Proof.
  intros (s & Hs & Hne).
  destruct (last (Session_posts s)) as [x|] eqn:E; [|apply last_None in E; congruence].
  exists x. apply last_post_Ok. eauto.
Qed.

Lemma indexed_live w p refs r :
  wf_world w -> posts w !! p = Some refs -> r ∈ refs -> live_session w r.
Proof.
  intros Hwf Hrefs Hr. destruct (wf_sound _ Hwf _ _ _ Hrefs Hr) as (s & Hs & Hp).
  exists s. split; [assumption|]. intros E. rewrite E in Hp. now apply not_elem_of_nil in Hp.
Qed.

Lemma backward_step_total w r :
  wf_world w -> live_session w r ->
  exists next, backward_step w r = Ok next /\
    (forall r', next = Some r' -> live_session w r').
Proof.
  intros Hwf Hlive. destruct (live_first_post _ _ Hlive) as (fA & HfA).
  unfold backward_step, lookup_posts. rewrite HfA. simpl.
  apply first_post_Ok in HfA as (s & Hs & Hhead).
  destruct (wf_complete _ Hwf r s fA Hs) as (refs & Hrefs & Hr).
  { apply head_Some_elem_of. exact Hhead. }
  rewrite Hrefs. simpl.
  destruct (mapR_total (key_first w) refs) as (keyed & Hkeyed).
  { intros r0 Hr0. destruct (live_first_post w r0) as (x & Hx);
      [eapply indexed_live; eauto|].
    unfold key_first. rewrite Hx. simpl. eauto. }
  rewrite Hkeyed. simpl.
  destruct (py_min_by_total keyed) as ([k r0] & Hmin).
  { apply mapR_length in Hkeyed. destruct keyed; [|discriminate].
    destruct refs; [now apply wf_nonempty in Hrefs|discriminate]. }
  rewrite Hmin. simpl.
  apply py_min_by_Ok in Hmin.
  destruct (mapR_Ok_elem _ _ _ _ Hkeyed Hmin) as (x & Hx & Hkx).
  apply key_first_Ok in Hkx as [_ Hr0]. simpl in Hr0. subst x.
  destruct (PyStr.ge k fA); eexists; split; try reflexivity.
  - discriminate.
  - intros r' [= <-]. eapply indexed_live; eauto.
Qed.

Lemma walk_backwards_safe w : forall fuel r,
  wf_world w -> live_session w r -> backward_measure w r < fuel ->
  exists r', walk_backwards fuel w r = Ok r' /\ live_session w r'.
Proof.
  induction fuel as [|fuel IH]; intros r Hwf Hlive Hm; [lia|]. simpl.
  destruct (backward_step_total w r Hwf Hlive) as (next & Hstep & Hnext).
  rewrite Hstep. simpl. destruct next as [r'|]; [|eauto].
  apply IH; auto.
  pose proof (backward_measure_decreases w r r'
                (backward_step_starts_before _ _ _ Hstep)). lia.
Qed.

Lemma forward_step_total w r sw :
  wf_world w -> sweep_inv w sw -> live_session w r ->
  exists sw' next, forward_step w r sw = Ok (sw', next) /\
    sweep_inv w sw' /\ is_Some (prevPost sw') /\
    (forall r', next = Some r' -> live_session w r').
Proof.
  intros Hwf Hinv Hlive. pose proof Hlive as (s & Hs & Hne).
  unfold forward_step, lookup_posts, session_of. rewrite Hs. simpl.
  destruct (sweep_loop_total w (Session_posts s) sw Hwf Hinv) as (sw' & Hsw').
  { intros p Hp. destruct (wf_complete _ Hwf r s p Hs Hp) as (refs & -> & _). eauto. }
  rewrite Hsw'. simpl.
  pose proof (sweep_loop_inv _ _ _ _ Hwf Hinv Hsw') as Hinv'.
  destruct (sweep_loop_prev _ _ _ _ Hsw') as [prev Hprev]; [now left|].
  rewrite Hprev. simpl.
  pose proof (inv_prev _ _ Hinv') as Hip. rewrite Hprev in Hip.
  destruct Hip as [[refs Hrefs] _]. rewrite Hrefs. simpl.
  destruct (mapR_total (key_last w) refs) as (keyed & Hkeyed).
  { intros r0 Hr0. destruct (live_last_post w r0) as (x & Hx);
      [eapply indexed_live; eauto|].
    unfold key_last. rewrite Hx. simpl. eauto. }
  rewrite Hkeyed. simpl.
  destruct (py_max_by_total keyed) as ([k r0] & Hmax).
  { apply mapR_length in Hkeyed. destruct keyed; [|discriminate].
    destruct refs; [now apply wf_nonempty in Hrefs|discriminate]. }
  rewrite Hmax. simpl.
  destruct (live_last_post _ _ Hlive) as (lastA & HlastA). rewrite HlastA. simpl.
  apply py_max_by_Ok in Hmax.
  destruct (mapR_Ok_elem _ _ _ _ Hkeyed Hmax) as (x & Hx & Hkx).
  apply key_last_Ok in Hkx as [_ Hr0]. simpl in Hr0. subst x.
  destruct (PyStr.le k lastA); do 2 eexists; split; try reflexivity;
    (split; [assumption|]); (split; [rewrite Hprev; eauto|]).
  - discriminate.
  - intros r' [= <-]. eapply indexed_live; eauto.
Qed.

Lemma walk_forwards_safe w : forall fuel r sw,
  wf_world w -> sweep_inv w sw -> live_session w r -> forward_measure w r < fuel ->
  exists sw', walk_forwards fuel w r sw = Ok sw' /\
    sweep_inv w sw' /\ is_Some (prevPost sw').
Proof.
  induction fuel as [|fuel IH]; intros r sw Hwf Hinv Hlive Hm; [lia|]. simpl.
  destruct (forward_step_total w r sw Hwf Hinv Hlive)
    as (sw' & next & Hstep & Hinv' & Hprev & Hnext).
  rewrite Hstep. simpl. destruct next as [r'|]; [|eauto].
  apply IH; auto.
  pose proof (forward_measure_decreases w r r'
                (forward_step_ends_after _ _ _ _ _ Hstep)). lia.
Qed.

Lemma close_interval_get prev ivs : forall c,
  intervals_get c (map (close_interval prev) ivs)
  = close_at prev <$> intervals_get c ivs.
Proof.
  induction ivs as [|[c0 i0] ivs IH]; intros c; simpl; [reflexivity|].
  unfold close_interval at 1. simpl.
  destruct (Interval_lastPost i0) eqn:E; simpl;
    (destruct (c0 =? c); [simpl; unfold close_at; now rewrite E|apply IH]).
Qed.

Lemma finish_total w sw :
  sweep_inv w sw -> is_Some (prevPost sw) ->
  exists convo, finish w sw = Ok (convo, warnings sw).
Proof.
  intros Hinv [prev Hprev]. unfold finish.
  destruct (mapR_total (to_participant w) (map (close_interval (prevPost sw)) (intervals sw)))
    as (pars & Hpars).
  { intros ci Hci. apply list_elem_of_fmap in Hci as ([c i] & -> & Hci).
    unfold to_participant.
    assert (Hc : (close_interval (prevPost sw) (c, i)).1 = c).
    { unfold close_interval. simpl. now destruct (Interval_lastPost i). }
    rewrite Hc.
    destruct (inv_contacts _ _ Hinv c) as [x Hx]; [eapply intervals_elem_get; eauto|].
    unfold contact_email. rewrite Hx. simpl.
    unfold close_interval. simpl. rewrite Hprev.
    destruct (Interval_lastPost i) eqn:E; simpl; [rewrite E|]; simpl; eauto. }
  rewrite Hpars. simpl.
  assert (Hne : pars <> []).
  { apply mapR_length in Hpars. rewrite length_map in Hpars.
    pose proof (inv_prev _ _ Hinv) as Hip. rewrite Hprev in Hip. destruct Hip as [_ Hip].
    destruct pars; [|discriminate]. destruct (intervals sw); [congruence|discriminate]. }
  unfold Conversation_init.
  destruct pars as [|par pars]; [congruence|]. simpl. eauto.
Qed.

Lemma build_total w post :
  wf_world w -> is_Some (posts w !! post) ->
  exists convo diags, forall fuel, num_sessions w < fuel ->
    buildConversationByPost_fuel fuel w post = Ok (convo, diags).
Proof.
  intros Hwf [refs0 Hrefs].
  destruct refs0 as [|session0 refs]; [now apply wf_nonempty in Hrefs|].
  assert (Hlive0 : live_session w session0).
  { eapply indexed_live; eauto. apply elem_of_cons. now left. }
  destruct (walk_backwards_safe w (S (num_sessions w)) session0 Hwf Hlive0)
    as (sessionA & HA & HliveA).
  { pose proof (backward_measure_bound w session0). lia. }
  destruct (walk_forwards_safe w (S (num_sessions w)) sessionA init_sweep Hwf
              (sweep_inv_init w) HliveA) as (sw & Hsw & Hinv & Hprev).
  { pose proof (forward_measure_bound w sessionA). lia. }
  destruct (finish_total w sw Hinv Hprev) as (convo & Hfin).
  exists convo, (warnings sw). intros fuel Hfuel.
  unfold buildConversationByPost_fuel, lookup_posts. rewrite Hrefs. simpl.
  rewrite (walk_backwards_more_fuel w (S (num_sessions w)) fuel) by first [lia | rewrite HA; discriminate].
  rewrite HA. simpl.
  rewrite (walk_forwards_more_fuel w (S (num_sessions w)) fuel) by first [lia | rewrite Hsw; discriminate].
  rewrite Hsw. simpl. exact Hfin.
Qed.

(** * Re-entry: closed intervals stay as they are *)

Lemma sweep_post_frozen w sw p sw' c i :
  sweep_post w sw p = Ok sw' ->
  intervals_get c (intervals sw) = Some i -> is_Some (Interval_lastPost i) ->
  intervals_get c (intervals sw') = Some i.
Proof.
  intros H Hi [l Hl].
  apply sweep_post_Ok in H as [[_ ->]|[_ (present & Hs)]]; [assumption|].
  rewrite (swept_intervals _ _ _ _ _ Hs), Hi. f_equal.
  case_decide; [eapply close_at_closed; eauto|reflexivity].
Qed.

Lemma sweep_loop_frozen w ps : forall sw sw' c i,
  foldR (sweep_post w) ps sw = Ok sw' ->
  intervals_get c (intervals sw) = Some i -> is_Some (Interval_lastPost i) ->
  intervals_get c (intervals sw') = Some i.
Proof.
  induction ps as [|p ps IH]; simpl; intros sw sw' c i.
  - now intros [= <-].
  - intros H Hi Hl. apply rbind_Ok in H as (sw1 & H1 & H).
    eapply IH; eauto. eapply sweep_post_frozen; eauto.
Qed.

Lemma sweep_post_warned_mono w sw p sw' c :
  sweep_post w sw p = Ok sw' -> c ∈ warnedContacts sw -> c ∈ warnedContacts sw'.
Proof.
  intros H Hc.
  apply sweep_post_Ok in H as [[_ ->]|[_ (present & Hs)]]; [assumption|].
  apply (swept_warned _ _ _ _ _ Hs). now left.
Qed.

Lemma sweep_loop_warned_mono w ps : forall sw sw' c,
  foldR (sweep_post w) ps sw = Ok sw' -> c ∈ warnedContacts sw -> c ∈ warnedContacts sw'.
Proof.
  induction ps as [|p ps IH]; simpl; intros sw sw' c.
  - now intros [= <-].
  - intros H Hc. apply rbind_Ok in H as (sw1 & H1 & H).
    eapply IH; eauto. eapply sweep_post_warned_mono; eauto.
Qed.

(** The forward walk is one run of the sweep over the posts of the
    sessions it adopts, in turn. *)
Lemma walk_forwards_sweeps w : forall fuel r sw sw',
  walk_forwards fuel w r sw = Ok sw' ->
  exists ps, foldR (sweep_post w) ps sw = Ok sw'.
Proof.
  induction fuel as [|fuel IH]; simpl; intros r sw sw'; [discriminate|].
  intros H. apply rbind_Ok in H as ([sw1 next] & Hstep & H). simpl in H.
  apply forward_step_Ok in Hstep as (s & _ & _ & _ & _ & _ & _ & Hsw1 & _).
  destruct next as [r'|].
  - apply IH in H as (ps & Hps). exists (Session_posts s ++ ps).
    rewrite foldR_app, Hsw1. exact Hps.
  - injection H as <-. eauto.
Qed.

Lemma finish_participant w sw convo diags c i l email :
  finish w sw = Ok (convo, diags) ->
  intervals_get c (intervals sw) = Some i -> Interval_lastPost i = Some l ->
  contact_email w c = Ok email ->
  mkParticipant email (Interval_firstPost i) l ∈ participants convo /\ diags = warnings sw.
Proof.
  unfold finish. intros H Hi Hl He.
  apply rbind_Ok in H as (pars & Hpars & H).
  apply rbind_Ok in H as (cv & Hcv & [= <- <-]).
  split; [|reflexivity].
  unfold Conversation_init in Hcv.
  apply rbind_Ok in Hcv as (fp & _ & Hcv). apply rbind_Ok in Hcv as (lp & _ & [= <-]).
  simpl.
  destruct (mapR_Ok_elem_inv _ _ _ (c, i) Hpars) as (par & Hpar & Hto).
  { apply list_elem_of_fmap. exists (c, i). split.
    - unfold close_interval. simpl. now rewrite Hl.
    - now apply intervals_get_elem. }
  unfold to_participant in Hto. simpl in Hto. rewrite He, Hl in Hto. simpl in Hto.
  injection Hto as <-. exact Hpar.
Qed.

(** * The backfill *)

Lemma update_session_lookup r s' (cs : list Contact) ci :
  update_session r s' cs !! ci
  = (fun c => if decide (ci = r.1)
              then set_sessions c (<[r.2 := s']> (Contact_sessions c)) else c) <$> cs !! ci.
Proof.
  unfold update_session. destruct (cs !! r.1) as [c|] eqn:E.
  - destruct (decide (ci = r.1)) as [->|Hne].
    + rewrite list_lookup_insert_eq by (eapply lookup_lt_Some; eauto). now rewrite E.
    + rewrite list_lookup_insert_ne by congruence. now destruct (cs !! ci).
  - destruct (decide (ci = r.1)) as [->|Hne]; [now rewrite E|]. now destruct (cs !! ci).
Qed.

Lemma Session_addPost_contact self post w ci :
  exists f, contacts (Session_addPost self post w) !! ci = f <$> contacts w !! ci /\
    forall c, Contact_email (f c) = Contact_email c /\
              length (Contact_sessions (f c)) = length (Contact_sessions c).
Proof.
  destruct (Session_addPost_cases self post w) as [H|s l H Hl Hle|s H Hl]; simpl.
  - exists id. split; [now destruct (contacts w !! ci)|auto].
  - exists id. split; [now destruct (contacts w !! ci)|auto].
  - eexists. split; [apply update_session_lookup|].
    intros c. case_decide; simpl; [|auto]. now rewrite length_insert.
Qed.

Lemma Session_addPost_length self post w :
  length (contacts (Session_addPost self post w)) = length (contacts w).
Proof.
  destruct (Session_addPost_cases self post w) as [H|s l H Hl Hle|s H Hl]; simpl; auto.
  unfold update_session. destruct (contacts w !! self.1); [apply length_insert|reflexivity].
Qed.

Lemma Session_addPost_getSession self post w ci sessionId :
  Contact_getSession (Session_addPost self post w) ci sessionId
  = Contact_getSession w ci sessionId.
Proof.
  unfold Contact_getSession.
  destruct (Session_addPost_contact self post w ci) as (f & -> & Hf).
  destruct (contacts w !! ci) as [c|]; simpl; [|reflexivity].
  now rewrite (proj2 (Hf c)).
Qed.

Lemma Session_addPost_lookup self post w r s :
  lookupSession w r = Some s ->
  exists s', lookupSession (Session_addPost self post w) r = Some s' /\
    (Session_posts s' = Session_posts s \/
     (r = self /\ Session_posts s' = Session_posts s ++ [post])).
Proof.
  intros Hs.
  destruct (Session_addPost_cases self post w) as [H|s0 l H Hl Hle|s0 H Hl]; eauto.
  unfold lookupSession at 1. simpl. rewrite (lookup_update_session w self s0 _ H).
  case_decide as Hr; [|eauto]. subst r.
  rewrite H in Hs. injection Hs as <-. eexists. split; [reflexivity|]. right. auto.
Qed.

Lemma Session_addPost_empty self post w s :
  lookupSession w self = Some s -> Session_posts s = [] ->
  lookupSession (Session_addPost self post w) self = Some (set_posts s [post]).
Proof.
  intros Hs He. unfold Session_addPost. rewrite Hs, He. simpl.
  unfold lookupSession at 1. simpl. rewrite (lookup_update_session w self s _ Hs).
  now rewrite decide_True.
Qed.

Lemma Session_addPost_has_first self post w ci :
  has_first w ci -> has_first (Session_addPost self post w) ci.
Proof.
  intros (r & s & Hr & Hs & Hne).
  destruct (Session_addPost_lookup self post w r s Hs) as (s' & Hs' & Hp).
  exists r, s'. rewrite Session_addPost_getSession. split; [assumption|].
  split; [assumption|].
  destruct Hp as [->|[_ ->]]; [assumption|]. now destruct (Session_posts s).
Qed.

Lemma backfill_contact_Ok st ci st' :
  backfill_contact st ci = Ok st' ->
  exists c r s,
    contacts st.2 !! ci = Some c /\ Contact_getSession st.2 ci 1 = Ok r /\
    lookupSession st.2 r = Some s /\
    ((Session_posts s = [] /\ st'.1 = (st.1 + 1)%N /\
      st'.2 = Session_addPost r (blank_post st.1)
                (mkWorld (contacts st.2) (posts st.2)
                         (stderr st.2 ++ [WarnMissingFirst (Contact_email c)])))
     \/ (Session_posts s <> [] /\ st' = st)).
Proof.
  unfold backfill_contact. intros H.
  apply rbind_Ok in H as (c & Hc & H). apply of_option_Ok in Hc.
  apply rbind_Ok in H as (r & Hr & H).
  apply rbind_Ok in H as (s & Hs & H). apply of_option_Ok in Hs.
  exists c, r, s. repeat (split; [assumption|]).
  destruct (Session_posts s) as [|p ps]; simpl in H; injection H as <-.
  - left. auto.
  - right. auto.
Qed.

Lemma backfill_contact_has_first st ci st' :
  backfill_contact st ci = Ok st' ->
  has_first st'.2 ci /\ (forall cj, has_first st.2 cj -> has_first st'.2 cj) /\
  length (contacts st'.2) = length (contacts st.2).
Proof.
  intros H. apply backfill_contact_Ok in H
    as (c & r & s & Hc & Hr & Hs & [(He & _ & ->)|(Hne & ->)]).
  - set (w1 := mkWorld _ _ _). split; [|split].
    + exists r, (set_posts s [blank_post st.1]).
      rewrite Session_addPost_getSession. split; [exact Hr|].
      split; [now apply (Session_addPost_empty r _ w1 s)|discriminate].
    + intros cj Hcj. now apply (Session_addPost_has_first r _ w1).
    + apply (Session_addPost_length r _ w1).
  - split; [exists r, s; auto|]. auto.
Qed.

Lemma backfill_loop_has_first l : forall st st',
  foldR backfill_contact l st = Ok st' ->
  (forall ci, ci ∈ l -> has_first st'.2 ci) /\
  (forall cj, has_first st.2 cj -> has_first st'.2 cj) /\
  length (contacts st'.2) = length (contacts st.2).
Proof.
  induction l as [|ci l IH]; simpl; intros st st'.
  - intros [= <-]. split; [|auto]. intros ci H. now apply not_elem_of_nil in H.
  - intros H. apply rbind_Ok in H as (st1 & H1 & H).
    apply backfill_contact_has_first in H1 as (Hci & Hkeep1 & Hlen1).
    apply IH in H as (Hl & Hkeep & Hlen).
    split; [|split; [auto|congruence]].
    intros cj Hcj. apply elem_of_cons in Hcj as [->|Hcj]; auto.
Qed.

Lemma has_first_reads w ci :
  has_first w ci ->
  exists firstPost lastPost,
    session1_first w ci = Ok firstPost /\ session1_last w ci = Ok lastPost.
Proof.
  intros (r & s & Hr & Hs & Hne).
  destruct (live_first_post w r) as (f & Hf); [exists s; auto|].
  destruct (live_last_post w r) as (l & Hl); [exists s; auto|].
  exists f, l. unfold session1_first, session1_last. rewrite Hr. auto.
Qed.

(** * The synthetic keys *)

Lemma str_compare_app_eq a b b' :
  String.compare (a ++ b) (a ++ b') = String.compare b b'.
Proof.
  induction a as [|x a IH]; simpl; [reflexivity|]. now rewrite ascii_compare_refl.
Qed.

Lemma str_compare_app_lt a : forall a' b b',
  String.length a = String.length a' -> String.compare a a' = Lt ->
  String.compare (a ++ b) (a' ++ b') = Lt.
Proof.
  induction a as [|x a IH]; intros [|y a'] b b'; simpl; try discriminate.
  intros [= Hlen]. destruct (Ascii.compare x y); auto.
Qed.

Lemma str_length_app a b : String.length (a ++ b) = String.length a + String.length b.
Proof. induction a as [|x a IH]; simpl; auto. Qed.

Lemma digits_w_length w : forall n, String.length (digits_w w n) = w.
Proof.
  induction w as [|w IH]; intros n; simpl; [reflexivity|].
  rewrite str_length_app, IH. simpl. lia.
Qed.

Lemma digit_char_lt d d' :
  (d < d')%N -> (d' < 10)%N ->
  String.compare (String (digit_char d) "") (String (digit_char d') "") = Lt.
Proof.
  intros H H'. simpl. unfold Ascii.compare, digit_char.
  rewrite !N_ascii_embedding by lia.
  replace (48 + d ?= 48 + d')%N with Lt; [reflexivity|].
  symmetry. apply N.compare_lt_iff. lia.
Qed.

Lemma digits_w_lt w : forall n m,
  (n < m)%N -> (m < 10 ^ N.of_nat w)%N ->
  String.compare (digits_w w n) (digits_w w m) = Lt.
Proof.
  induction w as [|w IH]; intros n m Hnm Hm.
  - simpl in Hm. lia.
  - cbn [digits_w].
    rewrite Nat2N.inj_succ, N.pow_succ_r' in Hm.
    assert (H10 : (10 <> 0)%N) by lia.
    pose proof (N.div_mod n 10 H10) as Hn. pose proof (N.div_mod m 10 H10) as Hmm.
    pose proof (N.mod_lt n 10 H10) as Hn'. pose proof (N.mod_lt m 10 H10) as Hm'.
    pose proof (N.Div0.div_le_mono n m 10 (N.lt_le_incl _ _ Hnm)) as Hle.
    destruct (N.lt_ge_cases (n / 10) (m / 10)) as [Hlt|Hge].
    + apply str_compare_app_lt; [now rewrite !digits_w_length|].
      apply IH; [assumption|]. now apply N.Div0.div_lt_upper_bound.
    + assert (Heq : (n / 10 = m / 10)%N) by (apply N.le_antisymm; assumption).
      rewrite Heq in *. rewrite str_compare_app_eq.
      remember (m / 10)%N as q. remember (n mod 10)%N as rn. remember (m mod 10)%N as rm.
      apply digit_char_lt; lia.
Qed.

Lemma ndigits_bound fuel : forall n k,
  (n < 10 ^ N.of_nat k)%N -> 1 <= k -> ndigits fuel n <= k.
Proof.
  induction fuel as [|fuel IH]; intros n k Hn Hk; simpl; [assumption|].
  destruct (N.ltb_spec n 10); [assumption|].
  destruct k as [|k]; [lia|].
  destruct k as [|k]; [simpl in Hn; lia|].
  apply le_n_S, IH; [|lia].
  rewrite Nat2N.inj_succ, N.pow_succ_r' in Hn.
  now apply N.Div0.div_lt_upper_bound.
Qed.

Lemma fmt_010d_small n : (n < 10 ^ 10)%N -> fmt_010d n = digits_w 10 n.
Proof.
  intros H. unfold fmt_010d.
  pose proof (ndigits_bound (N.to_nat (N.size n)) n 10 H).
  rewrite Nat.max_l by lia. reflexivity.
Qed.

Lemma blank_post_lt n m :
  (n < m)%N -> (m < 10 ^ 10)%N -> PyStr.lt (blank_post n) (blank_post m) = true.
Proof.
  intros Hnm Hm. unfold PyStr.lt, String.ltb, blank_post.
  rewrite str_compare_app_eq, !fmt_010d_small by lia.
  now rewrite (digits_w_lt 10 n m Hnm Hm).
Qed.

Lemma blank_post_before_real n p :
  PyStr.le "0001" p = true -> PyStr.lt (blank_post n) p = true.
Proof.
  intros H. apply (str_lt_le_trans _ "0001"); [|assumption].
  unfold blank_post. reflexivity.
Qed.

(** * The extremal element is extremal *)

Lemma py_min_from_le {A} (l : list (string * A)) : forall best x,
  x ∈ best :: l -> PyStr.le (py_min_from best l).1 x.1 = true.
Proof.
  induction l as [|y l IH]; simpl; intros best x Hx.
  - apply elem_of_cons in Hx as [->|Hx]; [apply str_le_refl|].
    now apply not_elem_of_nil in Hx.
  - destruct (PyStr.lt y.1 best.1) eqn:E.
    + apply elem_of_cons in Hx as [->|Hx].
      * eapply str_le_trans; [apply (IH y y); apply elem_of_cons; now left|].
        now apply str_lt_le.
      * apply IH. exact Hx.
    + apply elem_of_cons in Hx as [->|Hx].
      * apply IH. apply elem_of_cons. now left.
      * apply elem_of_cons in Hx as [->|Hx].
        -- eapply str_le_trans; [apply (IH best best); apply elem_of_cons; now left|].
           pose proof (str_ge_not_lt y.1 best.1) as H. rewrite E in H. exact H.
        -- apply IH. apply elem_of_cons. now right.
Qed.

Lemma py_max_from_ge {A} (l : list (string * A)) : forall best x,
  x ∈ best :: l -> PyStr.le x.1 (py_max_from best l).1 = true.
Proof.
  induction l as [|y l IH]; simpl; intros best x Hx.
  - apply elem_of_cons in Hx as [->|Hx]; [apply str_le_refl|].
    now apply not_elem_of_nil in Hx.
  - destruct (PyStr.gt y.1 best.1) eqn:E.
    + apply elem_of_cons in Hx as [->|Hx].
      * eapply str_le_trans; [|apply (IH y y); apply elem_of_cons; now left].
        apply str_lt_le. exact E.
      * apply IH. exact Hx.
    + apply elem_of_cons in Hx as [->|Hx].
      * apply IH. apply elem_of_cons. now left.
      * apply elem_of_cons in Hx as [->|Hx].
        -- eapply str_le_trans; [|apply (IH best best); apply elem_of_cons; now left].
           pose proof (str_le_not_gt y.1 best.1) as H. rewrite E in H. exact H.
        -- apply IH. apply elem_of_cons. now right.
Qed.

Lemma py_min_by_le {A} (l : list (string * A)) m x :
  py_min_by l = Ok m -> x ∈ l -> PyStr.le m.1 x.1 = true.
Proof. destruct l; simpl; [discriminate|]. intros [= <-]. apply py_min_from_le. Qed.

Lemma py_max_by_ge {A} (l : list (string * A)) m x :
  py_max_by l = Ok m -> x ∈ l -> PyStr.le x.1 m.1 = true.
Proof. destruct l; simpl; [discriminate|]. intros [= <-]. apply py_max_from_ge. Qed.

(** * Where the posts of a reconstruction come from *)

Lemma intervals_set_elem c i ivs x :
  x ∈ intervals_set c i ivs -> x = (c, i) \/ x ∈ ivs.
Proof.
  induction ivs as [|[c0 i0] ivs IH]; simpl.
  - intros H. apply list_elem_of_singleton in H. auto.
  - destruct (c0 =? c) eqn:E.
    + apply Nat.eqb_eq in E. subst c0. intros H.
      apply elem_of_cons in H as [->|H]; [auto|].
      right. apply elem_of_cons. now right.
    + intros H. apply elem_of_cons in H as [->|H].
      * right. apply elem_of_cons. now left.
      * destruct (IH H) as [->|Hin]; auto.
        right. apply elem_of_cons. now right.
Qed.

Section firsts.
Variables (w : World) (Q : string -> Prop).

Lemma add_contact_firsts p sw c sw' :
  Q p -> firsts_in Q sw -> add_contact w p sw c = Ok sw' -> firsts_in Q sw'.
Proof.
  intros Hp [Hi Hq]. unfold add_contact.
  destruct (intervals_get c (intervals sw)).
  - case_decide as Hd; [intros [= <-]; split; auto|].
    intros H. apply rbind_Ok in H as (email & _ & [= <-]). split; auto.
  - intros [= <-]. split; [|exact Hq]. simpl. intros c' i' H.
    apply intervals_set_elem in H as [[= -> ->]|H]; [exact Hp|eauto].
Qed.

Lemma del_contact_firsts sw c sw' :
  firsts_in Q sw -> del_contact sw c = Ok sw' -> firsts_in Q sw'.
Proof.
  intros [Hi Hq]. unfold del_contact. intros H.
  apply rbind_Ok in H as (i & Hget & H). apply of_option_Ok in Hget.
  destruct (Interval_lastPost i); injection H as <-; [split; auto|].
  split; [|exact Hq]. simpl. intros c' i' H.
  apply intervals_set_elem in H as [[= -> ->]|H]; [|eauto].
  simpl. apply (Hi c). now apply intervals_get_elem.
Qed.

Lemma sweep_post_firsts sw p sw' :
  Q p -> firsts_in Q sw -> sweep_post w sw p = Ok sw' -> firsts_in Q sw'.
Proof.
  intros Hp Hin. unfold sweep_post.
  destruct (skip_post sw p); [now intros [= <-]|].
  intros H.
  apply rbind_Ok in H as (refs & _ & H).
  apply rbind_Ok in H as (cs & _ & H).
  apply rbind_Ok in H as (sw1 & H1 & H).
  apply rbind_Ok in H as (sw2 & H2 & [= <-]).
  eapply (foldR_invariant (firsts_in Q)) in H1; eauto using add_contact_firsts.
  eapply (foldR_invariant (firsts_in Q)) in H2; eauto using del_contact_firsts.
  destruct H2 as [Hi _]. split; [exact Hi|]. simpl. now intros q [= <-].
Qed.

Lemma sweep_loop_firsts ps : forall sw sw',
  (forall p, p ∈ ps -> Q p) -> firsts_in Q sw ->
  foldR (sweep_post w) ps sw = Ok sw' -> firsts_in Q sw'.
Proof.
  induction ps as [|p ps IH]; simpl; intros sw sw' Hps Hin.
  - now intros [= <-].
  - intros H. apply rbind_Ok in H as (sw1 & H1 & H).
    eapply IH; [| |exact H].
    + intros q Hq. apply Hps, elem_of_cons. now right.
    + eapply sweep_post_firsts; [|exact Hin|exact H1]. apply Hps, elem_of_cons. now left.
Qed.

Hypothesis Hwf : wf_world w.
Hypothesis Hclosed : forall r s p q, lookupSession w r = Some s ->
  p ∈ Session_posts s -> q ∈ Session_posts s -> Q p -> Q q.

Lemma indexed_session_in p refs r :
  Q p -> posts w !! p = Some refs -> r ∈ refs -> session_in w Q r.
Proof.
  intros Hp Hrefs Hr. destruct (wf_sound _ Hwf _ _ _ Hrefs Hr) as (s & Hs & Hin).
  exists s. split; [assumption|]. intros q Hq. eapply Hclosed; eauto.
Qed.

Lemma walk_backwards_in : forall fuel r r',
  session_in w Q r -> walk_backwards fuel w r = Ok r' -> session_in w Q r'.
Proof.
  induction fuel as [|fuel IH]; simpl; intros r r' Hr; [discriminate|].
  intros H. apply rbind_Ok in H as (next & Hstep & H).
  destruct next as [r1|]; [|now injection H as <-].
  eapply IH; [|exact H].
  apply backward_step_Some in Hstep as (fA & k & refs & HfA & Hrefs & Hin & _ & _).
  apply first_post_Ok in HfA as (s & Hs & Hhead).
  destruct Hr as (s0 & Hs0 & HQ). rewrite Hs in Hs0. injection Hs0 as <-.
  eapply indexed_session_in; [|exact Hrefs|exact Hin].
  apply HQ. now apply head_Some_elem_of.
Qed.

Lemma walk_forwards_firsts : forall fuel r sw sw',
  session_in w Q r -> firsts_in Q sw -> walk_forwards fuel w r sw = Ok sw' ->
  firsts_in Q sw'.
Proof.
  induction fuel as [|fuel IH]; simpl; intros r sw sw' Hr Hin; [discriminate|].
  intros H. apply rbind_Ok in H as ([sw1 next] & Hstep & H). simpl in H.
  apply forward_step_Ok in Hstep
    as (s & prev & refs & k & r0 & lastA & Hs & Hsw1 & Hprev & Hrefs & Hr0 & _ & _ & Hnext).
  destruct Hr as (s0 & Hs0 & HQ). rewrite Hs in Hs0. injection Hs0 as <-.
  pose proof (sweep_loop_firsts _ _ _ HQ Hin Hsw1) as Hin1.
  destruct next as [r1|]; [|now injection H as <-].
  eapply IH; [|exact Hin1|exact H].
  destruct (PyStr.le k lastA); [discriminate|]. injection Hnext as ->.
  eapply indexed_session_in; [|exact Hrefs|exact Hr0].
  now apply (proj2 Hin1).
Qed.

Lemma finish_first sw convo diags :
  firsts_in Q sw -> finish w sw = Ok (convo, diags) -> Q (Conversation_firstPost convo).
Proof.
  intros [Hi _]. unfold finish. intros H.
  apply rbind_Ok in H as (pars & Hpars & H).
  apply rbind_Ok in H as (cv & Hcv & [= <- <-]).
  unfold Conversation_init in Hcv.
  apply rbind_Ok in Hcv as ([fp par] & Hmin & Hcv).
  apply rbind_Ok in Hcv as (lp & _ & [= <-]). simpl.
  apply py_min_by_Ok in Hmin.
  apply list_elem_of_fmap in Hmin as (par' & [= -> ->] & Hpar).
  destruct (mapR_Ok_elem _ _ _ _ Hpars Hpar) as (ci & Hci & Hto).
  apply list_elem_of_fmap in Hci as ([c i] & -> & Hci).
  unfold to_participant in Hto.
  apply rbind_Ok in Hto as (email & _ & Hto).
  apply rbind_Ok in Hto as (l & _ & [= <-]). simpl.
  unfold close_interval. simpl. destruct (Interval_lastPost i); simpl; eauto.
Qed.

Lemma build_first fuel post convo diags :
  Q post -> buildConversationByPost_fuel fuel w post = Ok (convo, diags) ->
  Q (Conversation_firstPost convo).
Proof.
  intros Hpost. unfold buildConversationByPost_fuel, lookup_posts. intros H.
  apply rbind_Ok in H as (refs & Hrefs & H). apply of_option_Ok in Hrefs.
  apply rbind_Ok in H as (session0 & H0 & H). apply py_index_first in H0.
  apply rbind_Ok in H as (sessionA & HA & H).
  apply rbind_Ok in H as (sw & Hsw & H).
  eapply finish_first; [|exact H].
  eapply walk_forwards_firsts; [| |exact Hsw].
  - eapply walk_backwards_in; [|exact HA].
    eapply indexed_session_in; [exact Hpost|exact Hrefs|]. now apply head_Some_elem_of.
  - split; [intros c i Hin; now apply not_elem_of_nil in Hin|discriminate].
Qed.

End firsts.

(** * Synthetic keys against real timestamps *)

Lemma unmixed_sound w r s p q :
  unmixed w = true -> lookupSession w r = Some s ->
  p ∈ Session_posts s -> q ∈ Session_posts s -> real_timestamp p = real_timestamp q.
Proof.
  unfold unmixed, lookupSession. intros H Hs Hp Hq.
  destruct (contacts w !! r.1) as [c|] eqn:Ec; simpl in Hs; [|discriminate].
  rewrite forallb_forall in H.
  specialize (H c (proj1 (list_elem_of_In _ _) (list_elem_of_lookup_2 _ _ _ Ec))).
  rewrite forallb_forall in H.
  specialize (H s (proj1 (list_elem_of_In _ _) (list_elem_of_lookup_2 _ _ _ Hs))).
  unfold session_unmixed in H. apply orb_true_iff in H as [H|H];
    rewrite forallb_forall in H;
    pose proof (H p (proj1 (list_elem_of_In _ _) Hp)) as H1;
    pose proof (H q (proj1 (list_elem_of_In _ _) Hq)) as H2.
  - congruence.
  - apply negb_true_iff in H1, H2. congruence.
Qed.

Lemma not_real_lt p : real_timestamp p = false <-> PyStr.lt p "0001" = true.
Proof.
  unfold real_timestamp. rewrite str_le_not_gt. unfold PyStr.gt, PyStr.lt.
  now rewrite negb_false_iff.
Qed.

Lemma blank_post_not_real n : real_timestamp (blank_post n) = false.
Proof. apply not_real_lt. apply blank_post_before_real. reflexivity. Qed.

Lemma session1_first_indexed w ci p :
  wf_world w -> session1_first w ci = Ok p -> is_Some (posts w !! p).
Proof.
  intros Hwf. unfold session1_first. intros H.
  apply rbind_Ok in H as (r & _ & H).
  apply first_post_Ok in H as (s & Hs & Hhead).
  destruct (wf_complete _ Hwf r s p Hs) as (refs & -> & _); [|eauto].
  now apply head_Some_elem_of.
Qed.

Lemma build_class w post b convo diags :
  wf_world w -> unmixed w = true -> real_timestamp post = b ->
  buildConversationByPost w post = Ok (convo, diags) ->
  real_timestamp (Conversation_firstPost convo) = b.
Proof.
  intros Hwf Hun Hb H.
  apply (build_first w (fun p => real_timestamp p = b) Hwf) in H; [exact H| |exact Hb].
  intros r s p q Hs Hp Hq Hpb. rewrite <- Hpb. symmetry. eapply unmixed_sound; eauto.
Qed.

(** * The ordered dictionary has one entry per contact *)

Lemma intervals_get_None c ivs : intervals_get c ivs = None <-> c ∉ ivs.*1.
Proof.
  induction ivs as [|[c0 i0] ivs IH]; simpl.
  - split; [intros _; apply not_elem_of_nil|reflexivity].
  - destruct (c0 =? c) eqn:E.
    + apply Nat.eqb_eq in E. subst c0. split; [discriminate|].
      intros H. exfalso. apply H. apply elem_of_cons. now left.
    + apply Nat.eqb_neq in E. rewrite IH. split.
      * intros H H'. apply elem_of_cons in H' as [H'|H']; [simpl in H'; congruence|now apply H].
      * intros H H'. apply H. apply elem_of_cons. now right.
Qed.

Lemma intervals_set_keys c i ivs :
  (intervals_set c i ivs).*1
  = match intervals_get c ivs with
    | Some _ => ivs.*1
    | None => ivs.*1 ++ [c]
    end.
Proof.
  induction ivs as [|[c0 i0] ivs IH]; [reflexivity|].
  cbn [intervals_set intervals_get]. destruct (c0 =? c) eqn:E; [reflexivity|].
  rewrite !fmap_cons, IH. now destruct (intervals_get c ivs).
Qed.

Lemma intervals_set_NoDup c i ivs : NoDup ivs.*1 -> NoDup (intervals_set c i ivs).*1.
Proof.
  intros H. rewrite intervals_set_keys.
  destruct (intervals_get c ivs) eqn:E; [assumption|].
  apply NoDup_app. split; [assumption|]. split; [|apply NoDup_singleton].
  intros x Hx Hx'. apply list_elem_of_singleton in Hx'. subst x.
  now apply intervals_get_None in E.
Qed.

Lemma intervals_elem_get_NoDup c i ivs :
  NoDup ivs.*1 -> (c, i) ∈ ivs -> intervals_get c ivs = Some i.
Proof.
  induction ivs as [|[c0 i0] ivs IH]; simpl; intros Hnd Hin;
    [now apply not_elem_of_nil in Hin|].
  apply NoDup_cons in Hnd as [Hc0 Hnd].
  apply elem_of_cons in Hin as [[= -> ->]|Hin]; [now rewrite Nat.eqb_refl|].
  destruct (c0 =? c) eqn:E; [|auto].
  apply Nat.eqb_eq in E. subst c0. exfalso. apply Hc0.
  apply list_elem_of_fmap. exists (c, i). auto.
Qed.

Lemma add_contact_keys w p sw c sw' :
  NoDup (intervals sw).*1 -> add_contact w p sw c = Ok sw' -> NoDup (intervals sw').*1.
Proof.
  intros Hnd. unfold add_contact.
  destruct (intervals_get c (intervals sw)).
  - case_decide as Hd; [now intros [= <-]|].
    intros H. apply rbind_Ok in H as (email & _ & [= <-]). exact Hnd.
  - intros [= <-]. simpl. now apply intervals_set_NoDup.
Qed.

Lemma del_contact_keys sw c sw' :
  NoDup (intervals sw).*1 -> del_contact sw c = Ok sw' -> NoDup (intervals sw').*1.
Proof.
  intros Hnd. unfold del_contact. intros H.
  apply rbind_Ok in H as (i & _ & H).
  destruct (Interval_lastPost i); injection H as <-; [exact Hnd|].
  simpl. now apply intervals_set_NoDup.
Qed.

Lemma sweep_post_keys w sw p sw' :
  NoDup (intervals sw).*1 -> sweep_post w sw p = Ok sw' -> NoDup (intervals sw').*1.
Proof.
  intros Hnd. unfold sweep_post. destruct (skip_post sw p); [now intros [= <-]|].
  intros H.
  apply rbind_Ok in H as (refs & _ & H).
  apply rbind_Ok in H as (cs & _ & H).
  apply rbind_Ok in H as (sw1 & H1 & H).
  apply rbind_Ok in H as (sw2 & H2 & [= <-]). simpl.
  eapply (foldR_invariant (fun s => NoDup (intervals s).*1)) in H1;
    eauto using add_contact_keys.
  eapply (foldR_invariant (fun s => NoDup (intervals s).*1)) in H2;
    eauto using del_contact_keys.
Qed.

(** A property of the sweep's variables that every post keeps is kept by
    the whole forward walk. *)
Lemma walk_forwards_invariant w (P : Sweep -> Prop) :
  (forall sw p sw', P sw -> sweep_post w sw p = Ok sw' -> P sw') ->
  forall fuel r sw sw', P sw -> walk_forwards fuel w r sw = Ok sw' -> P sw'.
Proof.
  intros Hstep. induction fuel as [|fuel IH]; simpl; intros r sw sw' Hsw; [discriminate|].
  intros H. apply rbind_Ok in H as ([sw1 next] & Hfs & H). simpl in H.
  apply forward_step_Ok in Hfs as (s & _ & _ & _ & _ & _ & _ & Hsw1 & _).
  eapply (foldR_invariant P) in Hsw1; eauto.
  destruct next as [r1|]; [eauto|now injection H as <-].
Qed.

(** * Intervals end no earlier than they start *)

Lemma str_le_empty p : PyStr.le "" p = true.
Proof. now destruct p. Qed.

Lemma skip_post_false sw p q :
  skip_post sw p = false -> prevPost sw = Some q -> PyStr.le q p = true.
Proof.
  unfold skip_post. intros H Hq. rewrite Hq in H.
  destruct q as [|a q]; [apply str_le_empty|].
  simpl in H. rewrite str_le_not_gt in H. apply negb_false_iff in H.
  now apply str_lt_le.
Qed.

Lemma sweep_post_ordered w sw p sw' :
  ordered_sweep sw -> sweep_post w sw p = Ok sw' -> ordered_sweep sw'.
Proof.
  intros Hord H.
  apply sweep_post_Ok in H as [[_ ->]|[Hskip (present & Hs)]]; [assumption|].
  pose proof (swept_intervals _ _ _ _ _ Hs) as Hi.
  pose proof (swept_prevPost _ _ _ _ _ Hs) as Hp.
  split.
  - intros c i l. rewrite Hi.
    destruct (intervals_get c (intervals sw)) as [i0|] eqn:E.
    + intros [= <-]. case_decide as Hd; [|now apply (ord_closed _ Hord c)].
      unfold close_at. destruct (Interval_lastPost i0) eqn:El.
      * rewrite El. intros [= <-]. now apply (ord_closed _ Hord c).
      * simpl. intros Hq. now apply (ord_cursor _ Hord c).
    + case_decide; [|discriminate]. intros [= <-]. discriminate.
  - intros c i q. rewrite Hi, Hp. intros Hget [= <-].
    destruct (intervals_get c (intervals sw)) as [i0|] eqn:E.
    + assert (Hfirst : Interval_firstPost i = Interval_firstPost i0).
      { injection Hget as <-. case_decide; [apply close_at_first|reflexivity]. }
      rewrite Hfirst.
      destruct (prevPost sw) as [q|] eqn:Eq.
      * eapply str_le_trans; [now apply (ord_cursor _ Hord c i0 q)|].
        eapply skip_post_false; eauto.
      * rewrite (ord_start _ Hord Eq) in E. discriminate.
    + case_decide; [|discriminate]. injection Hget as <-. apply str_le_refl.
  - rewrite Hp. discriminate.
Qed.

Lemma ordered_init : ordered_sweep init_sweep.
Proof. split; simpl; try discriminate. reflexivity. Qed.

Lemma finish_ordered w sw convo diags :
  NoDup (intervals sw).*1 -> ordered_sweep sw -> finish w sw = Ok (convo, diags) ->
  forall par, par ∈ participants convo ->
    PyStr.le (Participant_firstPost par) (Participant_lastPost par) = true.
Proof.
  intros Hnd Hord. unfold finish. intros H.
  apply rbind_Ok in H as (pars & Hpars & H).
  apply rbind_Ok in H as (cv & Hcv & [= <- <-]).
  unfold Conversation_init in Hcv.
  apply rbind_Ok in Hcv as (fp & _ & Hcv). apply rbind_Ok in Hcv as (lp & _ & [= <-]).
  simpl. intros par Hpar.
  destruct (mapR_Ok_elem _ _ _ _ Hpars Hpar) as (ci & Hci & Hto).
  apply list_elem_of_fmap in Hci as ([c i] & -> & Hci).
  apply intervals_elem_get_NoDup in Hci; [|assumption].
  unfold to_participant in Hto.
  apply rbind_Ok in Hto as (email & _ & Hto).
  apply rbind_Ok in Hto as (l & Hl & [= <-]). apply of_option_Ok in Hl. simpl.
  unfold close_interval in *. simpl in *.
  destruct (Interval_lastPost i) eqn:El; simpl in *.
  - rewrite El in Hl. injection Hl as ->. now apply (ord_closed _ Hord c).
  - now apply (ord_cursor _ Hord c).
Qed.

Lemma to_participants_emails w : forall ivs pars,
  wf_world w -> NoDup ivs.*1 -> mapR (to_participant w) ivs = Ok pars ->
  NoDup (Participant_email <$> pars) /\
  forall par, par ∈ pars -> exists c, c ∈ ivs.*1 /\ contact_email w c = Ok (Participant_email par).
Proof.
  intros ivs pars Hwf. revert pars.
  induction ivs as [|[c i] ivs IH]; simpl; intros pars Hnd.
  - intros [= <-]. split; [constructor|]. intros par H. now apply not_elem_of_nil in H.
  - intros H. apply rbind_Ok in H as (par & Hpar & H).
    apply rbind_Ok in H as (pars' & Hpars' & [= <-]).
    apply NoDup_cons in Hnd as [Hc Hnd].
    destruct (IH _ Hnd Hpars') as (Hnd' & Hfrom).
    unfold to_participant in Hpar. simpl in Hpar.
    apply rbind_Ok in Hpar as (email & He & Hpar).
    apply rbind_Ok in Hpar as (l & _ & [= <-]).
    split.
    + simpl. apply NoDup_cons. split; [|assumption].
      intros Hin. apply list_elem_of_fmap in Hin as (par' & Heq & Hin).
      destruct (Hfrom _ Hin) as (c' & Hc' & He'). simpl in Heq. rewrite <- Heq in He'.
      apply Hc. now rewrite (contact_email_inj w c c' email Hwf He He').
    + intros par Hin. apply elem_of_cons in Hin as [->|Hin].
      * exists c. split; [apply elem_of_cons; now left|exact He].
      * destruct (Hfrom _ Hin) as (c' & Hc' & He'). exists c'.
        split; [apply elem_of_cons; now right|exact He'].
Qed.

Lemma close_interval_keys prev ivs : (map (close_interval prev) ivs).*1 = ivs.*1.
Proof.
  induction ivs as [|[c i] ivs IH]; [reflexivity|].
  cbn [map]. rewrite !fmap_cons, IH. f_equal.
  unfold close_interval. simpl. now destruct (Interval_lastPost i).
Qed.

Lemma walk_forwards_keys fuel w r sw :
  walk_forwards fuel w r init_sweep = Ok sw -> NoDup (intervals sw).*1.
Proof.
  apply (walk_forwards_invariant w (fun s => NoDup (intervals s).*1)).
  - intros; eapply sweep_post_keys; eauto.
  - constructor.
Qed.

Lemma walk_forwards_ordered fuel w r sw :
  walk_forwards fuel w r init_sweep = Ok sw -> ordered_sweep sw.
Proof.
  apply (walk_forwards_invariant w ordered_sweep).
  - intros; eapply sweep_post_ordered; eauto.
  - exact ordered_init.
Qed.
(** * The edge loops *)

Lemma foldR_total {A S} (f : S -> A -> Result S) (P : S -> Prop) l :
  (forall s x, P s -> x ∈ l -> exists s', f s x = Ok s' /\ P s') ->
  forall s, P s -> exists s', foldR f l s = Ok s' /\ P s'.
Proof.
  induction l as [|x l IH]; simpl; intros Hf s Hs; [eauto|].
  destruct (Hf s x Hs) as (s1 & H1 & Hs1); [apply elem_of_cons; now left|].
  rewrite H1. simpl. apply IH; [|assumption].
  intros s0 y Hs0 Hy. apply Hf; [assumption|]. apply elem_of_cons. now right.
Qed.

Lemma contact_index_total email (cs : list Contact) :
  email ∈ Contact_email <$> cs ->
  exists i c, contact_index email cs = Some i /\ cs !! i = Some c.
Proof.
  intros H. apply list_elem_of_fmap in H as (c & -> & Hc).
  destruct (list_find_elem_of (fun c0 => Contact_email c0 = Contact_email c) cs c Hc eq_refl)
    as [[i c'] Hfind].
  exists i, c'. unfold contact_index. rewrite Hfind. split; [reflexivity|].
  now apply list_find_Some in Hfind as (? & _ & _).
Qed.

Lemma build_participant_emails fuel w post convo diags par :
  buildConversationByPost_fuel fuel w post = Ok (convo, diags) ->
  par ∈ participants convo -> Participant_email par ∈ Contact_email <$> contacts w.
Proof.
  unfold buildConversationByPost_fuel. intros H Hpar.
  apply rbind_Ok in H as (refs & _ & H).
  apply rbind_Ok in H as (session0 & _ & H).
  apply rbind_Ok in H as (sessionA & _ & H).
  apply rbind_Ok in H as (sw & _ & H).
  unfold finish in H.
  apply rbind_Ok in H as (pars & Hpars & H).
  apply rbind_Ok in H as (cv & Hcv & [= <- <-]).
  unfold Conversation_init in Hcv.
  apply rbind_Ok in Hcv as (fp & _ & Hcv). apply rbind_Ok in Hcv as (lp & _ & [= <-]).
  simpl in Hpar.
  destruct (mapR_Ok_elem _ _ _ _ Hpars Hpar) as (ci & _ & Hto).
  unfold to_participant, contact_email in Hto.
  apply rbind_Ok in Hto as (email & He & Hto).
  apply rbind_Ok in He as (x & Hx & [= <-]). apply of_option_Ok in Hx.
  apply rbind_Ok in Hto as (l & _ & [= <-]). simpl.
  apply list_elem_of_fmap. exists x. split; [reflexivity|].
  eapply list_elem_of_lookup_2; eauto.
Qed.

Lemma isFormerContactTo_total w a b :
  wf_world w -> has_first w a -> has_first w b ->
  exists res, Contact_isFormerContactTo w a b = Ok res.
Proof.
  intros Hwf Ha Hb.
  destruct (has_first_reads _ _ Ha) as (fa & _ & Hfa & _).
  destruct (has_first_reads _ _ Hb) as (fb & _ & Hfb & _).
  unfold Contact_isFormerContactTo. rewrite Hfa, Hfb. simpl.
  destruct (PyStr.ge fa fb); [eauto|].
  destruct (build_total w fa Hwf (session1_first_indexed _ _ _ Hwf Hfa)) as (c1 & d1 & H1).
  destruct (build_total w fb Hwf (session1_first_indexed _ _ _ Hwf Hfb)) as (c2 & d2 & H2).
  unfold buildConversationByPost.
  rewrite (H1 _ (Nat.lt_succ_diag_r _)), (H2 _ (Nat.lt_succ_diag_r _)). simpl. eauto.
Qed.

(** What the inner loop adds to [edges]: one edge into A for some of the
    participants, and [num_edges] counts them. *)
Lemma edge_loop_Ok w contactA emailA firstPostA lastPostA convo pars :
  forall st st',
  foldR (edge_from w contactA emailA firstPostA lastPostA convo) pars st = Ok st' ->
  exists new, st'.1.1 = st.1.1 ++ new /\ st'.1.2 = st.1.2 + length new /\
    forall e, e ∈ new -> dest e = emailA /\
      exists par, par ∈ pars /\ src e = Participant_email par.
Proof.
  induction pars as [|par pars IH]; simpl; intros st st'.
  - intros [= <-]. exists []. rewrite app_nil_r. split; [reflexivity|].
    split; [simpl; lia|]. intros e He. now apply not_elem_of_nil in He.
  - intros H. apply rbind_Ok in H as (st1 & H1 & H).
    apply IH in H as (new & Hnew & Hn & Hall).
    unfold edge_from in H1.
    apply rbind_Ok in H1 as (contactB & _ & H1).
    apply rbind_Ok in H1 as (former & _ & H1).
    destruct (negb former.1); injection H1 as <-; simpl in *.
    + exists new. split; [assumption|]. split; [assumption|].
      intros e He. destruct (Hall e He) as (Hd & par' & Hpar' & Hsrc).
      split; [assumption|]. exists par'. split; [apply elem_of_cons; now right|assumption].
    + eexists (_ :: new). rewrite Hnew, <- app_assoc. split; [reflexivity|].
      split; [simpl; lia|].
      intros e He. apply elem_of_cons in He as [->|He].
      * simpl. split; [reflexivity|]. exists par. split; [apply elem_of_cons; now left|reflexivity].
      * destruct (Hall e He) as (Hd & par' & Hpar' & Hsrc).
        split; [assumption|]. exists par'. split; [apply elem_of_cons; now right|assumption].
Qed.

Lemma edges_for_Ok mainUsersEmail w st contactA st' :
  edges_for mainUsersEmail w st contactA = Ok st' ->
  exists emailA new,
    contact_email w contactA = Ok emailA /\ st'.1 = st.1 ++ new /\ new <> [] /\
    (forall e, e ∈ new -> dest e = emailA) /\
    (new = [mkEdge mainUsersEmail emailA black] \/
     forall e, e ∈ new -> src e ∈ Contact_email <$> contacts w).
Proof.
  unfold edges_for. intros H.
  apply rbind_Ok in H as (emailA & HemailA & H).
  apply rbind_Ok in H as (firstPostA & _ & H).
  apply rbind_Ok in H as (lastPostA & _ & H).
  apply rbind_Ok in H as ([convo d] & Hconvo & H).
  apply rbind_Ok in H as (r & Hr & H).
  apply edge_loop_Ok in Hr as (new & Hnew & Hn & Hall). simpl in *.
  exists emailA. destruct (r.1.2 =? 0) eqn:E; injection H as <-; simpl.
  - apply Nat.eqb_eq in E. assert (new = []) as -> by (destruct new; simpl in *; [reflexivity|lia]).
    rewrite app_nil_r in Hnew. rewrite Hnew.
    eexists. split; [assumption|]. split; [reflexivity|]. split; [discriminate|].
    split; [|now left].
    intros e He. apply list_elem_of_singleton in He. now subst e.
  - apply Nat.eqb_neq in E. exists new. split; [assumption|]. split; [assumption|].
    split; [intros ->; simpl in *; lia|].
    split; [intros e He; now apply Hall|]. right.
    intros e He. destruct (Hall e He) as (_ & par & Hpar & ->).
    eapply build_participant_emails; eauto.
Qed.

Lemma edges_loop_Ok mainUsersEmail w l : forall st st',
  foldR (edges_for mainUsersEmail w) l st = Ok st' ->
  exists new, st'.1 = st.1 ++ new /\
    (forall ci, ci ∈ l -> exists e, e ∈ new /\ contact_email w ci = Ok (dest e)) /\
    (forall e, e ∈ new ->
       (exists ci, ci ∈ l /\ contact_email w ci = Ok (dest e)) /\
       (src e = mainUsersEmail \/ src e ∈ Contact_email <$> contacts w)).
Proof.
  induction l as [|ci l IH]; simpl; intros st st'.
  - intros [= <-]. exists []. rewrite app_nil_r. split; [reflexivity|].
    split; [intros ci H|intros e H]; now apply not_elem_of_nil in H.
  - intros H. apply rbind_Ok in H as (st1 & H1 & H).
    apply edges_for_Ok in H1 as (emailA & new1 & HemailA & Hnew1 & Hne & Hdest & Hsrc).
    apply IH in H as (new & Hnew & Hevery & Hall).
    exists (new1 ++ new). rewrite Hnew, Hnew1, app_assoc. split; [reflexivity|]. split.
    + intros cj Hcj. apply elem_of_cons in Hcj as [->|Hcj].
      * destruct new1 as [|e new1]; [congruence|]. exists e.
        split; [apply elem_of_app; left; apply elem_of_cons; now left|].
        rewrite (Hdest e); [assumption|apply elem_of_cons; now left].
      * destruct (Hevery cj Hcj) as (e & He & Hce). exists e.
        split; [apply elem_of_app; now right|assumption].
    + intros e He. apply elem_of_app in He as [He|He].
      * split.
        -- exists ci. split; [apply elem_of_cons; now left|]. now rewrite (Hdest e He).
        -- destruct Hsrc as [->|Hsrc]; [|right; now apply Hsrc].
           apply list_elem_of_singleton in He. subst e. now left.
      * destruct (Hall e He) as ((cj & Hcj & Hce) & Hs). split; [|assumption].
        exists cj. split; [apply elem_of_cons; now right|assumption].
Qed.

Lemma edges_for_total mainUsersEmail w st contactA :
  wf_world w -> (forall ci, ci < length (contacts w) -> has_first w ci) ->
  contactA < length (contacts w) ->
  exists st', edges_for mainUsersEmail w st contactA = Ok st'.
Proof.
  intros Hwf Hall HA. unfold edges_for.
  destruct (lookup_lt_is_Some_2 _ _ HA) as [cA HcA].
  unfold contact_email at 1. rewrite HcA. simpl.
  destruct (has_first_reads _ _ (Hall _ HA)) as (fA & lA & HfA & HlA).
  rewrite HfA, HlA. simpl.
  destruct (build_total w fA Hwf (session1_first_indexed _ _ _ Hwf HfA)) as (convo & d & Hb).
  specialize (Hb _ (Nat.lt_succ_diag_r _)). fold (buildConversationByPost w fA) in Hb.
  rewrite Hb. simpl.
  destruct (foldR_total (edge_from w contactA (Contact_email cA) fA lA convo)
              (fun _ => True) (participants convo)) with (s := (st.1, 0, st.2 ++ d))
    as (r & Hr & _); [|exact I|].
  - intros s par _ Hpar. unfold edge_from.
    destruct (contact_index_total (Participant_email par) (contacts w))
      as (iB & cB & HiB & HcB); [eapply build_participant_emails; eauto|].
    rewrite HiB. simpl.
    destruct (isFormerContactTo_total w iB contactA Hwf) as (res & Hres);
      [apply Hall; eapply lookup_lt_Some; eauto|now apply Hall|].
    rewrite Hres. simpl. destruct (negb res.1); eauto.
  - rewrite Hr. simpl. destruct (r.1.2 =? 0); eauto.
Qed.

(** * What the writers of the store keep *)

Lemma lookupSession_Some w r s :
  lookupSession w r = Some s <->
  exists c, contacts w !! r.1 = Some c /\ Contact_sessions c !! r.2 = Some s.
Proof.
  unfold lookupSession. destruct (contacts w !! r.1) as [c|]; simpl.
  - split; [eauto|]. now intros (c' & [= <-] & H).
  - split; [discriminate|]. now intros (c' & H & _).
Qed.

Lemma email_at_Some w ci e :
  email_at w ci = Some e <-> exists c, contacts w !! ci = Some c /\ Contact_email c = e.
Proof.
  unfold email_at. destruct (contacts w !! ci) as [c|]; simpl.
  - split; [intros [= <-]; eauto|]. now intros (c' & [= <-] & ->).
  - split; [discriminate|]. now intros (c' & H & _).
Qed.

Lemma email_at_emails w w' ci :
  Contact_email <$> contacts w' = Contact_email <$> contacts w ->
  email_at w' ci = email_at w ci.
Proof. unfold email_at. intros H. now rewrite <- !list_lookup_fmap, H. Qed.

Lemma posts_from_alt Q w :
  posts_from Q w <->
  forall r s e p, email_at w r.1 = Some e -> lookupSession w r = Some s ->
    p ∈ Session_posts s -> Q e p.
Proof.
  split.
  - intros H r s e p He Hs Hp.
    apply lookupSession_Some in Hs as (c & Hc & Hs).
    apply email_at_Some in He as (c' & Hc' & <-).
    rewrite Hc in Hc'. injection Hc' as <-. eapply H; eauto.
  - intros H r c s p Hc Hs Hp. apply (H r s); [| |assumption].
    + apply email_at_Some. eauto.
    + apply lookupSession_Some. eauto.
Qed.

Lemma Session_addPost_emails self post w :
  Contact_email <$> contacts (Session_addPost self post w) = Contact_email <$> contacts w.
Proof.
  destruct (Session_addPost_cases self post w) as [H|s l H Hl Hle|s H Hl]; simpl; auto.
  apply emails_update_session.
Qed.

(** A session after [addPost] is the session before, with the post
    appended if it is the receiver. *)
Lemma Session_addPost_lookup_inv self post w r s' :
  lookupSession (Session_addPost self post w) r = Some s' ->
  exists s, lookupSession w r = Some s /\ Session_id s' = Session_id s /\
    Session_contact s' = Session_contact s /\
    (Session_posts s' = Session_posts s \/
     (r = self /\ Session_posts s' = Session_posts s ++ [post])).
Proof.
  destruct (Session_addPost_cases self post w) as [H|s l H Hl Hle|s H Hl].
  - intros Hs. exists s'. auto.
  - intros Hs. exists s'. auto.
  - unfold lookupSession at 1. simpl. rewrite (lookup_update_session w self s _ H).
    case_decide as Hr.
    + subst r. intros [= <-]. exists s. simpl. auto 6.
    + intros Hs. exists s'. auto.
Qed.

Lemma Session_addPost_lookup_fwd self post w r s :
  lookupSession w r = Some s ->
  exists s', lookupSession (Session_addPost self post w) r = Some s' /\
    Session_id s' = Session_id s /\ Session_contact s' = Session_contact s /\
    Session_posts s `prefix_of` Session_posts s'.
Proof.
  intros Hs.
  destruct (Session_addPost_cases self post w) as [H|s0 l H Hl Hle|s0 H Hl].
  - exists s. auto.
  - exists s. auto.
  - unfold lookupSession at 1. simpl. rewrite (lookup_update_session w self s0 _ H).
    case_decide as Hr; [|exists s; auto].
    subst r. rewrite H in Hs. injection Hs as <-. eexists. split; [reflexivity|].
    simpl. repeat split. now apply prefix_app_r.
Qed.

(** The sessions [reserveSessions] appends carry their position as id. *)
Lemma lookupSession_reserve_inv ci n w r s' :
  lookupSession (Contact_reserveSessions ci n w) r = Some s' ->
  lookupSession w r = Some s' \/
  (lookupSession w r = None /\ r.1 = ci /\
   s' = mkSession (Z.of_nat r.2 + 1) ci []).
Proof.
  unfold Contact_reserveSessions, lookupSession.
  destruct (contacts w !! ci) as [c|] eqn:Ec; [|now left]. simpl.
  destruct (decide (r.1 = ci)) as [E|E].
  - rewrite E, Ec. rewrite list_lookup_insert_eq by (eapply lookup_lt_Some; eauto). simpl.
    intros H. apply lookup_app_Some in H as [H|[Hlen H]]; [now left|].
    right. rewrite (lookup_ge_None_2 _ _ Hlen). split; [reflexivity|]. split; [reflexivity|].
    apply list_lookup_fmap_Some in H as (sid & -> & H).
    unfold py_range in H. apply lookup_seqZ in H as [-> _]. f_equal. lia.
  - rewrite list_lookup_insert_ne by congruence. now left.
Qed.

Lemma lookupSession_new_contact email w r :
  lookupSession (mkWorld (contacts w ++ [mkContact email []]) (posts w) (stderr w)) r
  = lookupSession w r.
Proof.
  unfold lookupSession. simpl.
  destruct (contacts w !! r.1) as [c|] eqn:Ec.
  - now rewrite (lookup_app_l_Some _ _ _ _ Ec).
  - destruct ((contacts w ++ [mkContact email []]) !! r.1) as [c|] eqn:Ec'; [|reflexivity].
    apply lookup_app_Some in Ec' as [Ec'|[_ Ec']]; [congruence|].
    apply list_lookup_singleton_Some in Ec' as [_ <-]. simpl.
    now destruct r.2.
Qed.

(** ** A property kept by every writer holds of every store the script
       builds *)

Section writers.
Variable P : World -> Prop.
Variable Q : string -> string -> Prop.

Hypothesis P_addPost : forall self post w c,
  contacts w !! self.1 = Some c -> Q (Contact_email c) post ->
  P w -> P (Session_addPost self post w).
Hypothesis P_reserve : forall ci n w, P w -> P (Contact_reserveSessions ci n w).
Hypothesis P_contact : forall email w, contact_index email (contacts w) = None ->
  P w -> P (mkWorld (contacts w ++ [mkContact email []]) (posts w) (stderr w)).
Hypothesis P_warn : forall w d, P w -> P (mkWorld (contacts w) (posts w) (stderr w ++ [d])).
Hypothesis Q_blank : forall email n, Q email (blank_post n).

Lemma getSession_addPost_keeps ci email w sessionId s post :
  P w -> email_at w ci = Some email -> Q email post ->
  Contact_getSession w ci sessionId = Ok s ->
  P (Session_addPost s post w) /\ email_at (Session_addPost s post w) ci = Some email.
Proof.
  intros HP He HQ Hs. apply Contact_getSession_contact in Hs.
  apply email_at_Some in He as (c & Hc & <-). split.
  - apply (P_addPost s post w c); [now rewrite Hs|assumption..].
  - rewrite (email_at_emails w) by apply Session_addPost_emails.
    apply email_at_Some. eauto.
Qed.

Lemma scan_elem_keeps ci email elem st st' :
  (forall p, tag_retained (tag elem) = true -> DateTime elem = Some p -> Q email p) ->
  scan_keeps P Q ci email st -> scan_elem ci elem st = Ok st' -> scan_keeps P Q ci email st'.
Proof.
  intros Helem (HP & He & Hprev). unfold scan_elem.
  destruct (String.eqb (tag elem) "Log").
  { destruct (LastSessionID elem) as [| |lastSessionId]; simpl; try discriminate.
    intros [= <-]. split; [now apply P_reserve|]. split; [|exact Hprev].
    simpl. rewrite (email_at_emails st.2) by apply emails_reserve. exact He. }
  destruct (tag_retained (tag elem)) eqn:Hret; simpl; [|intros [= <-]; now split].
  destruct (SessionID elem) as [| |sessionId]; simpl; try discriminate.
  destruct (DateTime elem) as [post|]; simpl; [|discriminate].
  specialize (Helem post eq_refl eq_refl).
  match goal with |- rbind ?m _ = _ -> _ => destruct m as [w1| |] eqn:E1 end;
    simpl; try discriminate.
  assert (H1 : P w1 /\ email_at w1 ci = Some email).
  { destruct (_ && _) in E1; [|injection E1 as <-; now split].
    destruct (scan_prevSessionId st.1), (scan_prevPost st.1) as [prevPost|];
      try discriminate.
    destruct (Contact_getSession _ _ _) as [s| |] eqn:Es; simpl in E1; try discriminate.
    injection E1 as <-. eapply getSession_addPost_keeps; eauto. }
  destruct H1 as [HP1 He1].
  match goal with |- rbind ?m _ = _ -> _ => destruct m as [w2| |] eqn:E2 end;
    simpl; try discriminate.
  intros [= <-]. unfold scan_keeps. simpl.
  destruct (_ || _) in E2.
  - destruct (Contact_getSession _ _ _) as [s| |] eqn:Es; simpl in E2; try discriminate.
    injection E2 as <-. simpl.
    destruct (getSession_addPost_keeps ci email w1 _ s post HP1 He1 Helem Es) as [HP2 He2].
    split; [exact HP2|]. split; [exact He2|]. discriminate.
  - injection E2 as <-. simpl. split; [exact HP1|]. split; [exact He1|].
    now intros p [= <-].
Qed.

Lemma scan_elems_keeps ci email elems : forall st st',
  (forall e p, e ∈ elems -> tag_retained (tag e) = true -> DateTime e = Some p ->
     Q email p) ->
  scan_keeps P Q ci email st -> scan_elems ci elems st = Ok st' -> scan_keeps P Q ci email st'.
Proof.
  induction elems as [|e rest IH]; simpl; intros st st' Helems Hst.
  - now intros [= <-].
  - destruct (scan_elem ci e st) as [st1| |] eqn:E; simpl; try discriminate.
    apply IH.
    + intros e' p He'. apply Helems, elem_of_cons. now right.
    + eapply scan_elem_keeps; [|exact Hst|exact E].
      intros p. apply Helems, elem_of_cons. now left.
Qed.

Lemma read_file_keeps email elems w w' :
  (forall e p, e ∈ elems -> tag_retained (tag e) = true -> DateTime e = Some p ->
     Q email p) ->
  P w -> read_file email elems w = Ok w' -> P w'.
Proof.
  intros Helems HP. unfold read_file.
  set (w0 := match contact_index email (contacts w) with Some _ => w | None => _ end).
  assert (HP0 : P w0).
  { subst w0. destruct (contact_index email (contacts w)) eqn:E; auto. }
  destruct (contact_index email (contacts w0)) as [ci|] eqn:Eci; simpl; [|discriminate].
  destruct (scan_elems ci elems _) as [st| |] eqn:E; simpl; try discriminate.
  apply scan_elems_keeps with (email := email) in E; [|exact Helems|].
  - destruct E as (HPst & Hest & Hprev).
    destruct (opt_truthy _); [|now intros [= <-]].
    destruct (scan_prevSessionId st.1), (scan_prevPost st.1) as [prevPost|];
      try discriminate.
    destruct (Contact_getSession _ _ _) as [s| |] eqn:Es; simpl; try discriminate.
    intros [= <-]. eapply getSession_addPost_keeps; eauto.
  - split; [exact HP0|]. split; [|discriminate].
    apply contact_index_Some in Eci. now apply email_at_Some.
Qed.

Lemma read_files_keeps files : forall w w',
  (forall f e p, f ∈ files -> e ∈ f.2 -> tag_retained (tag e) = true ->
     DateTime e = Some p -> Q f.1 p) ->
  P w -> read_files files w = Ok w' -> P w'.
Proof.
  induction files as [|f rest IH]; simpl; intros w w' Hfiles HP.
  - now intros [= <-].
  - destruct (read_file f.1 f.2 w) as [w1| |] eqn:E; simpl; try discriminate.
    apply IH.
    + intros f' e p Hf'. apply Hfiles, elem_of_cons. now right.
    + eapply read_file_keeps; [|exact HP|exact E].
      intros e p. apply Hfiles, elem_of_cons. now left.
Qed.

Lemma backfill_contact_keeps st ci st' :
  P st.2 -> backfill_contact st ci = Ok st' -> P st'.2.
Proof.
  intros HP H. apply backfill_contact_Ok in H
    as (c & r & s & Hc & Hr & Hs & [(He & _ & ->)|(Hne & ->)]); [|exact HP].
  apply Contact_getSession_contact in Hr.
  apply (P_addPost r _ _ c); [simpl; now rewrite Hr|apply Q_blank|now apply P_warn].
Qed.

Lemma backfill_keeps w w' : P w -> backfill w = Ok w' -> P w'.
Proof.
  intros HP. unfold backfill, backfill_from.
  destruct (foldR _ _ _) as [st| |] eqn:E; simpl; try discriminate.
  intros [= <-].
  eapply (foldR_invariant (fun st => P st.2)) in E; eauto.
  intros; eapply backfill_contact_keeps; eauto.
Qed.

End writers.

(** ** Session ids *)

Lemma ids_empty : ids_by_position empty_world.
Proof. intros r s. unfold lookupSession. simpl. discriminate. Qed.

Lemma ids_addPost self post w :
  ids_by_position w -> ids_by_position (Session_addPost self post w).
Proof.
  intros H r s' Hs'.
  apply Session_addPost_lookup_inv in Hs' as (s & Hs & -> & _). now apply H.
Qed.

Lemma ids_reserve ci n w :
  ids_by_position w -> ids_by_position (Contact_reserveSessions ci n w).
Proof.
  intros H r s' Hs'.
  apply lookupSession_reserve_inv in Hs' as [Hs|(_ & _ & ->)]; [now apply H|reflexivity].
Qed.

Lemma ids_contact email w :
  ids_by_position w ->
  ids_by_position (mkWorld (contacts w ++ [mkContact email []]) (posts w) (stderr w)).
Proof. intros H r s. rewrite lookupSession_new_contact. apply H. Qed.

Lemma read_files_ids files w w' :
  ids_by_position w -> read_files files w = Ok w' -> ids_by_position w'.
Proof.
  apply (read_files_keeps ids_by_position (fun _ _ => True)); auto.
  - intros. now apply ids_addPost.
  - intros. now apply ids_reserve.
  - intros. now apply ids_contact.
Qed.

Lemma backfill_ids w w' : ids_by_position w -> backfill w = Ok w' -> ids_by_position w'.
Proof.
  apply (backfill_keeps ids_by_position (fun _ _ => True)); auto.
  intros. now apply ids_addPost.
Qed.

Lemma getSession_position w ci sessionId r :
  Contact_getSession w ci sessionId = Ok r ->
  exists c s, contacts w !! ci = Some c /\ lookupSession w r = Some s /\ r.1 = ci /\
    (Z.of_nat r.2 + 1)%Z
    = if (1 <=? sessionId)%Z then sessionId
      else (Z.of_nat (length (Contact_sessions c)) + sessionId)%Z.
Proof.
  unfold Contact_getSession, py_norm_index.
  destruct (contacts w !! ci) as [c|] eqn:Ec; [|discriminate].
  assert (Hlk : forall k, k < length (Contact_sessions c) ->
            exists s, lookupSession w (ci, k) = Some s).
  { intros k Hk. unfold lookupSession. simpl. rewrite Ec. simpl.
    now apply lookup_lt_is_Some_2. }
  destruct (0 <=? sessionId - 1)%Z eqn:E0.
  - destruct (sessionId - 1 <? _)%Z eqn:E1; [|discriminate]. intros [= <-].
    apply Z.leb_le in E0. apply Z.ltb_lt in E1.
    destruct (Hlk (Z.to_nat (sessionId - 1))) as (s & Hs); [lia|].
    exists c, s. repeat split; [assumption|]. simpl.
    rewrite (proj2 (Z.leb_le 1 sessionId)) by lia. lia.
  - destruct (- Z.of_nat _ <=? _)%Z eqn:E1; [|discriminate]. intros [= <-].
    apply Z.leb_gt in E0. apply Z.leb_le in E1.
    destruct (Hlk (Z.to_nat (Z.of_nat (length (Contact_sessions c)) + (sessionId - 1))))
      as (s & Hs); [lia|].
    exists c, s. repeat split; [assumption|]. simpl.
    rewrite (proj2 (Z.leb_gt 1 sessionId)) by lia. lia.
Qed.

(** ** The store only grows *)

Lemma extends_refl w : extends w w.
Proof.
  split; try reflexivity.
  - intros r s Hs. exists s. repeat split; [assumption|reflexivity].
  - intros p l Hl. exists l. split; [assumption|reflexivity].
Qed.

Lemma extends_trans w1 w2 w3 : extends w1 w2 -> extends w2 w3 -> extends w1 w3.
Proof.
  intros [A1 A2 A3 A4] [B1 B2 B3 B4]. split.
  - now transitivity (Contact_email <$> contacts w2).
  - intros r s Hs. destruct (A2 r s Hs) as (s2 & Hs2 & Hid & Hc & Hp).
    destruct (B2 r s2 Hs2) as (s3 & Hs3 & Hid' & Hc' & Hp').
    exists s3. split; [assumption|]. split; [congruence|]. split; [congruence|].
    now transitivity (Session_posts s2).
  - intros p l Hl. destruct (A3 p l Hl) as (l2 & Hl2 & Hp).
    destruct (B3 p l2 Hl2) as (l3 & Hl3 & Hp').
    exists l3. split; [assumption|]. now transitivity l2.
  - now transitivity (stderr w2).
Qed.

Lemma addPost_extends self post w : extends w (Session_addPost self post w).
Proof.
  split.
  - now rewrite Session_addPost_emails.
  - intros r s. apply Session_addPost_lookup_fwd.
  - intros p l Hl.
    destruct (Session_addPost_cases self post w) as [H|s0 l0 H Hl0 Hle|s0 H Hl0]; simpl;
      [exists l; split; [assumption|reflexivity]..|].
    rewrite lookup_addGlobalPost. case_decide as Hp.
    + subst p. rewrite Hl. simpl. eexists. split; [reflexivity|]. now apply prefix_app_r.
    + exists l. split; [assumption|reflexivity].
  - destruct (Session_addPost_cases self post w) as [H|s0 l0 H Hl0 Hle|s0 H Hl0]; simpl;
      [reflexivity| |reflexivity].
    now apply prefix_app_r.
Qed.

Lemma reserve_extends ci n w : extends w (Contact_reserveSessions ci n w).
Proof.
  assert (Hp : posts (Contact_reserveSessions ci n w) = posts w
               /\ stderr (Contact_reserveSessions ci n w) = stderr w).
  { unfold Contact_reserveSessions. now destruct (contacts w !! ci). }
  destruct Hp as [Hp He]. split.
  - now rewrite emails_reserve.
  - intros r s Hs. exists s.
    destruct (lookupSession_reserve ci n w r) as [->|(E & _)]; [|congruence].
    repeat split; [assumption|reflexivity].
  - intros p l Hl. rewrite Hp. exists l. split; [assumption|reflexivity].
  - now rewrite He.
Qed.

Lemma contact_extends email w :
  extends w (mkWorld (contacts w ++ [mkContact email []]) (posts w) (stderr w)).
Proof.
  split; simpl.
  - rewrite fmap_app. now apply prefix_app_r.
  - intros r s Hs. exists s. rewrite lookupSession_new_contact.
    repeat split; [assumption|reflexivity].
  - intros p l Hl. exists l. split; [assumption|reflexivity].
  - reflexivity.
Qed.

Lemma warn_extends w d : extends w (mkWorld (contacts w) (posts w) (stderr w ++ [d])).
Proof.
  split; simpl.
  - reflexivity.
  - intros r s Hs. exists s. repeat split; [exact Hs|reflexivity].
  - intros p l Hl. exists l. split; [assumption|reflexivity].
  - now apply prefix_app_r.
Qed.

Lemma read_files_extends files w w' : read_files files w = Ok w' -> extends w w'.
Proof.
  apply (read_files_keeps (extends w) (fun _ _ => True)); auto using extends_refl.
  - intros. eapply extends_trans; [eassumption|apply addPost_extends].
  - intros. eapply extends_trans; [eassumption|apply reserve_extends].
  - intros. eapply extends_trans; [eassumption|apply contact_extends].
Qed.

Lemma backfill_extends w w' : backfill w = Ok w' -> extends w w'.
Proof.
  apply (backfill_keeps (extends w) (fun _ _ => True)); auto using extends_refl.
  - intros. eapply extends_trans; [eassumption|apply addPost_extends].
  - intros. eapply extends_trans; [eassumption|apply warn_extends].
Qed.

(** ** Where the stored posts come from *)

Lemma posts_from_empty Q : posts_from Q empty_world.
Proof. intros r c s p. simpl. discriminate. Qed.

Lemma posts_from_addPost Q self post w c :
  contacts w !! self.1 = Some c -> Q (Contact_email c) post ->
  posts_from Q w -> posts_from Q (Session_addPost self post w).
Proof.
  intros Hc HQ H. apply posts_from_alt. intros r s' e p He Hs' Hp.
  rewrite (email_at_emails w) in He by apply Session_addPost_emails.
  apply Session_addPost_lookup_inv in Hs' as (s & Hs & _ & _ & [E|[-> E]]);
    rewrite E in Hp.
  - eapply (proj1 (posts_from_alt Q w) H); eauto.
  - apply elem_of_app in Hp as [Hp|Hp].
    + eapply (proj1 (posts_from_alt Q w) H); eauto.
    + apply list_elem_of_singleton in Hp. subst p.
      apply email_at_Some in He as (c' & Hc' & <-). congruence.
Qed.

Lemma posts_from_reserve Q ci n w :
  posts_from Q w -> posts_from Q (Contact_reserveSessions ci n w).
Proof.
  intros H. apply posts_from_alt. intros r s' e p He Hs' Hp.
  rewrite (email_at_emails w) in He by apply emails_reserve.
  apply lookupSession_reserve_inv in Hs' as [Hs|(_ & _ & ->)].
  - eapply (proj1 (posts_from_alt Q w) H); eauto.
  - now apply not_elem_of_nil in Hp.
Qed.

Lemma posts_from_contact Q email w :
  posts_from Q w ->
  posts_from Q (mkWorld (contacts w ++ [mkContact email []]) (posts w) (stderr w)).
Proof.
  intros H. apply posts_from_alt. intros r s e p He Hs Hp.
  rewrite lookupSession_new_contact in Hs.
  apply (proj1 (posts_from_alt Q w) H r s e p); [|assumption..].
  pose proof Hs as Hs'. apply lookupSession_Some in Hs' as (c & Hc & _).
  unfold email_at in *. simpl in He.
  rewrite (lookup_app_l_Some _ _ _ _ Hc) in He. now rewrite Hc.
Qed.

Lemma posts_from_warn Q w d :
  posts_from Q w -> posts_from Q (mkWorld (contacts w) (posts w) (stderr w ++ [d])).
Proof. intros H r c s p. apply H. Qed.

Lemma read_files_posts_from Q files w :
  (forall f e p, f ∈ files -> e ∈ f.2 -> tag_retained (tag e) = true ->
     DateTime e = Some p -> Q f.1 p) ->
  read_files files empty_world = Ok w -> posts_from Q w.
Proof.
  intros Hfiles.
  apply (read_files_keeps (posts_from Q) Q); auto using posts_from_empty.
  - intros. eapply posts_from_addPost; eauto.
  - intros. now apply posts_from_reserve.
  - intros. now apply posts_from_contact.
Qed.

(** ** Real timestamps and synthetic keys stay apart *)

Lemma unmixed_complete w : sessions_unmixed w -> unmixed w = true.
Proof.
  intros H. unfold unmixed. apply forallb_forall. intros c Hc.
  apply list_elem_of_In, list_elem_of_lookup_1 in Hc as (ci & Hc).
  apply forallb_forall. intros s Hs.
  apply list_elem_of_In, list_elem_of_lookup_1 in Hs as (si & Hs).
  destruct (H (ci, si) s) as [Hall|Hall].
  { apply lookupSession_Some. eauto. }
  - unfold session_unmixed. apply orb_true_iff. left.
    apply forallb_forall. intros p Hp. now apply Hall, list_elem_of_In.
  - unfold session_unmixed. apply orb_true_iff. right.
    apply forallb_forall. intros p Hp. apply negb_true_iff. now apply Hall, list_elem_of_In.
Qed.

Lemma real_posts_unmixed w :
  posts_from (fun _ p => real_timestamp p = true) w -> sessions_unmixed w.
Proof.
  intros H r s Hs. left. intros p Hp.
  apply lookupSession_Some in Hs as (c & Hc & Hs). eapply H; eauto.
Qed.

Lemma backfill_contact_unmixed st ci st' :
  sessions_unmixed st.2 -> backfill_contact st ci = Ok st' -> sessions_unmixed st'.2.
Proof.
  intros Hun H. apply backfill_contact_Ok in H
    as (c & r & s & Hc & Hr & Hs & [(He & _ & ->)|(Hne & ->)]); [|exact Hun].
  intros r' s' Hs'.
  apply Session_addPost_lookup_inv in Hs' as (s0 & Hs0 & _ & _ & [E|[-> E]]);
    rewrite E.
  - exact (Hun r' s0 Hs0).
  - assert (s0 = s) as -> by (change (lookupSession st.2 r = Some s0) in Hs0; congruence).
    rewrite He. right. intros p Hp. apply list_elem_of_singleton in Hp. subst p.
    apply blank_post_not_real.
Qed.

Lemma backfill_unmixed w w' :
  sessions_unmixed w -> backfill w = Ok w' -> sessions_unmixed w'.
Proof.
  intros Hun. unfold backfill, backfill_from.
  destruct (foldR _ _ _) as [st| |] eqn:E; simpl; try discriminate.
  intros [= <-].
  eapply (foldR_invariant (fun st => sessions_unmixed st.2)) in E; eauto.
  intros; eapply backfill_contact_unmixed; eauto.
Qed.

(** ** A second backfill finds nothing to do *)

Lemma backfill_contact_id st ci :
  has_first st.2 ci -> backfill_contact st ci = Ok st.
Proof.
  intros (r & s & Hr & Hs & Hne). unfold backfill_contact.
  pose proof Hr as Hc. unfold Contact_getSession in Hc.
  destruct (contacts st.2 !! ci) as [c|]; [|discriminate]. simpl.
  rewrite Hr. simpl. rewrite Hs. simpl.
  destruct (Session_posts s); [congruence|reflexivity].
Qed.

Lemma backfill_loop_id l : forall st,
  (forall ci, ci ∈ l -> has_first st.2 ci) -> foldR backfill_contact l st = Ok st.
Proof.
  induction l as [|ci l IH]; simpl; intros st H; [reflexivity|].
  rewrite backfill_contact_id by (apply H, elem_of_cons; now left). simpl.
  apply IH. intros cj Hcj. apply H, elem_of_cons. now right.
Qed.

(** ** [utf8toascii] *)

Lemma utf8toascii_fold str : forall ret,
  fold_left utf8toascii_step str ret = ret ++ utf8toascii str.
Proof.
  unfold utf8toascii. induction str as [|c str IH]; simpl; intros ret.
  - now rewrite app_nil_r.
  - rewrite IH, (IH (utf8toascii_step [] c)). rewrite app_assoc. f_equal.
    unfold utf8toascii_step. destruct (_ || _); [reflexivity|].
    destruct (negb _); [reflexivity|now rewrite app_nil_r].
Qed.

Lemma utf8toascii_cons c str :
  utf8toascii (c :: str)
  = (if printable c then [c] else if negb (c =? 13)%N then [63%N] else [])
    ++ utf8toascii str.
Proof.
  unfold utf8toascii at 1. simpl. rewrite utf8toascii_fold. f_equal.
Qed.

Lemma utf8toascii_printable str : forallb printable (utf8toascii str) = true.
Proof.
  induction str as [|c str IH]; [reflexivity|].
  rewrite utf8toascii_cons, forallb_app, IH, andb_true_r.
  destruct (printable c) eqn:E; simpl; [now rewrite E|].
  now destruct (negb _).
Qed.

Lemma utf8toascii_fixed str : forallb printable str = true -> utf8toascii str = str.
Proof.
  induction str as [|c str IH]; [reflexivity|]. simpl.
  intros H. apply andb_prop in H as [Hc H].
  rewrite utf8toascii_cons, Hc, IH by assumption. reflexivity.
Qed.

Lemma utf8toascii_length str : length (utf8toascii str) <= length str.
Proof.
  induction str as [|c str IH]; [reflexivity|].
  rewrite utf8toascii_cons, length_app. simpl.
  destruct (printable c); [simpl; lia|]. destruct (negb _); simpl; lia.
Qed.

Lemma logs_real_sound files f e p :
  logs_real files = true -> f ∈ files -> e ∈ f.2 ->
  tag_retained (tag e) = true -> DateTime e = Some p -> real_timestamp p = true.
Proof.
  unfold logs_real. intros H Hf He Hret Hp.
  rewrite forallb_forall in H. specialize (H f (proj1 (list_elem_of_In _ _) Hf)).
  rewrite forallb_forall in H. specialize (H e (proj1 (list_elem_of_In _ _) He)).
  now rewrite Hret, Hp in H.
Qed.

(** ** When the backfill raises *)

Lemma has_sessions_addPost self post w cj :
  has_sessions (Session_addPost self post w) cj = has_sessions w cj.
Proof.
  unfold has_sessions.
  destruct (Session_addPost_contact self post w cj) as (f & -> & Hf).
  destruct (contacts w !! cj) as [c|]; simpl; [|reflexivity].
  now rewrite (proj2 (Hf c)).
Qed.

Lemma backfill_contact_result st ci :
  ci < length (contacts st.2) ->
  if has_sessions st.2 ci
  then exists st', backfill_contact st ci = Ok st' /\
         (forall cj, has_sessions st'.2 cj = has_sessions st.2 cj) /\
         length (contacts st'.2) = length (contacts st.2)
  else backfill_contact st ci = Raise IndexError.
Proof.
  intros Hci. unfold has_sessions at 1. unfold backfill_contact, Contact_getSession.
  destruct (lookup_lt_is_Some_2 _ _ Hci) as [c Hc]. rewrite Hc. simpl.
  destruct (Contact_sessions c) as [|s ss] eqn:Ess; simpl; [reflexivity|].
  unfold lookupSession. simpl. rewrite Hc. simpl. rewrite Ess. simpl.
  destruct (length (Session_posts s) =? 0); [|eauto].
  eexists. split; [reflexivity|]. simpl. split.
  - intros cj. now rewrite has_sessions_addPost.
  - now rewrite Session_addPost_length.
Qed.

Lemma forallb_same {A} (f g : A -> bool) (l : list A) :
  (forall x, f x = g x) -> forallb f l = forallb g l.
Proof. intros H. induction l as [|x l IH]; simpl; [reflexivity|]. now rewrite H, IH. Qed.

Lemma backfill_loop_result l : forall st,
  (forall ci, ci ∈ l -> ci < length (contacts st.2)) ->
  if forallb (has_sessions st.2) l
  then exists st', foldR backfill_contact l st = Ok st'
  else foldR backfill_contact l st = Raise IndexError.
Proof.
  induction l as [|ci l IH]; simpl; intros st Hl; [eauto|].
  pose proof (backfill_contact_result st ci) as H.
  destruct (has_sessions st.2 ci); simpl.
  - destruct H as (st1 & -> & Hsame & Hlen); [apply Hl, elem_of_cons; now left|]. simpl.
    rewrite <- (forallb_same (has_sessions st1.2) (has_sessions st.2) l Hsame).
    apply IH. intros cj Hcj. rewrite Hlen. apply Hl, elem_of_cons. now right.
  - rewrite H; [reflexivity|]. apply Hl, elem_of_cons. now left.
Qed.

Lemma forallb_positions {A} (f : A -> bool) (l : list A) :
  forallb (fun i => match l !! i with Some x => f x | None => false end)
          (seq 0 (length l))
  = forallb f l.
Proof.
  apply eq_true_iff_eq. rewrite !forallb_forall. split.
  - intros H x Hx. apply list_elem_of_In, list_elem_of_lookup_1 in Hx as (i & Hi).
    specialize (H i). rewrite Hi in H. apply H, in_seq.
    apply lookup_lt_Some in Hi. lia.
  - intros H i Hi. apply in_seq in Hi.
    destruct (lookup_lt_is_Some_2 l i) as [x Hx]; [lia|]. rewrite Hx.
    apply H, list_elem_of_In. eapply list_elem_of_lookup_2; eauto.
Qed.

(** * The keys of the backfill, in processing order *)

Lemma getSession_1 w ci r : Contact_getSession w ci 1 = Ok r -> r = (ci, 0).
Proof.
  unfold Contact_getSession, py_norm_index.
  destruct (contacts w !! ci) as [c|]; [|discriminate].
  destruct (Contact_sessions c); simpl; [discriminate|]. now intros [= <-].
Qed.

Lemma Session_addPost_lookup_ne self post w r :
  r <> self -> lookupSession (Session_addPost self post w) r = lookupSession w r.
Proof.
  intros Hne.
  destruct (Session_addPost_cases self post w) as [H|s l H Hl Hle|s H Hl]; try reflexivity.
  unfold lookupSession at 1. simpl. rewrite (lookup_update_session w self s _ H).
  now rewrite decide_False.
Qed.

(** One turn of the loop: either the contact's session 1 is empty, gets the
    key of the counter and the counter moves on, or nothing changes. *)
Lemma backfill_contact_step st ci st' :
  backfill_contact st ci = Ok st' ->
  (needs_blank st.2 ci = true /\ st'.1 = (st.1 + 1)%N /\
   (exists s, lookupSession st.2 (ci, 0) = Some s /\ Session_posts s = [] /\
      lookupSession st'.2 (ci, 0) = Some (set_posts s [blank_post st.1])) /\
   (forall r, r <> (ci, 0) -> lookupSession st'.2 r = lookupSession st.2 r))
  \/ (needs_blank st.2 ci = false /\ st' = st).
Proof.
  intros H. apply backfill_contact_Ok in H
    as (c & r & s & Hc & Hr & Hs & [(He & Hn & ->)|(Hne & ->)]).
  - apply getSession_1 in Hr. subst r. left.
    split; [unfold needs_blank; now rewrite Hs, He|]. split; [exact Hn|]. split.
    + exists s. split; [exact Hs|]. split; [exact He|].
      now apply (Session_addPost_empty (ci, 0) _ (mkWorld _ _ _) s).
    + intros r Hr. now rewrite Session_addPost_lookup_ne.
  - apply getSession_1 in Hr. subst r. right. split; [|reflexivity].
    unfold needs_blank. rewrite Hs. now destruct (Session_posts s).
Qed.

Lemma needs_blank_same w w' ci :
  lookupSession w' (ci, 0) = lookupSession w (ci, 0) -> needs_blank w' ci = needs_blank w ci.
Proof. unfold needs_blank. now intros ->. Qed.

Lemma backfill_loop_keys l : forall st st',
  NoDup l -> foldR backfill_contact l st = Ok st' ->
  st'.1 = (st.1 + N.of_nat (length (List.filter (needs_blank st.2) l)))%N /\
  (forall k ci, List.filter (needs_blank st.2) l !! k = Some ci ->
     exists s, lookupSession st.2 (ci, 0) = Some s /\ Session_posts s = [] /\
       lookupSession st'.2 (ci, 0) = Some (set_posts s [blank_post (st.1 + N.of_nat k)])) /\
  (forall r, r.2 <> 0 \/ r.1 ∉ l \/ needs_blank st.2 r.1 = false ->
     lookupSession st'.2 r = lookupSession st.2 r).
Proof.
  induction l as [|ci l IH]; intros st st' Hnd; simpl foldR.
  - intros [= <-]. simpl. split; [now rewrite N.add_0_r|]. split; [|reflexivity].
    intros k ci H. discriminate.
  - intros H. apply rbind_Ok in H as (st1 & H1 & H).
    apply NoDup_cons in Hnd as [Hci Hnd].
    destruct (IH _ _ Hnd H) as (Hcnt & Hkeys & Hframe).
    assert (Hother : (forall r, r <> (ci, 0) ->
                        lookupSession st1.2 r = lookupSession st.2 r)).
    { apply backfill_contact_step in H1 as [(_ & _ & _ & Hf)|(_ & ->)]; auto. }
    assert (Hfilter : List.filter (needs_blank st1.2) l = List.filter (needs_blank st.2) l).
    { apply List.filter_ext_in. intros cj Hcj. apply needs_blank_same, Hother.
      intros [= ->]. apply Hci. now apply list_elem_of_In. }
    rewrite Hfilter in Hcnt, Hkeys.
    apply backfill_contact_step in H1 as [(Hb & Hn & (s & Hs & He & Hs1) & _)|(Hb & ->)].
    + simpl List.filter. rewrite Hb. split; [|split].
      * rewrite Hcnt, Hn. simpl length. lia.
      * intros [|k] cj; simpl.
        -- intros [= <-]. exists s. split; [exact Hs|]. split; [exact He|].
           rewrite N.add_0_r, <- Hs1. apply Hframe. right. left. exact Hci.
        -- intros Hk. destruct (Hkeys k cj Hk) as (s' & Hs' & He' & Hs'').
           exists s'. split; [|split; [exact He'|]].
           ++ rewrite <- Hs'. symmetry. apply Hother. intros [= ->]. apply Hci.
              apply list_elem_of_In. rewrite <- Hfilter in Hk.
              apply list_elem_of_lookup_2, list_elem_of_In, List.filter_In in Hk.
              apply Hk.
           ++ assert (E : (st.1 + 1 + N.of_nat k)%N = (st.1 + N.of_nat (S k))%N) by lia.
              rewrite Hs'', Hn, E. reflexivity.
      * intros r Hr.
        assert (Hne : r <> (ci, 0)).
        { intros ->. simpl in Hr. destruct Hr as [Hr|[Hr|Hr]]; [congruence| |congruence].
          apply Hr. apply elem_of_cons. now left. }
        rewrite <- (Hother r Hne). apply Hframe.
        destruct Hr as [Hr|[Hr|Hr]]; [now left|right; left|right; right].
        -- intros Hin. apply Hr. apply elem_of_cons. now right.
        -- rewrite <- Hr. apply needs_blank_same, Hother.
           intros [= E]. rewrite E in Hr. congruence.
    + simpl List.filter. rewrite Hb. split; [exact Hcnt|]. split; [exact Hkeys|].
      intros r Hr. apply Hframe.
      destruct Hr as [Hr|[Hr|Hr]]; [now left|right; left|now right; right].
      intros Hin. apply Hr. apply elem_of_cons. now right.
Qed.

Lemma filter_seq_lookup_lt (f : nat -> bool) : forall n a j k ci cj,
  List.filter f (seq a n) !! j = Some ci -> List.filter f (seq a n) !! k = Some cj ->
  j < k -> ci < cj.
Proof.
  induction n as [|n IH]; intros a j k ci cj; simpl; [discriminate|].
  assert (Htail : forall i c, List.filter f (seq (S a) n) !! i = Some c -> a < c).
  { intros i c Hc. apply list_elem_of_lookup_2, list_elem_of_In, List.filter_In in Hc.
    destruct Hc as [Hc _]. apply in_seq in Hc. lia. }
  destruct (f a).
  - destruct j as [|j], k as [|k]; simpl; intros Hj Hk Hlt; try lia.
    + injection Hj as <-. eapply Htail; eauto.
    + eapply IH; eauto. lia.
  - apply IH.
Qed.

(** The whole loop, from the counter 0. *)
Lemma backfill_keys w w' :
  backfill w = Ok w' ->
  (forall k ci, blank_contacts w !! k = Some ci ->
     exists s, lookupSession w (ci, 0) = Some s /\ Session_posts s = [] /\
       lookupSession w' (ci, 0) = Some (set_posts s [blank_post (N.of_nat k)])) /\
  (forall r, r.2 <> 0 \/ needs_blank w r.1 = false ->
     lookupSession w' r = lookupSession w r).
Proof.
  unfold backfill, backfill_from. intros H.
  apply rbind_Ok in H as (st & H & [= <-]).
  apply backfill_loop_keys in H as (_ & Hkeys & Hframe); [|apply NoDup_seq].
  simpl in Hkeys, Hframe. split; [exact Hkeys|].
  intros r [Hr|Hr]; apply Hframe; auto.
Qed.

(** * The colours of the edges *)




(** ** A placeholder against a real first post *)





(** * Deciding the order of timestamps *)

Lemma str_lt_is a b : PyStr.lt a b = true <-> StrOrd.lt a b.
Proof. split; [now constructor|now intros []]. Qed.

Lemma str_le_is a b : PyStr.le a b = true <-> StrOrd.le a b.
Proof. split; [now constructor|now intros []]. Qed.

Module StrOrdFacts.
Lemma eq_equiv : Equivalence StrOrd.eq.
Proof. unfold StrOrd.eq. split; congruence. Qed.
Lemma lt_strorder : StrictOrder StrOrd.lt.
Proof.
  split.
  - intros a H. apply str_lt_is in H. now rewrite str_lt_irrefl in H.
  - intros a b c. rewrite <- !str_lt_is. apply str_lt_trans.
Qed.
Lemma lt_compat : Proper (StrOrd.eq ==> StrOrd.eq ==> iff) StrOrd.lt.
Proof. unfold StrOrd.eq. intros a a' -> b b' ->. reflexivity. Qed.
Lemma le_lteq x y : StrOrd.le x y <-> StrOrd.lt x y \/ StrOrd.eq x y.
Proof. rewrite <- str_le_is, <- str_lt_is. apply str_le_lt_or_eq. Qed.
Lemma lt_total x y : StrOrd.lt x y \/ StrOrd.eq x y \/ StrOrd.lt y x.
Proof.
  rewrite <- !str_lt_is. unfold StrOrd.eq. destruct (PyStr.lt x y) eqn:E; [now left|right].
  pose proof (str_ge_not_lt x y) as H. rewrite E in H. simpl in H.
  unfold PyStr.ge in H. fold (PyStr.le y x) in H.
  apply str_le_lt_or_eq in H as [H| ->]; auto.
Qed.
End StrOrdFacts.

Module StrOrdTac := MakeOrderTac StrOrd StrOrdFacts.

Lemma str_lt_false a b : PyStr.lt a b = false -> StrOrd.le b a.
Proof.
  intros E. apply str_le_is. pose proof (str_ge_not_lt a b) as H. rewrite E in H. exact H.
Qed.

Lemma str_le_false a b : PyStr.le a b = false -> StrOrd.lt b a.
Proof.
  intros E. apply str_lt_is. pose proof (str_le_not_gt a b) as H. rewrite E in H.
  symmetry in H. apply negb_false_iff in H. exact H.
Qed.

(** Decides a goal about the order of timestamps from the comparisons
    among the hypotheses. *)
Ltac str_order :=
  repeat match goal with
  | H : PyStr.lt ?a ?b = true |- _ => apply str_lt_is in H
  | H : PyStr.le ?a ?b = true |- _ => apply str_le_is in H
  | H : PyStr.lt ?a ?b = false |- _ => apply str_lt_false in H
  | H : PyStr.le ?a ?b = false |- _ => apply str_le_false in H
  end;
  try match goal with
  | |- PyStr.lt ?a ?b = true => apply str_lt_is
  | |- PyStr.le ?a ?b = true => apply str_le_is
  | |- @Logic.eq string ?a ?b => change (StrOrd.eq a b)
  end;
  StrOrdTac.order.

(** * Strictly increasing lists of timestamps *)

Lemma increasing_tail a l : increasing (a :: l) = true -> increasing l = true.
Proof.
  simpl. destruct l as [|b l]; [reflexivity|]. intros H. now apply andb_prop in H as [_ H].
Qed.

Lemma increasing_head_lt a l b : increasing (a :: l) = true -> b ∈ l -> PyStr.lt a b = true.
Proof.
  revert a. induction l as [|c l IH]; intros a H Hb; [now apply not_elem_of_nil in Hb|].
  simpl in H. apply andb_prop in H as [Hac H].
  apply elem_of_cons in Hb as [->|Hb]; [exact Hac|].
  eapply str_lt_trans; [exact Hac|]. now apply IH.
Qed.

Lemma increasing_head_le l f p :
  increasing l = true -> head l = Some f -> p ∈ l -> PyStr.le f p = true.
Proof.
  destruct l as [|a l]; [discriminate|]. simpl. intros H [= ->] Hp.
  apply elem_of_cons in Hp as [->|Hp]; [apply str_le_refl|].
  apply str_lt_le. eapply increasing_head_lt; eauto.
Qed.

Lemma increasing_last_ge l : forall c p,
  increasing l = true -> last l = Some c -> p ∈ l -> PyStr.le p c = true.
Proof.
  induction l as [|a l IH]; intros c p H Hc Hp; [discriminate|].
  destruct l as [|b l].
  - injection Hc as <-. apply list_elem_of_singleton in Hp. subst p. apply str_le_refl.
  - change (last (b :: l) = Some c) in Hc.
    assert (Hcl : c ∈ b :: l) by (apply last_Some_elem_of; exact Hc).
    apply elem_of_cons in Hp as [->|Hp].
    + apply str_lt_le. eapply increasing_head_lt; eauto.
    + eapply IH; eauto. eapply increasing_tail; eauto.
Qed.

Lemma increasing_app l1 : forall l2,
  increasing l1 = true -> increasing l2 = true ->
  (forall a b, last l1 = Some a -> head l2 = Some b -> PyStr.lt a b = true) ->
  increasing (l1 ++ l2) = true.
Proof.
  induction l1 as [|a l1 IH]; intros l2 H1 H2 H; [exact H2|].
  destruct l1 as [|b l1].
  - simpl. destruct l2 as [|c l2]; [reflexivity|].
    rewrite (H a c eq_refl eq_refl). exact H2.
  - simpl in H1. apply andb_prop in H1 as [Hab H1].
    change (increasing (a :: b :: (l1 ++ l2)) = true).
    change (PyStr.lt a b && increasing ((b :: l1) ++ l2) = true).
    rewrite Hab. simpl. apply IH; auto.
Qed.

Lemma increasing_app_r l1 : forall l2, increasing (l1 ++ l2) = true -> increasing l2 = true.
Proof.
  induction l1 as [|a l1 IH]; intros l2 H; [exact H|].
  apply IH. eapply increasing_tail. exact H.
Qed.

Lemma increasing_app_l l1 : forall l2, increasing (l1 ++ l2) = true -> increasing l1 = true.
Proof.
  induction l1 as [|a l1 IH]; intros l2 H; [reflexivity|].
  destruct l1 as [|b l1]; [reflexivity|].
  change (PyStr.lt a b && increasing ((b :: l1) ++ l2) = true) in H.
  apply andb_prop in H as [Hab H]. simpl. rewrite Hab. simpl. apply (IH l2 H).
Qed.

Lemma increasing_app_lt l1 : forall l2 a b,
  increasing (l1 ++ l2) = true -> a ∈ l1 -> b ∈ l2 -> PyStr.lt a b = true.
Proof.
  induction l1 as [|x l1 IH]; intros l2 a b H Ha Hb; [now apply not_elem_of_nil in Ha|].
  apply elem_of_cons in Ha as [->|Ha].
  - eapply increasing_head_lt; [exact H|]. apply elem_of_app. now right.
  - eapply IH; eauto. eapply increasing_tail. exact H.
Qed.

Lemma increasing_ext l1 : forall l2,
  increasing l1 = true -> increasing l2 = true ->
  (forall p, p ∈ l1 <-> p ∈ l2) -> l1 = l2.
Proof.
  induction l1 as [|a l1 IH]; intros [|b l2] H1 H2 H.
  - reflexivity.
  - exfalso. apply (not_elem_of_nil b). apply H. apply list_elem_of_here.
  - exfalso. apply (not_elem_of_nil a). apply H. apply list_elem_of_here.
  - assert (a = b) as ->.
    { assert (Ha : a ∈ b :: l2) by (apply H; apply list_elem_of_here).
      assert (Hb : b ∈ a :: l1) by (apply H; apply list_elem_of_here).
      apply elem_of_cons in Ha as [->|Ha]; [reflexivity|].
      apply elem_of_cons in Hb as [->|Hb]; [reflexivity|].
      pose proof (increasing_head_lt _ _ _ H1 Hb).
      pose proof (increasing_head_lt _ _ _ H2 Ha). str_order. }
    f_equal. apply IH; [eapply increasing_tail; eauto..|].
    intros p. split; intros Hp.
    + assert (Hp' : p ∈ b :: l2) by (apply H; now apply list_elem_of_further).
      apply elem_of_cons in Hp' as [->|Hp']; [|exact Hp'].
      pose proof (increasing_head_lt _ _ _ H1 Hp). str_order.
    + assert (Hp' : p ∈ b :: l1) by (apply H; now apply list_elem_of_further).
      apply elem_of_cons in Hp' as [->|Hp']; [|exact Hp'].
      pose proof (increasing_head_lt _ _ _ H2 Hp). str_order.
Qed.

(** * Sessions that share timestamps *)

Lemma shares_sym w r1 r2 : shares w r1 r2 -> shares w r2 r1.
Proof. intros (q & H1 & H2). exists q. auto. Qed.

Lemma nsteps_sym {A} (R : A -> A -> Prop) :
  (forall x y, R x y -> R y x) -> forall n x y, nsteps R n x y -> nsteps R n y x.
Proof.
  intros Hsym n x y H. induction H as [x|n x y z Hxy Hyz IH]; [constructor|].
  eapply nsteps_r; eauto.
Qed.

Lemma same_conversation_sym w r1 r2 :
  same_conversation w r1 r2 -> same_conversation w r2 r1.
Proof.
  unfold same_conversation. intros H. apply rtc_nsteps in H as (n & H).
  apply (rtc_nsteps_2 n). apply nsteps_sym; [apply shares_sym|exact H].
Qed.

Lemma same_conversation_trans w r1 r2 r3 :
  same_conversation w r1 r2 -> same_conversation w r2 r3 -> same_conversation w r1 r3.
Proof. apply rtc_trans. Qed.

(** The first place where a chain of sessions gets into [phi]. *)
Lemma nsteps_crossing {A} (R : A -> A -> Prop) (phi : A -> bool) : forall n a v,
  nsteps R n a v -> phi a = false -> phi v = true ->
  exists i j x y, nsteps R i a x /\ R x y /\ nsteps R j y v /\ n = i + 1 + j /\
    phi x = false /\ phi y = true.
Proof.
  intros n a v H. induction H as [a|n a b v Hab Hbv IH]; intros Ha Hv; [congruence|].
  destruct (phi b) eqn:Eb.
  - exists 0, n, a, b. repeat split; auto. constructor.
  - destruct (IH eq_refl Hv) as (i & j & x & y & H1 & Hxy & H2 & -> & Hx & Hy).
    exists (S i), j, x, y. repeat split; auto. econstructor; eauto.
Qed.

Section Conversation.
Variable w : World.
Hypothesis Hwf : wf_world w.

Lemma first_post_has r f : first_post w r = Ok f -> has_post w r f.
Proof.
  intros H. apply first_post_Ok in H as (s & Hs & Hf). exists s. split; [exact Hs|].
  now apply head_Some_elem_of.
Qed.

Lemma last_post_has r l : last_post w r = Ok l -> has_post w r l.
Proof.
  intros H. apply last_post_Ok in H as (s & Hs & Hl). exists s. split; [exact Hs|].
  now apply last_Some_elem_of.
Qed.

Lemma has_post_first_le r p f :
  has_post w r p -> first_post w r = Ok f -> PyStr.le f p = true.
Proof.
  intros (s & Hs & Hp) H. apply first_post_Ok in H as (s' & Hs' & Hf).
  rewrite Hs in Hs'. injection Hs' as <-.
  eapply increasing_head_le; eauto. eapply wf_increasing; eauto.
Qed.

Lemma has_post_last_ge r p l :
  has_post w r p -> last_post w r = Ok l -> PyStr.le p l = true.
Proof.
  intros (s & Hs & Hp) H. apply last_post_Ok in H as (s' & Hs' & Hl).
  rewrite Hs in Hs'. injection Hs' as <-.
  eapply increasing_last_ge; eauto. eapply wf_increasing; eauto.
Qed.

Lemma has_post_ends r p :
  has_post w r p -> exists f l, first_post w r = Ok f /\ last_post w r = Ok l.
Proof.
  intros (s & Hs & Hp).
  assert (Hlive : live_session w r).
  { exists s. split; [exact Hs|]. intros E. rewrite E in Hp. now apply not_elem_of_nil in Hp. }
  destruct (live_first_post _ _ Hlive) as (f & Hf).
  destruct (live_last_post _ _ Hlive) as (l & Hl). eauto.
Qed.

Lemma has_post_within r p : has_post w r p -> within w r p.
Proof.
  intros H. destruct (has_post_ends r p H) as (f & l & Hf & Hl).
  exists f, l. split; [exact Hf|]. split; [exact Hl|].
  split; [eapply has_post_first_le; eauto|eapply has_post_last_ge; eauto].
Qed.

Lemma has_post_indexed r p :
  has_post w r p -> exists refs, posts w !! p = Some refs /\ r ∈ refs.
Proof. intros (s & Hs & Hp). eapply wf_complete; eauto. Qed.

Lemma indexed_has_post p refs r : posts w !! p = Some refs -> r ∈ refs -> has_post w r p.
Proof. intros Hrefs Hr. eapply wf_sound; eauto. Qed.

Hypothesis Hal : aligned w.

(** The agreement of the logs extends from two sessions that share a
    timestamp to any two sessions of one conversation. *)
Lemma conversation_aligned : forall n u v p,
  nsteps (shares w) n u v -> has_post w u p -> within w v p -> has_post w v p.
Proof.
  induction n as [n IH] using lt_wf_ind. intros u v p Hpath Hp Hv.
  destruct n as [|m]; [inversion Hpath; subst; exact Hp|].
  inversion Hpath as [|m' u' u1 v' Hu1 Hpath']; subst. clear Hpath. rename Hpath' into Hpath.
  destruct Hv as (fv & lv & Hfv & Hlv & Hfp & Hpl).
  pose proof Hu1 as (q1 & Hq1 & Hq1').
  destruct (has_post_ends u p Hp) as (fu & lu & Hfu & Hlu).
  destruct (has_post_ends u1 q1 Hq1') as (f1 & l1 & Hf1 & Hl1).
  pose proof (has_post_first_le _ _ _ Hp Hfu) as Hup.
  pose proof (has_post_last_ge _ _ _ Hp Hlu) as Hpu.
  pose proof (has_post_first_le _ _ _ Hq1 Hfu) as Huq.
  pose proof (has_post_last_ge _ _ _ Hq1 Hlu) as Hqu.
  pose proof (has_post_first_le _ _ _ Hq1' Hf1) as H1q.
  pose proof (has_post_last_ge _ _ _ Hq1' Hl1) as Hq1l.
  assert (Hdirect : forall x, has_post w u x -> has_post w v x -> has_post w v p).
  { intros x Hux Hvx. apply (Hal u v p); [exists x; auto|exact Hp|].
    exists fv, lv. auto. }
  destruct (PyStr.le f1 p) eqn:E1; [destruct (PyStr.le p l1) eqn:E2|].
  - (* p lies within the lifetime of u1 *)
    apply (IH m (Nat.lt_succ_diag_r m) u1 v p Hpath); [|exists fv, lv; auto].
    apply (Hal u u1 p Hu1 Hp). exists f1, l1. auto.
  - (* p is later than u1 *)
    destruct (PyStr.le fv l1) eqn:E3.
    + apply (Hdirect l1).
      * apply (Hal u1 u l1 (shares_sym _ _ _ Hu1) (last_post_has _ _ Hl1)).
        exists fu, lu. split; [exact Hfu|]. split; [exact Hlu|]. split; str_order.
      * apply (IH m (Nat.lt_succ_diag_r m) u1 v l1 Hpath (last_post_has _ _ Hl1)).
        exists fv, lv. split; [exact Hfv|]. split; [exact Hlv|]. split; str_order.
    + (* u1 ends before v starts: the chain crosses the start of v *)
      set (phi := fun x => match last_post w x with
                           | Ok l => PyStr.le fv l
                           | _ => false
                           end).
      destruct (nsteps_crossing (shares w) phi m u1 v Hpath)
        as (i & j & x & y & Hi & Hxy & Hj & -> & Hx & Hy).
      { unfold phi. now rewrite Hl1. }
      { unfold phi. rewrite Hlv. str_order. }
      pose proof Hxy as (q & Hqx & Hqy).
      destruct (has_post_ends x q Hqx) as (fx & lx & Hfx & Hlx).
      destruct (has_post_ends y q Hqy) as (fy & ly & Hfy & Hly).
      unfold phi in Hx, Hy. rewrite Hlx in Hx. rewrite Hly in Hy.
      pose proof (has_post_last_ge _ _ _ Hqx Hlx) as Hqlx.
      pose proof (has_post_first_le _ _ _ Hqy Hfy) as Hfyq.
      assert (Hyfv : has_post w y fv).
      { apply (IH j ltac:(lia) v y fv).
        - apply nsteps_sym; [apply shares_sym|exact Hj].
        - now apply first_post_has.
        - exists fy, ly. split; [exact Hfy|]. split; [exact Hly|]. split; str_order. }
      destruct j as [|j].
      * inversion Hj; subst.
        pose proof (has_post_first_le _ _ _ Hqy Hfv). str_order.
      * apply (Hdirect fv); [|now apply first_post_has].
        apply (IH (i + 2) ltac:(lia) y u fv); [|exact Hyfv|].
        -- replace (i + 2) with (1 + (i + 1)) by lia.
           apply (nsteps_trans 1 (i + 1) y x u).
           ++ apply nsteps_once. now apply shares_sym.
           ++ apply (nsteps_trans i 1 x u1 u).
              ** apply nsteps_sym; [apply shares_sym|exact Hi].
              ** apply nsteps_once. now apply shares_sym.
        -- exists fu, lu. split; [exact Hfu|]. split; [exact Hlu|]. split; str_order.
  - (* p is earlier than u1 *)
    destruct (PyStr.le f1 lv) eqn:E3.
    + apply (Hdirect f1).
      * apply (Hal u1 u f1 (shares_sym _ _ _ Hu1) (first_post_has _ _ Hf1)).
        exists fu, lu. split; [exact Hfu|]. split; [exact Hlu|]. split; str_order.
      * apply (IH m (Nat.lt_succ_diag_r m) u1 v f1 Hpath (first_post_has _ _ Hf1)).
        exists fv, lv. split; [exact Hfv|]. split; [exact Hlv|]. split; str_order.
    + (* u1 starts after v ends: the chain crosses the end of v *)
      set (phi := fun x => match first_post w x with
                           | Ok f => PyStr.le f lv
                           | _ => false
                           end).
      destruct (nsteps_crossing (shares w) phi m u1 v Hpath)
        as (i & j & x & y & Hi & Hxy & Hj & -> & Hx & Hy).
      { unfold phi. now rewrite Hf1. }
      { unfold phi. rewrite Hfv. str_order. }
      pose proof Hxy as (q & Hqx & Hqy).
      destruct (has_post_ends x q Hqx) as (fx & lx & Hfx & Hlx).
      destruct (has_post_ends y q Hqy) as (fy & ly & Hfy & Hly).
      unfold phi in Hx, Hy. rewrite Hfx in Hx. rewrite Hfy in Hy.
      pose proof (has_post_first_le _ _ _ Hqx Hfx) as Hfxq.
      pose proof (has_post_last_ge _ _ _ Hqy Hly) as Hqly.
      assert (Hylv : has_post w y lv).
      { apply (IH j ltac:(lia) v y lv).
        - apply nsteps_sym; [apply shares_sym|exact Hj].
        - now apply last_post_has.
        - exists fy, ly. split; [exact Hfy|]. split; [exact Hly|]. split; str_order. }
      destruct j as [|j].
      * inversion Hj; subst.
        pose proof (has_post_last_ge _ _ _ Hqy Hlv). str_order.
      * apply (Hdirect lv); [|now apply last_post_has].
        apply (IH (i + 2) ltac:(lia) y u lv); [|exact Hylv|].
        -- replace (i + 2) with (1 + (i + 1)) by lia.
           apply (nsteps_trans 1 (i + 1) y x u).
           ++ apply nsteps_once. now apply shares_sym.
           ++ apply (nsteps_trans i 1 x u1 u).
              ** apply nsteps_sym; [apply shares_sym|exact Hi].
              ** apply nsteps_once. now apply shares_sym.
        -- exists fu, lu. split; [exact Hfu|]. split; [exact Hlu|]. split; str_order.
Qed.

Lemma same_conversation_aligned u v p :
  same_conversation w u v -> has_post w u p -> within w v p -> has_post w v p.
Proof.
  intros H. apply rtc_nsteps in H as (n & H). now apply (conversation_aligned n).
Qed.

End Conversation.

(** * The left edge of a conversation *)

Section LeftEdge.
Variable w : World.
Hypothesis Hwf : wf_world w.

Lemma backward_step_shares r r' : backward_step w r = Ok (Some r') -> shares w r r'.
Proof.
  intros H. apply backward_step_Some in H as (fA & k & refs & HfA & Hrefs & Hr' & _).
  exists fA. split; [now apply first_post_has|]. eapply indexed_has_post; eauto.
Qed.

Lemma walk_backwards_edge : forall fuel r L,
  walk_backwards fuel w r = Ok L ->
  same_conversation w r L /\ backward_step w L = Ok None.
Proof.
  induction fuel as [|fuel IH]; simpl; intros r L; [discriminate|].
  intros H. apply rbind_Ok in H as (next & Hstep & H).
  destruct next as [r1|].
  - destruct (IH _ _ H) as [Hconn Hedge]. split; [|exact Hedge].
    eapply rtc_l; [|exact Hconn]. now apply backward_step_shares.
  - injection H as <-. split; [apply rtc_refl|exact Hstep].
Qed.

(** No session that holds the first post of a left edge starts earlier. *)
Lemma left_edge_candidates L f r k :
  backward_step w L = Ok None -> first_post w L = Ok f ->
  has_post w r f -> first_post w r = Ok k -> PyStr.le f k = true.
Proof.
  intros Hstep Hf Hr Hk. unfold backward_step, lookup_posts in Hstep.
  rewrite Hf in Hstep. simpl in Hstep.
  apply rbind_Ok in Hstep as (refs & Hrefs & Hstep). apply of_option_Ok in Hrefs.
  apply rbind_Ok in Hstep as (keyed & Hkeyed & Hstep).
  apply rbind_Ok in Hstep as ([k0 r0] & Hmin & Hstep). simpl in Hstep.
  destruct (PyStr.ge k0 f) eqn:Hge; [|discriminate].
  destruct (has_post_indexed w Hwf r f Hr) as (refs' & Hrefs' & Hin).
  rewrite Hrefs in Hrefs'. injection Hrefs' as <-.
  destruct (mapR_Ok_elem_inv _ _ _ _ Hkeyed Hin) as ([k' r3] & Hy & Hkey).
  apply key_first_Ok in Hkey as [Hk' _]. simpl in Hk'.
  rewrite Hk in Hk'. injection Hk' as <-.
  pose proof (py_min_by_le _ _ _ Hmin Hy) as Hle. simpl in Hle.
  change (PyStr.le f k0 = true) in Hge. str_order.
Qed.

Hypothesis Hal : aligned w.

(** No session of the conversation starts earlier than its left edge. *)
Lemma left_edge_minimal L f M k :
  backward_step w L = Ok None -> first_post w L = Ok f ->
  same_conversation w L M -> first_post w M = Ok k -> PyStr.le f k = true.
Proof.
  intros Hstep Hf Hconn Hk.
  destruct (PyStr.le f k) eqn:E; [reflexivity|exfalso].
  pose proof (first_post_has w L f Hf) as HLf.
  destruct (has_post_ends w L f HLf) as (f' & lL & Hf' & HlL).
  rewrite Hf in Hf'. injection Hf' as <-.
  pose proof (has_post_last_ge w Hwf _ _ _ HLf HlL) as HfL.
  assert (Hbad : forall y fy ly, same_conversation w L y ->
            first_post w y = Ok fy -> last_post w y = Ok ly ->
            PyStr.lt fy f = true -> PyStr.le f ly = true -> False).
  { intros y fy ly Hy Hfy Hly Hlt Hle.
    assert (Hyf : has_post w y f).
    { apply (same_conversation_aligned w Hwf Hal L y f Hy HLf).
      exists fy, ly. split; [exact Hfy|]. split; [exact Hly|]. split; str_order. }
    pose proof (left_edge_candidates L f y fy Hstep Hf Hyf Hfy). str_order. }
  destruct (has_post_ends w M k (first_post_has w M k Hk)) as (k' & lM & Hk' & HlM).
  rewrite Hk in Hk'. injection Hk' as <-.
  set (phi := fun x => match last_post w x with
                       | Ok l => PyStr.le f l
                       | _ => false
                       end).
  destruct (phi M) eqn:EM.
  - unfold phi in EM. rewrite HlM in EM.
    apply (Hbad M k lM Hconn Hk HlM); [str_order|exact EM].
  - apply same_conversation_sym in Hconn.
    pose proof Hconn as Hpath. apply rtc_nsteps in Hpath as (n & Hpath).
    destruct (nsteps_crossing (shares w) phi n M L Hpath EM)
      as (i & j & x & y & Hi & Hxy & Hj & -> & Hx & Hy).
    { unfold phi. rewrite HlL. exact HfL. }
    pose proof Hxy as (q & Hqx & Hqy).
    destruct (has_post_ends w x q Hqx) as (fx & lx & Hfx & Hlx).
    destruct (has_post_ends w y q Hqy) as (fy & ly & Hfy & Hly).
    unfold phi in Hx, Hy. rewrite Hlx in Hx. rewrite Hly in Hy.
    pose proof (has_post_last_ge w Hwf _ _ _ Hqx Hlx) as Hqlx.
    pose proof (has_post_first_le w Hwf _ _ _ Hqy Hfy) as Hfyq.
    apply (Hbad y fy ly); [|exact Hfy|exact Hly|str_order|exact Hy].
    apply same_conversation_sym. apply (rtc_nsteps_2 j). exact Hj.
Qed.

End LeftEdge.

(** * Posts the sweep passes over *)

Lemma str_le_empty_inv p : PyStr.le p "" = true -> p = "".
Proof. destruct p; [reflexivity|discriminate]. Qed.

Lemma list_difference_diag (l : list nat) : list_difference l l = [].
Proof.
  destruct (list_difference l l) as [|x k] eqn:E; [reflexivity|].
  assert (H : x ∈ list_difference l l) by (rewrite E; apply list_elem_of_here).
  apply list_elem_of_difference in H as [H1 H2]. contradiction.
Qed.

(** A post at or before the cursor changes nothing: it is skipped, or it
    is the empty timestamp met again with the same contacts present. *)
Lemma sweep_again w sw p c :
  prevPost sw = Some c -> present_at w c = Ok (prevPresentContacts sw) ->
  PyStr.le p c = true -> sweep_post w sw p = Ok sw.
Proof.
  intros Hc Hpres Hle. unfold sweep_post.
  destruct (skip_post sw p) eqn:Es; [reflexivity|].
  unfold skip_post in Es. rewrite Hc, Hle, andb_true_r in Es.
  destruct c as [|a c]; [|discriminate].
  apply str_le_empty_inv in Hle. subst p.
  unfold present_at in Hpres.
  apply rbind_Ok in Hpres as (refs & Hrefs & Hpres). rewrite Hrefs. simpl.
  apply rbind_Ok in Hpres as (cs & Hcs & [= Hp]). rewrite Hcs. simpl.
  rewrite Hp, list_difference_diag. simpl.
  destruct sw; simpl in *. now subst.
Qed.

Lemma sweep_post_processed w sw p sw' :
  skip_post sw p = false -> sweep_post w sw p = Ok sw' ->
  prevPost sw' = Some p /\ cursor_ok w sw'.
Proof.
  intros Es H. apply sweep_post_Ok in H as [[E _]|[_ (present & Hs)]]; [congruence|].
  pose proof (swept_prevPost _ _ _ _ _ Hs) as Hp. split; [exact Hp|].
  unfold cursor_ok. rewrite Hp.
  destruct (swept_refs _ _ _ _ _ Hs) as (refs & cs & Hrefs & Hcs & E).
  unfold present_at, lookup_posts. rewrite Hrefs. simpl. rewrite Hcs. simpl.
  now rewrite (swept_prevPresent _ _ _ _ _ Hs), E.
Qed.

Lemma sweep_post_cursor w sw p sw' :
  cursor_ok w sw -> sweep_post w sw p = Ok sw' -> cursor_ok w sw'.
Proof.
  intros Hok H. destruct (skip_post sw p) eqn:Es.
  - unfold sweep_post in H. rewrite Es in H. now injection H as <-.
  - now apply (sweep_post_processed w sw p sw' Es).
Qed.

(** The posts of an increasing list at or before the cursor are passed
    over. *)
Lemma sweep_skip_prefix w ps : forall sw,
  cursor_ok w sw -> increasing ps = true ->
  exists pre new, ps = pre ++ new /\
    (forall p, p ∈ pre -> exists c, prevPost sw = Some c /\ PyStr.le p c = true) /\
    (forall p c, p ∈ new -> prevPost sw = Some c -> PyStr.lt c p = true) /\
    foldR (sweep_post w) ps sw = foldR (sweep_post w) new sw.
Proof.
  induction ps as [|p ps IH]; intros sw Hok Hinc.
  - exists [], []. split; [reflexivity|]. split; [|split; [|reflexivity]].
    + intros p H. now apply not_elem_of_nil in H.
    + intros p c H. now apply not_elem_of_nil in H.
  - destruct (prevPost sw) as [c|] eqn:Ec.
    + destruct (PyStr.le p c) eqn:Ele.
      * destruct (IH sw Hok (increasing_tail _ _ Hinc)) as (pre & new & -> & Hpre & Hnew & Hfold).
        exists (p :: pre), new. split; [reflexivity|]. split; [|split].
        -- intros q Hq. apply elem_of_cons in Hq as [->|Hq]; [eauto|].
           rewrite <- Ec. now apply Hpre.
        -- intros q c' Hq Hc'. rewrite Ec in Hnew. now apply Hnew.
        -- simpl. unfold cursor_ok in Hok. rewrite Ec in Hok.
           rewrite (sweep_again w sw p c Ec Hok Ele). simpl. exact Hfold.
      * exists [], (p :: ps). split; [reflexivity|]. split; [|split; [|reflexivity]].
        -- intros q Hq. now apply not_elem_of_nil in Hq.
        -- intros q c' Hq [= <-]. apply elem_of_cons in Hq as [->|Hq]; [str_order|].
           pose proof (increasing_head_lt _ _ _ Hinc Hq). str_order.
    + exists [], (p :: ps). split; [reflexivity|]. split; [|split; [|reflexivity]].
      * intros q Hq. now apply not_elem_of_nil in Hq.
      * intros q c' _ Hc'. discriminate.
Qed.

(** Posts above the cursor are all processed, and the last one becomes
    the cursor. *)
Lemma sweep_above w new : forall sw sw',
  increasing new = true ->
  (forall p c, p ∈ new -> prevPost sw = Some c -> PyStr.lt c p = true) ->
  foldR (sweep_post w) new sw = Ok sw' -> new <> [] ->
  prevPost sw' = last new /\ cursor_ok w sw'.
Proof.
  induction new as [|p new IH]; intros sw sw' Hinc Habove H Hne; [congruence|].
  simpl in H. apply rbind_Ok in H as (sw1 & H1 & H).
  assert (Es : skip_post sw p = false).
  { unfold skip_post. destruct (prevPost sw) as [c|] eqn:Ec; [|reflexivity].
    pose proof (Habove p c (list_elem_of_here _ _) eq_refl) as Hlt.
    destruct (PyStr.le p c) eqn:E; [str_order|apply andb_false_r]. }
  destruct (sweep_post_processed w sw p sw1 Es H1) as [Hp1 Hok1].
  destruct new as [|q new].
  - injection H as <-. auto.
  - change (last (p :: q :: new)) with (last (q :: new)).
    apply (IH sw1 sw' (increasing_tail _ _ Hinc)); [|exact H|discriminate].
    intros x c Hx Hc. rewrite Hp1 in Hc. injection Hc as <-.
    eapply increasing_head_lt; eauto.
Qed.

(** One turn of the forward loop, with what makes the session it adopts
    the one that ends last. *)
Lemma forward_step_max w r sw sw' next :
  forward_step w r sw = Ok (sw', next) ->
  exists s prev refs k r0 lastA,
    lookupSession w r = Some s /\
    foldR (sweep_post w) (Session_posts s) sw = Ok sw' /\
    prevPost sw' = Some prev /\ posts w !! prev = Some refs /\ r0 ∈ refs /\
    last_post w r0 = Ok k /\
    (forall r' k', r' ∈ refs -> last_post w r' = Ok k' -> PyStr.le k' k = true) /\
    last_post w r = Ok lastA /\
    next = (if PyStr.le k lastA then None else Some r0).
Proof.
  unfold forward_step, lookup_posts, session_of. intros H.
  apply rbind_Ok in H as (s & Hs & H). apply of_option_Ok in Hs.
  apply rbind_Ok in H as (sw1 & Hsw1 & H).
  apply rbind_Ok in H as (prev & Hprev & H). apply of_option_Ok in Hprev.
  apply rbind_Ok in H as (refs & Hrefs & H). apply of_option_Ok in Hrefs.
  apply rbind_Ok in H as (keyed & Hkeyed & H).
  apply rbind_Ok in H as ([k r0] & Hmax & H).
  apply rbind_Ok in H as (lastA & HlastA & H). simpl in H.
  pose proof (py_max_by_Ok _ _ Hmax) as Hin.
  destruct (mapR_Ok_elem _ _ _ _ Hkeyed Hin) as (x & Hx & Hkx).
  apply key_last_Ok in Hkx as [Hk Hr]. simpl in *. subst x.
  exists s, prev, refs, k, r0, lastA.
  assert (Hge : forall r' k', r' ∈ refs -> last_post w r' = Ok k' -> PyStr.le k' k = true).
  { intros r' k' Hr' Hk'.
    destruct (mapR_Ok_elem_inv _ _ _ _ Hkeyed Hr') as ([k2 r2] & Hy & Hkey).
    apply key_last_Ok in Hkey as [Hk2 _]. simpl in Hk2.
    rewrite Hk' in Hk2. injection Hk2 as <-.
    exact (py_max_by_ge _ _ _ Hmax Hy). }
  destruct (PyStr.le k lastA); injection H as <- <-; repeat split; auto.
Qed.

(** * The forward walk sweeps the posts of the conversation, in order *)

Section Trace.
Variable w : World.
Hypothesis Hwf : wf_world w.
Hypothesis Hal : aligned w.
Variable L : SessionRef.
Hypothesis Hedge : backward_step w L = Ok None.

Lemma trace_init : trace_inv w L L init_sweep [].
Proof.
  constructor; simpl; try reflexivity.
  - intros p H. now apply not_elem_of_nil in H.
  - intros M p c _ _ H. discriminate.
Qed.

(** One turn of the forward loop keeps the invariant, and when the loop
    breaks every post of the conversation has been processed. *)
Lemma trace_step S sw done sw1 next :
  trace_inv w L S sw done -> forward_step w S sw = Ok (sw1, next) ->
  exists done1,
    foldR (sweep_post w) done1 init_sweep = Ok sw1 /\
    increasing done1 = true /\
    match next with
    | Some N => trace_inv w L N sw1 done1
    | None => forall p, p ∈ done1 <-> exists M, same_conversation w L M /\ has_post w M p
    end.
Proof.
  intros Htr Hstep.
  destruct (forward_step_max w S sw sw1 next Hstep)
    as (s & prev & refs & k & r0 & lastA & Hs & Hfold & Hprev & Hrefs & Hr0 & Hk & Hmax
        & HlastA & Hnext).
  pose proof (wf_increasing w Hwf S s Hs) as Hinc.
  destruct (sweep_skip_prefix w (Session_posts s) sw (tr_cursor _ _ _ _ _ Htr) Hinc)
    as (pre & new & Eps & Hpre & Hnew & Hf).
  rewrite Hf in Hfold.
  pose proof (last_post_has w S lastA HlastA) as HSlast.
  pose proof (tr_session _ _ _ _ _ Htr) as HLS.
  assert (Hlast_s : last (Session_posts s) = Some lastA).
  { pose proof HlastA as H. apply last_post_Ok in H as (s' & Hs' & Hl).
    rewrite Hs in Hs'. now injection Hs' as <-. }
  assert (Hne : new <> []).
  { intros E. rewrite E, app_nil_r in Eps.
    assert (Hin : lastA ∈ pre) by (rewrite <- Eps; now apply last_Some_elem_of).
    destruct (Hpre lastA Hin) as (c & Hc & Hle).
    pose proof (tr_start _ _ _ _ _ Htr) as Hst.
    rewrite <- (tr_prev _ _ _ _ _ Htr), Hc in Hst.
    destruct Hst as [_ (l & Hl & Hlt)]. rewrite HlastA in Hl. injection Hl as <-.
    str_order. }
  assert (Hlast_new : last new = Some lastA).
  { rewrite Eps, last_app in Hlast_s. destruct (last new) eqn:E; [exact Hlast_s|].
    apply last_None in E. contradiction. }
  rewrite Eps in Hinc.
  destruct (sweep_above w new sw sw1 (increasing_app_r pre new Hinc) Hnew Hfold Hne)
    as [Hp1 Hok1].
  rewrite Hlast_new in Hp1. rewrite Hp1 in Hprev. injection Hprev as <-.
  set (done1 := done ++ new).
  assert (Hfold1 : foldR (sweep_post w) done1 init_sweep = Ok sw1).
  { unfold done1. rewrite foldR_app, (tr_fold _ _ _ _ _ Htr). simpl. exact Hfold. }
  assert (Hinc1 : increasing done1 = true).
  { apply increasing_app;
      [exact (tr_sorted _ _ _ _ _ Htr)|exact (increasing_app_r _ _ Hinc)|].
    intros a b Ha Hb. apply (Hnew b a); [now apply head_Some_elem_of|].
    now rewrite (tr_prev _ _ _ _ _ Htr). }
  assert (Hlast1 : last done1 = Some lastA).
  { unfold done1. rewrite last_app, Hlast_new. reflexivity. }
  assert (Hnew_S : forall p, p ∈ new -> has_post w S p).
  { intros p Hp. exists s. split; [exact Hs|]. rewrite Eps. apply elem_of_app. now right. }
  assert (Hsound1 : forall p, p ∈ done1 ->
            exists M, same_conversation w L M /\ has_post w M p).
  { intros p Hp. apply elem_of_app in Hp as [Hp|Hp];
      [now apply (tr_sound _ _ _ _ _ Htr)|].
    exists S. auto. }
  assert (Hin_new : forall p, has_post w S p ->
            (forall c, prevPost sw = Some c -> PyStr.lt c p = true) -> p ∈ new).
  { intros p (s' & Hs' & Hp) Habove. rewrite Hs in Hs'. injection Hs' as <-.
    rewrite Eps in Hp. apply elem_of_app in Hp as [Hp|Hp]; [|exact Hp].
    destruct (Hpre p Hp) as (c & Hc & Hle). pose proof (Habove c Hc). str_order. }
  destruct (has_post_ends w S lastA HSlast) as (fS & lS & HfS & HlS).
  rewrite HlastA in HlS. injection HlS as <-.
  assert (Hcomp1 : forall M p, same_conversation w L M -> has_post w M p ->
            PyStr.le p lastA = true -> p ∈ done1).
  { intros M p HLM HMp Hple. unfold done1. apply elem_of_app.
    pose proof (tr_start _ _ _ _ _ Htr) as Hst.
    pose proof (tr_prev _ _ _ _ _ Htr) as Hpv.
    pose proof (tr_complete _ _ _ _ _ Htr M p) as Hcomp.
    destruct (last done) as [c|] eqn:Ec.
    - destruct Hst as [HSc _].
      destruct (PyStr.le p c) eqn:Epc.
      + left. now apply (Hcomp c).
      + right. apply Hin_new.
        * apply (same_conversation_aligned w Hwf Hal M S p); [|exact HMp|].
          -- eapply same_conversation_trans;
               [apply same_conversation_sym; exact HLM|exact HLS].
          -- exists fS, lastA. split; [exact HfS|]. split; [exact HlastA|].
             pose proof (has_post_first_le w Hwf S c fS HSc HfS). split; str_order.
        * intros c' Hc'. rewrite Hpv in Hc'. injection Hc' as <-. str_order.
    - subst S. right. apply Hin_new.
      + apply (same_conversation_aligned w Hwf Hal M L p);
          [now apply same_conversation_sym|exact HMp|].
        exists fS, lastA. split; [exact HfS|]. split; [exact HlastA|].
        destruct (has_post_ends w M p HMp) as (fM & lM & HfM & HlM).
        pose proof (left_edge_minimal w Hwf Hal L fS M fM Hedge HfS HLM HfM).
        pose proof (has_post_first_le w Hwf M p fM HMp HfM). split; str_order.
      + intros c' Hc'. rewrite Hpv in Hc'. discriminate. }
  exists done1. split; [exact Hfold1|]. split; [exact Hinc1|].
  destruct (PyStr.le k lastA) eqn:Ek; subst next.
  - intros p. split; [apply Hsound1|]. intros (M & HLM & HMp).
    destruct (PyStr.le p lastA) eqn:Ep; [now apply (Hcomp1 M p)|exfalso].
    assert (Hbad : forall y fy ly, same_conversation w L y ->
              first_post w y = Ok fy -> last_post w y = Ok ly ->
              PyStr.le fy lastA = true -> PyStr.lt lastA ly = true -> False).
    { intros y fy ly Hy Hfy Hly H1 H2.
      assert (Hyl : has_post w y lastA).
      { apply (same_conversation_aligned w Hwf Hal S y lastA); [|exact HSlast|].
        - eapply same_conversation_trans;
            [apply same_conversation_sym; exact HLS|exact Hy].
        - exists fy, ly. split; [exact Hfy|]. split; [exact Hly|]. split; str_order. }
      destruct (has_post_indexed w Hwf y lastA Hyl) as (refs' & Hrefs' & Hin).
      rewrite Hrefs in Hrefs'. injection Hrefs' as <-.
      pose proof (Hmax y ly Hin Hly). str_order. }
    destruct (has_post_ends w M p HMp) as (fM & lM & HfM & HlM).
    pose proof (has_post_last_ge w Hwf M p lM HMp HlM) as HplM.
    set (phi := fun x => match first_post w x with
                         | Ok f => PyStr.le f lastA
                         | _ => false
                         end).
    destruct (phi M) eqn:EM.
    + unfold phi in EM. rewrite HfM in EM.
      apply (Hbad M fM lM HLM HfM HlM EM). str_order.
    + assert (HMS : same_conversation w M S).
      { eapply same_conversation_trans;
          [apply same_conversation_sym; exact HLM|exact HLS]. }
      apply rtc_nsteps in HMS as (n & Hpath).
      destruct (nsteps_crossing (shares w) phi n M S Hpath EM)
        as (i & j & x & y & Hi & Hxy & Hj & -> & Hx & Hy).
      { unfold phi. rewrite HfS. apply (has_post_first_le w Hwf S lastA fS HSlast HfS). }
      destruct Hxy as (q & Hqx & Hqy).
      destruct (has_post_ends w x q Hqx) as (fx & lx & Hfx & Hlx).
      destruct (has_post_ends w y q Hqy) as (fy & ly & Hfy & Hly).
      unfold phi in Hx, Hy. rewrite Hfx in Hx. rewrite Hfy in Hy.
      pose proof (has_post_first_le w Hwf x q fx Hqx Hfx).
      pose proof (has_post_last_ge w Hwf y q ly Hqy Hly).
      apply (Hbad y fy ly); [|exact Hfy|exact Hly|exact Hy|str_order].
      eapply same_conversation_trans; [exact HLS|].
      apply same_conversation_sym. apply (rtc_nsteps_2 j). exact Hj.
  - pose proof (indexed_has_post w Hwf lastA refs r0 Hrefs Hr0) as Hr0l.
    constructor.
    + exact Hfold1.
    + exact Hinc1.
    + exact Hsound1.
    + intros M p c HLM HMp Hc Hle. rewrite Hlast1 in Hc. injection Hc as <-.
      now apply (Hcomp1 M p).
    + eapply same_conversation_trans; [exact HLS|]. apply rtc_once. exists lastA. auto.
    + rewrite Hlast1. exact Hp1.
    + exact Hok1.
    + rewrite Hlast1. split; [exact Hr0l|]. exists k. split; [exact Hk|]. str_order.
Qed.

Lemma trace_walk : forall fuel S sw done sw',
  trace_inv w L S sw done -> walk_forwards fuel w S sw = Ok sw' ->
  exists done', foldR (sweep_post w) done' init_sweep = Ok sw' /\
    increasing done' = true /\
    forall p, p ∈ done' <-> exists M, same_conversation w L M /\ has_post w M p.
Proof.
  induction fuel as [|fuel IH]; simpl; intros S sw done sw' Htr H; [discriminate|].
  apply rbind_Ok in H as ([sw1 next] & Hstep & H). simpl in H.
  destruct (trace_step S sw done sw1 next Htr Hstep) as (done1 & Hf & Hi & Hn).
  destruct next as [N|].
  - exact (IH N sw1 done1 sw' Hn H).
  - injection H as <-. eauto.
Qed.

End Trace.

(** A reconstruction is the sweep, in increasing order, of the posts of
    all the sessions of the anchor's conversation. *)
Lemma conversation_posts w fuel t refs r res :
  wf_world w -> aligned w -> posts w !! t = Some refs -> r ∈ refs ->
  buildConversationByPost_fuel fuel w t = Ok res ->
  exists done sw,
    increasing done = true /\
    (forall p, p ∈ done <-> exists M, same_conversation w r M /\ has_post w M p) /\
    foldR (sweep_post w) done init_sweep = Ok sw /\ finish w sw = Ok res.
Proof.
  intros Hwf Hal Hrefs Hr H.
  unfold buildConversationByPost_fuel, lookup_posts in H. rewrite Hrefs in H. simpl in H.
  apply rbind_Ok in H as (session0 & H0 & H). apply py_index_first in H0.
  apply rbind_Ok in H as (L & Hback & H).
  apply rbind_Ok in H as (sw & Hfwd & Hfin).
  destruct (walk_backwards_edge w Hwf fuel session0 L Hback) as [H0L Hedge].
  assert (Hr0 : same_conversation w r session0).
  { apply rtc_once. exists t. split; eapply indexed_has_post; eauto.
    now apply head_Some_elem_of. }
  assert (HrL : same_conversation w r L) by (eapply same_conversation_trans; eauto).
  destruct (trace_walk w Hwf Hal L Hedge fuel L init_sweep [] sw
              (trace_init w L) Hfwd) as (done & Hf & Hi & Hall).
  exists done, sw. split; [exact Hi|]. split; [|split; [exact Hf|exact Hfin]].
  intros p. rewrite Hall. split; intros (M & HM & Hp); exists M; split; auto.
  - eapply same_conversation_trans; eauto.
  - eapply same_conversation_trans; [apply same_conversation_sym; exact HrL|exact HM].
Qed.

(** * The check [alignedb] *)

Lemma has_postb_spec w r p : has_postb w r p = true <-> has_post w r p.
Proof.
  unfold has_postb, has_post, posts_of. rewrite bool_decide_eq_true.
  destruct (lookupSession w r) as [s|].
  - split; [eauto|]. now intros (s' & [= <-] & H).
  - split; [intros H; now apply not_elem_of_nil in H|]. now intros (s' & [=] & _).
Qed.

Lemma has_post_ref w r p : has_post w r p -> r ∈ all_refs w /\ p ∈ posts_of w r.
Proof.
  intros (s & Hs & Hp). split; [eapply all_refs_elem; eauto|].
  unfold posts_of. now rewrite Hs.
Qed.

Lemma alignedb_sound w : alignedb w = true -> aligned w.
Proof.
  unfold alignedb. intros H r1 r2 p Hsh Hp Hin.
  pose proof Hsh as (q & Hq1 & Hq2).
  destruct (has_post_ref w r1 q Hq1) as [Hr1 Hq1'].
  destruct (has_post_ref w r2 q Hq2) as [Hr2 _].
  rewrite forallb_forall in H. apply list_elem_of_In in Hr1, Hr2.
  specialize (H r1 Hr1). rewrite forallb_forall in H. specialize (H r2 Hr2).
  apply orb_true_iff in H as [H|H].
  - exfalso. apply negb_true_iff in H.
    assert (E : sharesb w r1 r2 = true).
    { unfold sharesb. apply existsb_exists. exists q.
      split; [now apply list_elem_of_In|now apply has_postb_spec]. }
    congruence.
  - rewrite forallb_forall in H.
    destruct (has_post_ref w r1 p Hp) as [_ Hp'].
    apply list_elem_of_In in Hp'. specialize (H p Hp').
    apply orb_true_iff in H as [H|H]; [|now apply has_postb_spec].
    exfalso. apply negb_true_iff in H.
    destruct Hin as (f & l & Hf & Hl & Hfp & Hpl).
    apply first_post_Ok in Hf as (s & Hs & Hf).
    apply last_post_Ok in Hl as (s' & Hs' & Hl).
    rewrite Hs in Hs'. injection Hs' as <-.
    unfold withinb, posts_of in H. rewrite Hs, Hf, Hl, Hfp, Hpl in H. discriminate.
Qed.

(** * The claims *)

(** C1.  In the store of scenario 1 (contacts A and B, A's single session
    with the markers 10, 20, 40, 50 and B's with 20, 40, the shared
    timestamps 20 and 40 registered for both sessions in either order),
    reconstructing from 10 gives exactly the participants A (10, 50) and
    B (20, 40), a conversation from 10 to 50, and no warning.  The store is
    the one the ingestion builds from the two logs. *)
Theorem scenario1_reconstructed :
  read_files scenario1_files empty_world = Ok (scenario1_store true true) /\
  forall a_first_20 a_first_40 : bool,
    buildConversationByPost (scenario1_store a_first_20 a_first_40) "10"
    = Ok (scenario1_conversation, []).
Proof.
  split; [vm_compute; reflexivity|].
  intros [] []; vm_compute; reflexivity.
Qed.

(** C2, as stated, fails: in the store read from [overlap_files] the
    timestamps 15 and 20 are both markers of B's one session, hence of one
    conversation, yet the two reconstructions differ (in their participants'
    intervals and in the conversation's first post). *)
Lemma anchors_of_one_session_differ :
  exists w,
    read_files overlap_files empty_world = Ok w /\
    (exists s, lookupSession w (1, 0) = Some s /\
               "15" ∈ Session_posts s /\ "20" ∈ Session_posts s) /\
    buildConversationByPost w "15"
    = Ok (mkConversation [mkParticipant "B" "15" "30"; mkParticipant "A" "20" "20"]
                         "15" "30", []) /\
    buildConversationByPost w "20"
    = Ok (mkConversation [mkParticipant "A" "10" "20"; mkParticipant "B" "20" "30"]
                         "10" "30", []) /\
    buildConversationByPost w "15" <> buildConversationByPost w "20".
Proof.
  eexists. split; [vm_compute; reflexivity|].
  split.
  { eexists. split; [vm_compute; reflexivity|].
    split; [apply elem_of_cons; now left|].
    apply elem_of_cons; right. apply elem_of_cons; now left. }
  split; [vm_compute; reflexivity|].
  split; [vm_compute; reflexivity|].
  vm_compute. discriminate.
Qed.

(** The store of that counterexample is one whose logs disagree: B's
    marker 15 lies within the lifetime of A's session, which shares 20
    with B's, and is not a marker of A's. *)
Remark overlap_store_not_aligned (w : World) :
  read_files overlap_files empty_world = Ok w -> ~ aligned w.
Proof.
  intros E Hal.
  assert (H : has_post w (0, 0) "15").
  { apply (Hal (1, 0) (0, 0) "15").
    - exists "20". split; apply has_postb_spec;
        vm_compute in E; injection E as <-; vm_compute; reflexivity.
    - apply has_postb_spec. vm_compute in E. injection E as <-. vm_compute. reflexivity.
    - exists "10", "20". vm_compute in E. injection E as <-.
      repeat split; vm_compute; reflexivity. }
  apply has_postb_spec in H. vm_compute in E. injection E as <-.
  vm_compute in H. discriminate.
Qed.

(** C2, amended.  Sessions belong to one conversation when a chain of
    sessions, each sharing a timestamp with the next, links them.  In a
    store whose logs agree ([aligned]: of two sessions that share a
    timestamp, each holds every marker of the other that falls within its
    own lifetime, which is what lines 232-272 of the source rely on), any
    two markers of sessions of one conversation are reconstructed, and to
    the same Conversation with the same warnings: whatever session each
    reconstruction starts from, the backward walk ends at a session of the
    conversation that starts earliest, and the forward walk sweeps, in
    increasing order, the markers of all the sessions of the
    conversation. *)
Theorem aligned_anchors_same_conversation (w : World) (t1 t2 : string) (r1 r2 : SessionRef) :
  wf_world w -> aligned w ->
  has_post w r1 t1 -> has_post w r2 t2 -> same_conversation w r1 r2 ->
  exists convo diags,
    buildConversationByPost w t1 = Ok (convo, diags) /\
    buildConversationByPost w t2 = Ok (convo, diags).
Proof.
  intros Hwf Hal Hp1 Hp2 Hconn.
  destruct (has_post_indexed w Hwf r1 t1 Hp1) as (refs1 & H1 & Hr1).
  destruct (has_post_indexed w Hwf r2 t2 Hp2) as (refs2 & H2 & Hr2).
  destruct (build_total w t1 Hwf (ex_intro _ _ H1)) as (convo1 & diags1 & Hb1).
  destruct (build_total w t2 Hwf (ex_intro _ _ H2)) as (convo2 & diags2 & Hb2).
  specialize (Hb1 (S (num_sessions w)) (Nat.lt_succ_diag_r _)).
  specialize (Hb2 (S (num_sessions w)) (Nat.lt_succ_diag_r _)).
  destruct (conversation_posts w _ t1 refs1 r1 _ Hwf Hal H1 Hr1 Hb1)
    as (done1 & sw1 & Hi1 & Hall1 & Hf1 & Hfin1).
  destruct (conversation_posts w _ t2 refs2 r2 _ Hwf Hal H2 Hr2 Hb2)
    as (done2 & sw2 & Hi2 & Hall2 & Hf2 & Hfin2).
  assert (E : done1 = done2).
  { apply increasing_ext; [exact Hi1|exact Hi2|].
    intros p. rewrite Hall1, Hall2.
    split; intros (M & HM & Hp); exists M; split; auto.
    - eapply same_conversation_trans; [apply same_conversation_sym; exact Hconn|exact HM].
    - eapply same_conversation_trans; eauto. }
  subst done2. rewrite Hf1 in Hf2. injection Hf2 as <-.
  rewrite Hfin1 in Hfin2. injection Hfin2 as <- <-.
  exists convo1, diags1. split; assumption.
Qed.

(** The anchor 20 starts in B's session, from which the backward walk
    adopts A's; the anchor 50 starts in A's. *)
Lemma aligned_anchors_witness :
  exists w, read_files joined_files empty_world = Ok w /\
    anchor_session w "20" = Ok (0, 0) /\ left_edge w "20" = Ok (1, 0) /\
    anchor_session w "50" = Ok (1, 0) /\
    exists convo diags,
      buildConversationByPost w "20" = Ok (convo, diags) /\
      buildConversationByPost w "50" = Ok (convo, diags).
Proof.
  destruct (read_files joined_files empty_world) as [w| |] eqn:E;
    [|vm_compute in E; discriminate..].
  exists w. split; [reflexivity|].
  assert (Hwf : wf_world w) by (eapply read_files_wf; [exact wf_empty|exact E]).
  assert (Hal : alignedb w = true).
  { vm_compute in E. injection E as <-. vm_compute. reflexivity. }
  assert (H1 : has_post w (0, 0) "20").
  { apply has_postb_spec. vm_compute in E. injection E as <-. vm_compute. reflexivity. }
  assert (H2 : has_post w (1, 0) "50").
  { apply has_postb_spec. vm_compute in E. injection E as <-. vm_compute. reflexivity. }
  assert (H3 : has_post w (1, 0) "20").
  { apply has_postb_spec. vm_compute in E. injection E as <-. vm_compute. reflexivity. }
  assert (Hc : same_conversation w (0, 0) (1, 0)).
  { apply rtc_once. exists "20". split; assumption. }
  split; [vm_compute in E; injection E as <-; vm_compute; reflexivity|].
  split; [vm_compute in E; injection E as <-; vm_compute; reflexivity|].
  split; [vm_compute in E; injection E as <-; vm_compute; reflexivity|].
  exact (aligned_anchors_same_conversation w "20" "50" (0, 0) (1, 0) Hwf
           (alignedb_sound w Hal) H1 H2 Hc).
Defined.

(** C3.  On a well-formed store and an anchor present in its index the
    reconstruction terminates with a Conversation, for any fuel above the
    number of sessions.  The backward loop ends because the session it
    adopts starts strictly earlier than the one it leaves, the forward loop
    because the session it adopts ends strictly later; with finitely many
    sessions neither loop can exhaust that fuel, on any store. *)
Theorem reconstruction_terminates (w : World) (post : string) :
  wf_world w -> is_Some (posts w !! post) ->
  (exists convo diags, forall fuel, num_sessions w < fuel ->
     buildConversationByPost_fuel fuel w post = Ok (convo, diags)) /\
  (forall r r', backward_step w r = Ok (Some r') ->
     exists a b, first_post w r' = Ok a /\ first_post w r = Ok b /\ PyStr.lt a b = true) /\
  (forall r sw sw' r', forward_step w r sw = Ok (sw', Some r') ->
     exists a b, last_post w r' = Ok a /\ last_post w r = Ok b /\ PyStr.gt a b = true) /\
  (forall fuel r sw, num_sessions w < fuel ->
     walk_backwards fuel w r <> OutOfFuel /\ walk_forwards fuel w r sw <> OutOfFuel).
Proof.
  intros Hwf Hpost. split; [now apply build_total|]. split; [|split].
  - intros r r' H. apply backward_step_starts_before in H. unfold starts_before in H.
    destruct (first_post w r') as [a| |]; try discriminate.
    destruct (first_post w r) as [b| |]; try discriminate. eauto.
  - intros r sw sw' r' H. apply forward_step_ends_after in H. unfold ends_after in H.
    destruct (last_post w r') as [a| |]; try discriminate.
    destruct (last_post w r) as [b| |]; try discriminate. eauto.
  - intros fuel r sw Hfuel. split.
    + apply walk_backwards_terminates. pose proof (backward_measure_bound w r). lia.
    + apply walk_forwards_terminates. pose proof (forward_measure_bound w r). lia.
Qed.

Lemma reconstruction_terminates_witness :
  exists w, read_files reentry_files empty_world = Ok w /\
    exists convo diags, forall fuel, num_sessions w < fuel ->
      buildConversationByPost_fuel fuel w "60" = Ok (convo, diags).
Proof.
  destruct (read_files reentry_files empty_world) as [w| |] eqn:E;
    [|vm_compute in E; discriminate..].
  exists w. split; [reflexivity|].
  refine (proj1 (reconstruction_terminates w "60" _ _)).
  - eapply read_files_wf; [exact wf_empty|exact E].
  - vm_compute in E. injection E as <-. vm_compute. eauto.
Defined.

(** C5.  In a well-formed store every session's posts are strictly
    increasing; the empty store is well-formed and every writer
    ([Session.addPost], [Contact.reserveSessions], reading a file, the
    backfill) keeps it so.  An append of a post not later than the session's
    last one is rejected: the warning goes to stderr and neither the
    session's posts nor the global index change. *)
Theorem addPost_keeps_posts_increasing (w : World) (self : SessionRef) (post : string) :
  wf_world w ->
  posts_increasing w /\
  wf_world (Session_addPost self post w) /\
  posts_increasing (Session_addPost self post w) /\
  (forall s l, lookupSession w self = Some s -> last (Session_posts s) = Some l ->
     PyStr.le post l = true ->
     contacts (Session_addPost self post w) = contacts w /\
     posts (Session_addPost self post w) = posts w /\
     stderr (Session_addPost self post w) = stderr w ++ [WarnNonMonotonic post l]) /\
  (forall ci n, wf_world (Contact_reserveSessions ci n w)) /\
  (forall email elems w', read_file email elems w = Ok w' -> wf_world w') /\
  (forall w', backfill w = Ok w' -> wf_world w').
Proof.
  intros Hwf.
  split; [now apply wf_increasing|].
  split; [now apply Session_addPost_wf|].
  split; [now apply wf_increasing, Session_addPost_wf|].
  split; [|split; [|split]].
  - intros s l Hs Hl Hle. unfold Session_addPost. rewrite Hs, Hl, Hle. auto.
  - intros. now apply Contact_reserveSessions_wf.
  - intros. eapply read_file_wf; eauto.
  - intros. eapply backfill_wf; eauto.
Qed.

Lemma addPost_keeps_posts_increasing_witness :
  exists w, read_files scenario1_files empty_world = Ok w /\
    stderr (Session_addPost (0, 0) "30" w) = [WarnNonMonotonic "30" "50"] /\
    posts (Session_addPost (0, 0) "30" w) = posts w /\
    posts_increasing (Session_addPost (0, 0) "30" w).
Proof.
  destruct (read_files scenario1_files empty_world) as [w| |] eqn:E;
    [|vm_compute in E; discriminate..].
  exists w. split; [reflexivity|].
  assert (Hwf : wf_world w) by (eapply read_files_wf; [exact wf_empty|exact E]).
  assert (Hs : lookupSession w (0, 0) = Some (mkSession 1 0 ["10"; "20"; "40"; "50"])).
  { vm_compute in E. injection E as <-. vm_compute. reflexivity. }
  assert (Herr : stderr w = []).
  { vm_compute in E. injection E as <-. reflexivity. }
  destruct (addPost_keeps_posts_increasing w (0, 0) "30" Hwf)
    as (_ & _ & Hinc & Hrej & _).
  destruct (Hrej _ "50" Hs eq_refl eq_refl) as (_ & Hp & He).
  rewrite Herr in He.
  split; [exact He|]. split; [exact Hp|exact Hinc].
Defined.

(** C8 fails on the code: the filter of the event loop spells the tag
    "InvitatationResponse", so an element tagged "InvitationResponse" is
    skipped like any unknown tag: it commits nothing and does not become
    the previous event.  A log ending in such an element loses its last
    marker, which the same log with a Message in its place records. *)
Theorem InvitationResponse_is_skipped :
  tag_retained "InvitationResponse" = false /\
  tag_retained "InvitatationResponse" = true /\
  (forall ci lastSessionId sessionId dateTime st,
     scan_elem ci (mkElem "InvitationResponse" lastSessionId sessionId dateTime) st = Ok st) /\
  session_posts_of (read_files invitation_response_file empty_world) (0, 0) = Some ["70"] /\
  session_posts_of (read_files message_file empty_world) (0, 0) = Some ["70"; "80"].
Proof.
  split; [reflexivity|]. split; [reflexivity|]. split; [|split; vm_compute; reflexivity].
  intros ci l s d [sc w]. reflexivity.
Qed.

(** C4.  When, during the forward sweep, a contact c that already has an
    interval and is not in the previous present set shows up at a post p (a
    re-entry), then whatever posts the sweep goes on to process: c's
    interval is closed and stays exactly as it was (it is neither reopened
    nor extended, and the final closing leaves it alone, so the
    Conversation lists c with that interval), and stderr holds exactly one
    re-entry warning for c.  By [walk_forwards_sweeps] the whole forward
    walk is such a run of the sweep.  In scenario 2, A's interval closed at
    40 stays (10, 40) although A posts again at 60, with one warning: the
    participants are A (10, 40) and B (10, 70), in the order in which the
    set of the contacts present at 10 happens to be iterated. *)
Theorem reentry_is_ignored (w : World) (sw sw1 sw2 : Sweep) (p : string)
    (ps : list string) (c : nat) (email : string) (i : Interval) :
  wf_world w -> sweep_inv w sw ->
  skip_post sw p = false ->
  (exists refs cs, posts w !! p = Some refs /\
     mapR (session_contact w) refs = Ok cs /\ c ∈ cs) ->
  c ∉ prevPresentContacts sw ->
  intervals_get c (intervals sw) = Some i ->
  contact_email w c = Ok email ->
  sweep_post w sw p = Ok sw1 ->
  foldR (sweep_post w) ps sw1 = Ok sw2 ->
  (exists l, Interval_lastPost i = Some l /\
     intervals_get c (intervals sw1) = Some i /\
     intervals_get c (intervals sw2) = Some i /\
     count_occ Diag_eq_dec (warnings sw1) (WarnReentry email) = 1 /\
     count_occ Diag_eq_dec (warnings sw2) (WarnReentry email) = 1 /\
     (forall convo diags, finish w sw2 = Ok (convo, diags) ->
        mkParticipant email (Interval_firstPost i) l ∈ participants convo /\
        count_occ Diag_eq_dec diags (WarnReentry email) = 1)) /\
  (exists convo,
     (do w2 <- read_files reentry_files empty_world; buildConversationByPost w2 "10")
     = Ok (convo, [WarnReentry "A"]) /\
     participants convo ≡ₚ [mkParticipant "A" "10" "40"; mkParticipant "B" "10" "70"] /\
     Conversation_firstPost convo = "10" /\ Conversation_lastPost convo = "70").
Proof.
  intros Hwf Hinv Hskip (refs & cs & Hrefs & Hcs & Hc) Hnp Hi He H1 H2.
  split.
  2:{ eexists. split; [vm_compute; reflexivity|]. simpl.
      split; [apply perm_swap|]. split; reflexivity. }
  destruct (inv_closed _ _ Hinv c i Hi Hnp) as [l Hl].
  exists l. split; [assumption|].
  pose proof (sweep_post_frozen _ _ _ _ _ _ H1 Hi (ex_intro _ l Hl)) as Hi1.
  pose proof (sweep_loop_frozen _ _ _ _ _ _ H2 Hi1 (ex_intro _ l Hl)) as Hi2.
  pose proof (sweep_post_inv _ _ _ _ Hwf Hinv H1) as Hinv1.
  pose proof (sweep_loop_inv _ _ _ _ Hwf Hinv1 H2) as Hinv2.
  assert (Hw1 : c ∈ warnedContacts sw1).
  { pose proof H1 as H1'.
    apply sweep_post_Ok in H1' as [[E _]|[_ (present & Hs)]]; [congruence|].
    apply (swept_warned _ _ _ _ _ Hs). right.
    destruct (swept_refs _ _ _ _ _ Hs) as (refs' & cs' & Hrefs' & Hcs' & ->).
    rewrite Hrefs in Hrefs'. injection Hrefs' as <-.
    rewrite Hcs in Hcs'. injection Hcs' as <-.
    split; [now apply elem_of_remove_dups|]. split; [assumption|]. rewrite Hi. eauto. }
  pose proof (sweep_loop_warned_mono _ _ _ _ _ H2 Hw1) as Hw2.
  pose proof (inv_warnings _ _ Hinv1 c email He) as Hc1.
  pose proof (inv_warnings _ _ Hinv2 c email He) as Hc2.
  rewrite decide_True in Hc1 by assumption.
  rewrite decide_True in Hc2 by assumption.
  repeat split; auto.
  - eapply finish_participant; eauto.
  - destruct (finish_participant _ _ _ _ _ _ _ _ H Hi2 Hl He) as [_ ->]. exact Hc2.
Qed.

Lemma reentry_is_ignored_witness :
  exists w sw sw2,
    read_files reentry_files empty_world = Ok w /\
    foldR (sweep_post w) ["10"; "40"; "50"] init_sweep = Ok sw /\
    foldR (sweep_post w) ["60"; "70"] sw = Ok sw2 /\
    intervals_get 1 (intervals sw) = Some (mkInterval "10" (Some "40")) /\
    intervals_get 1 (intervals sw2) = Some (mkInterval "10" (Some "40")) /\
    count_occ Diag_eq_dec (warnings sw2) (WarnReentry "A") = 1.
Proof.
  destruct (read_files reentry_files empty_world) as [w| |] eqn:E;
    [|vm_compute in E; discriminate..].
  assert (Hwf : wf_world w) by (eapply read_files_wf; [exact wf_empty|exact E]).
  destruct (foldR (sweep_post w) ["10"; "40"; "50"] init_sweep) as [sw| |] eqn:Esw;
    [|vm_compute in E; injection E as <-; vm_compute in Esw; discriminate..].
  assert (Hinv : sweep_inv w sw)
    by (eapply sweep_loop_inv; [exact Hwf|apply sweep_inv_init|exact Esw]).
  destruct (sweep_post w sw "60") as [sw1| |] eqn:E1;
    [|vm_compute in E; injection E as <-; vm_compute in Esw; injection Esw as <-;
      vm_compute in E1; discriminate..].
  destruct (foldR (sweep_post w) ["70"] sw1) as [sw2| |] eqn:E2;
    [|vm_compute in E; injection E as <-; vm_compute in Esw; injection Esw as <-;
      vm_compute in E1; injection E1 as <-; vm_compute in E2; discriminate..].
  exists w, sw, sw2.
  assert (Hskip : skip_post sw "60" = false).
  { vm_compute in E; injection E as <-; vm_compute in Esw; injection Esw as <-.
    vm_compute. reflexivity. }
  assert (Hpresent : exists refs cs, posts w !! "60" = Some refs /\
            mapR (session_contact w) refs = Ok cs /\ 1 ∈ cs).
  { vm_compute in E; injection E as <-.
    exists [(0, 0); (1, 1)], [0; 1]. split; [vm_compute; reflexivity|].
    split; [vm_compute; reflexivity|].
    apply elem_of_cons; right. apply elem_of_cons; now left. }
  assert (Hgone : 1 ∉ prevPresentContacts sw).
  { vm_compute in E; injection E as <-; vm_compute in Esw; injection Esw as <-.
    vm_compute. intros H. apply elem_of_cons in H as [H|H]; [discriminate|].
    now apply not_elem_of_nil in H. }
  assert (Hi : intervals_get 1 (intervals sw) = Some (mkInterval "10" (Some "40"))).
  { vm_compute in E; injection E as <-; vm_compute in Esw; injection Esw as <-.
    vm_compute. reflexivity. }
  assert (He : contact_email w 1 = Ok "A").
  { vm_compute in E; injection E as <-. vm_compute. reflexivity. }
  destruct (proj1 (reentry_is_ignored w sw sw1 sw2 "60" ["70"] 1 "A"
                     (mkInterval "10" (Some "40")) Hwf Hinv Hskip Hpresent Hgone Hi He E1 E2))
    as (l & _ & _ & Hi2 & _ & Hc2 & _).
  split; [reflexivity|]. split; [exact Esw|].
  split; [simpl; rewrite E1; simpl; exact E2|].
  split; [exact Hi|]. split; [exact Hi2|exact Hc2].
Defined.

(** C10.  When the backfill completes, every contact's session 1 exists and
    holds at least one post, so the reads [getSession(1).posts[0]] and
    [getSession(1).posts[-1]] of the classifier and of the edge loop
    succeed for every contact. *)
Theorem session1_reads_in_bounds (w w' : World) (ci : nat) (c : Contact) :
  backfill w = Ok w' -> contacts w' !! ci = Some c ->
  has_first w' ci /\
  exists firstPost lastPost,
    session1_first w' ci = Ok firstPost /\ session1_last w' ci = Ok lastPost.
Proof.
  unfold backfill, backfill_from. intros H Hc.
  apply rbind_Ok in H as (st & H & [= <-]).
  apply backfill_loop_has_first in H as (Hall & _ & Hlen). simpl in Hlen.
  assert (Hfirst : has_first st.2 ci).
  { apply Hall, elem_of_seq. apply lookup_lt_Some in Hc. lia. }
  split; [assumption|now apply has_first_reads].
Qed.

Lemma session1_reads_in_bounds_witness :
  exists w w', read_files missing_first_files empty_world = Ok w /\
    backfill w = Ok w' /\
    session1_first w' 1 = Ok "0000-0000000000" /\
    session1_last w' 1 = Ok "0000-0000000000".
Proof.
  destruct (read_files missing_first_files empty_world) as [w| |] eqn:E;
    [|vm_compute in E; discriminate..].
  destruct (backfill w) as [w'| |] eqn:E';
    [|vm_compute in E; injection E as <-; vm_compute in E'; discriminate..].
  destruct (contacts w' !! 1) as [c|] eqn:Ec;
    [|vm_compute in E; injection E as <-; vm_compute in E'; injection E' as <-;
      vm_compute in Ec; discriminate].
  destruct (session1_reads_in_bounds w w' 1 c E' Ec) as (_ & f & l & Hf & Hl).
  exists w, w'. split; [reflexivity|]. split; [exact E'|].
  vm_compute in E; injection E as <-; vm_compute in E'; injection E' as <-.
  split; vm_compute; reflexivity.
Defined.

(** C7, as stated, fails: the keys are not decreasing.  In scenario 3 the
    backfill gives C, processed first, the key 0000-0000000000 and D,
    processed second, the greater key 0000-0000000001. *)
Lemma blank_posts_not_decreasing :
  session_posts_of (do w <- read_files missing_first_files empty_world; backfill w) (1, 0)
  = Some [blank_post 0] /\
  session_posts_of (do w <- read_files missing_first_files empty_world; backfill w) (2, 0)
  = Some [blank_post 1] /\
  PyStr.lt (blank_post 1) (blank_post 0) = false /\
  PyStr.lt (blank_post 0) (blank_post 1) = true.
Proof. repeat split; vm_compute; reflexivity. Qed.

(** C7, amended.  The backfill gives each contact whose session 1 holds no
    post exactly one marker and leaves every other session as it is.  The
    counter starts at 0 and moves on by one per placeholder: the k-th such
    contact in processing order (the order of [contacts]) gets the key
    "0000-%010d" of k.  The keys are therefore strictly increasing in
    processing order (below 10^10 placeholders), not decreasing, and every
    key sorts strictly before every timestamp that sorts at or after
    "0001". *)
Theorem blank_posts_increase (w w' : World) :
  backfill w = Ok w' ->
  (forall k ci, blank_contacts w !! k = Some ci ->
     exists s, lookupSession w (ci, 0) = Some s /\ Session_posts s = [] /\
       lookupSession w' (ci, 0) = Some (set_posts s [blank_post (N.of_nat k)])) /\
  (forall r, r.2 <> 0 \/ needs_blank w r.1 = false ->
     lookupSession w' r = lookupSession w r) /\
  (forall j k ci cj, blank_contacts w !! j = Some ci -> blank_contacts w !! k = Some cj ->
     j < k -> (N.of_nat k < 10 ^ 10)%N ->
     ci < cj /\ PyStr.lt (blank_post (N.of_nat j)) (blank_post (N.of_nat k)) = true) /\
  (forall n p, PyStr.le "0001" p = true -> PyStr.lt (blank_post n) p = true).
Proof.
  intros H. destruct (backfill_keys w w' H) as [Hkeys Hframe].
  split; [exact Hkeys|]. split; [exact Hframe|]. split; [|exact blank_post_before_real].
  intros j k ci cj Hj Hk Hlt Hbound. split.
  - exact (filter_seq_lookup_lt _ _ _ _ _ _ _ Hj Hk Hlt).
  - apply blank_post_lt; lia.
Qed.

Lemma blank_posts_increase_witness :
  exists w w', read_files missing_first_files empty_world = Ok w /\ backfill w = Ok w' /\
    blank_contacts w = [1; 2] /\
    Session_posts <$> lookupSession w' (1, 0) = Some [blank_post 0] /\
    Session_posts <$> lookupSession w' (2, 0) = Some [blank_post 1] /\
    PyStr.lt (blank_post 0) (blank_post 1) = true.
Proof.
  destruct (read_files missing_first_files empty_world) as [w| |] eqn:E;
    [|vm_compute in E; discriminate..].
  destruct (backfill w) as [w'| |] eqn:E';
    [|vm_compute in E; injection E as <-; vm_compute in E'; discriminate..].
  assert (Hb : blank_contacts w = [1; 2]).
  { vm_compute in E. injection E as <-. vm_compute. reflexivity. }
  destruct (blank_posts_increase w w' E') as (Hkeys & _ & Hinc & _).
  exists w, w'. split; [reflexivity|]. split; [exact E'|]. split; [exact Hb|].
  destruct (Hkeys 0 1) as (s1 & _ & _ & H1); [now rewrite Hb|].
  destruct (Hkeys 1 2) as (s2 & _ & _ & H2); [now rewrite Hb|].
  split; [now rewrite H1|]. split; [now rewrite H2|].
  apply (Hinc 0 1 1 2); [now rewrite Hb|now rewrite Hb|lia|reflexivity].
Defined.







(** * Further properties of the code *)

(** X1.  [Conversation.__init__] keeps the participants it is given; the
    conversation's first post is the first post of one of them and is not
    later than anyone's, its last post is the last post of one of them and
    is not earlier than anyone's.  With no participant it raises
    ValueError. *)
Theorem Conversation_init_bounds (pars : list Participant) (convo : Conversation) :
  Conversation_init pars = Ok convo ->
  participants convo = pars /\
  (exists par, par ∈ pars /\ Conversation_firstPost convo = Participant_firstPost par) /\
  (exists par, par ∈ pars /\ Conversation_lastPost convo = Participant_lastPost par) /\
  (forall par, par ∈ pars ->
     PyStr.le (Conversation_firstPost convo) (Participant_firstPost par) = true /\
     PyStr.le (Participant_lastPost par) (Conversation_lastPost convo) = true) /\
  Conversation_init [] = Raise ValueError.
Proof.
  unfold Conversation_init. intros H.
  apply rbind_Ok in H as ([f pf] & Hmin & H).
  apply rbind_Ok in H as ([l pl] & Hmax & [= <-]). simpl.
  pose proof (py_min_by_Ok _ _ Hmin) as Hf.
  pose proof (py_max_by_Ok _ _ Hmax) as Hl.
  apply list_elem_of_fmap in Hf as (par1 & [= -> ->] & Hpar1).
  apply list_elem_of_fmap in Hl as (par2 & [= -> ->] & Hpar2).
  split; [reflexivity|]. split; [eauto|]. split; [eauto|]. split; [|reflexivity].
  intros par Hpar. split.
  - apply (py_min_by_le _ _ (Participant_firstPost par, par) Hmin).
    apply list_elem_of_fmap. eauto.
  - apply (py_max_by_ge _ _ (Participant_lastPost par, par) Hmax).
    apply list_elem_of_fmap. eauto.
Qed.

Lemma Conversation_init_bounds_witness :
  exists convo,
    Conversation_init [mkParticipant "A" "10" "50"; mkParticipant "B" "20" "40"] = Ok convo /\
    Conversation_firstPost convo = "10" /\ Conversation_lastPost convo = "50".
Proof.
  eexists. split; [reflexivity|].
  destruct (Conversation_init_bounds
              [mkParticipant "A" "10" "50"; mkParticipant "B" "20" "40"] _ eq_refl)
    as (_ & _ & _ & _ & _).
  split; reflexivity.
Defined.

(** X2.  [isFormerContactTo] is antisymmetric and irreflexive: when it
    answers True for (a, b) it answers False for (b, a), already on the
    comparison of the two first posts and without rebuilding any
    conversation; and it never answers True for (a, a). *)
Theorem isFormerContactTo_antisymmetric (w : World) (a b : nat) (diags : list Diag) :
  Contact_isFormerContactTo w a b = Ok (true, diags) ->
  Contact_isFormerContactTo w b a = Ok (false, []) /\ a <> b.
Proof.
  unfold Contact_isFormerContactTo. intros H.
  apply rbind_Ok in H as (fa & Ha & H).
  apply rbind_Ok in H as (fb & Hb & H).
  destruct (PyStr.ge fa fb) eqn:Hge; [discriminate|].
  rewrite str_ge_not_lt in Hge. apply negb_false_iff in Hge.
  split.
  - rewrite Hb, Ha. simpl.
    rewrite str_ge_not_lt, (str_lt_asym _ _ Hge). reflexivity.
  - intros ->. rewrite Ha in Hb. injection Hb as ->.
    now rewrite str_lt_irrefl in Hge.
Qed.

Lemma isFormerContactTo_antisymmetric_witness :
  exists w, read_files introduction_files empty_world = Ok w /\
    Contact_isFormerContactTo w 1 0 = Ok (true, []) /\
    Contact_isFormerContactTo w 0 1 = Ok (false, []).
Proof.
  destruct (read_files introduction_files empty_world) as [w| |] eqn:E;
    [|vm_compute in E; discriminate..].
  exists w. split; [reflexivity|].
  assert (H : Contact_isFormerContactTo w 1 0 = Ok (true, [])).
  { vm_compute in E. injection E as <-. vm_compute. reflexivity. }
  split; [exact H|].
  exact (proj1 (isFormerContactTo_antisymmetric w 1 0 [] H)).
Defined.

(** X3.  The backward walk ends at a left edge: the session it returns is
    the start session or starts strictly earlier, and none of the sessions
    registered under its first post starts strictly earlier than it. *)
Theorem walk_backwards_left_edge (fuel : nat) (w : World) (r r' : SessionRef) :
  walk_backwards fuel w r = Ok r' ->
  (r' = r \/ starts_before w r' r = true) /\
  backward_step w r' = Ok None /\
  exists first refs,
    first_post w r' = Ok first /\ posts w !! first = Some refs /\
    forall r'' k, r'' ∈ refs -> first_post w r'' = Ok k -> PyStr.le first k = true.
Proof.
  revert r. induction fuel as [|fuel IH]; simpl; intros r; [discriminate|].
  intros H. apply rbind_Ok in H as (next & Hstep & H).
  destruct next as [r1|].
  - destruct (IH _ H) as (Hr & Hfix & Hmin). split; [|auto].
    right. pose proof (backward_step_starts_before _ _ _ Hstep) as Hsb.
    destruct Hr as [->|Hr]; [assumption|]. eapply starts_before_trans; eauto.
  - injection H as <-. split; [now left|]. split; [assumption|].
    unfold backward_step, lookup_posts in Hstep.
    apply rbind_Ok in Hstep as (fA & HfA & Hstep).
    apply rbind_Ok in Hstep as (refs & Hrefs & Hstep). apply of_option_Ok in Hrefs.
    apply rbind_Ok in Hstep as (keyed & Hkeyed & Hstep).
    apply rbind_Ok in Hstep as ([k0 r0] & Hmin & Hstep). simpl in Hstep.
    destruct (PyStr.ge k0 fA) eqn:Hge; [|discriminate].
    exists fA, refs. split; [assumption|]. split; [assumption|].
    intros r'' k Hin Hk.
    destruct (mapR_Ok_elem_inv _ _ _ _ Hkeyed Hin) as ([k' r3] & Hy & Hkey).
    apply key_first_Ok in Hkey as [Hk' _]. simpl in Hk'.
    rewrite Hk in Hk'. injection Hk' as <-.
    eapply str_le_trans; [exact Hge|].
    apply (py_min_by_le _ _ _ Hmin Hy).
Qed.

Lemma walk_backwards_left_edge_witness :
  exists w, read_files scenario1_files empty_world = Ok w /\
    walk_backwards 3 w (1, 0) = Ok (0, 0) /\ backward_step w (0, 0) = Ok None.
Proof.
  destruct (read_files scenario1_files empty_world) as [w| |] eqn:E;
    [|vm_compute in E; discriminate..].
  exists w. split; [reflexivity|].
  assert (H : walk_backwards 3 w (1, 0) = Ok (0, 0)).
  { vm_compute in E. injection E as <-. vm_compute. reflexivity. }
  split; [exact H|].
  exact (proj1 (proj2 (walk_backwards_left_edge 3 w (1, 0) (0, 0) H))).
Defined.

(** X4.  A contact whose first conversation was backfilled precedes every
    contact with real logs: on a well-formed store in which no session
    mixes synthetic keys with real timestamps, if C's first post is a
    synthetic key and R's first post a real timestamp, then
    R.isFormerContactTo(C) is False and C.isFormerContactTo(R) is True. *)
Theorem backfilled_contact_is_former (w : World) (contactC contactR : nat)
    (n : N) (r : string) :
  wf_world w -> unmixed w = true ->
  session1_first w contactC = Ok (blank_post n) ->
  session1_first w contactR = Ok r -> real_timestamp r = true ->
  Contact_isFormerContactTo w contactR contactC = Ok (false, []) /\
  exists diags, Contact_isFormerContactTo w contactC contactR = Ok (true, diags).
Proof.
  intros Hwf Hun HC HR Hreal.
  assert (Hlt : PyStr.lt (blank_post n) r = true) by now apply blank_post_before_real.
  unfold Contact_isFormerContactTo. rewrite HC, HR. simpl. split.
  - now rewrite str_ge_not_lt, (str_lt_asym _ _ Hlt).
  - rewrite str_ge_not_lt, Hlt. simpl.
    destruct (build_total w (blank_post n) Hwf (session1_first_indexed _ _ _ Hwf HC))
      as (convo1 & d1 & H1).
    destruct (build_total w r Hwf (session1_first_indexed _ _ _ Hwf HR))
      as (convo2 & d2 & H2).
    specialize (H1 (S (num_sessions w)) (Nat.lt_succ_diag_r _)).
    specialize (H2 (S (num_sessions w)) (Nat.lt_succ_diag_r _)).
    fold (buildConversationByPost w (blank_post n)) in H1.
    fold (buildConversationByPost w r) in H2.
    rewrite H1, H2. simpl. exists (d1 ++ d2). do 2 f_equal.
    pose proof (build_class _ _ _ _ _ Hwf Hun (blank_post_not_real n) H1) as Hc1.
    pose proof (build_class _ _ _ _ _ Hwf Hun Hreal H2) as Hc2.
    apply not_real_lt in Hc1. eapply str_lt_le_trans; eauto.
Qed.

Lemma backfilled_contact_is_former_witness :
  exists w0 w, read_files missing_first_files empty_world = Ok w0 /\ backfill w0 = Ok w /\
    Contact_isFormerContactTo w 0 1 = Ok (false, []) /\
    exists diags, Contact_isFormerContactTo w 1 0 = Ok (true, diags).
Proof.
  destruct (read_files missing_first_files empty_world) as [w0| |] eqn:E;
    [|vm_compute in E; discriminate..].
  destruct (backfill w0) as [w| |] eqn:E';
    [|vm_compute in E; injection E as <-; vm_compute in E'; discriminate..].
  exists w0, w. split; [reflexivity|]. split; [exact E'|].
  assert (Hwf : wf_world w).
  { eapply backfill_wf; [|exact E']. eapply read_files_wf; [exact wf_empty|exact E]. }
  assert (Hw : w = ltac:(let t := eval vm_compute in
      (match (do w0 <- read_files missing_first_files empty_world; backfill w0) with
       | Ok x => x | _ => empty_world end) in exact t)).
  { vm_compute in E. injection E as <-. vm_compute in E'. now injection E' as <-. }
  apply (backfilled_contact_is_former w 1 0 0 "2009-06-28T15:11:13.765Z" Hwf).
  - rewrite Hw. vm_compute. reflexivity.
  - rewrite Hw. vm_compute. reflexivity.
  - rewrite Hw. vm_compute. reflexivity.
  - reflexivity.
Defined.

(** X5.  Every participant of a reconstructed Conversation has an interval
    that ends no earlier than it starts (firstPost <= lastPost), on any
    store and for any anchor for which the reconstruction returns. *)
Theorem participant_intervals_ordered (fuel : nat) (w : World) (post : string)
    (convo : Conversation) (diags : list Diag) (par : Participant) :
  buildConversationByPost_fuel fuel w post = Ok (convo, diags) ->
  par ∈ participants convo ->
  PyStr.le (Participant_firstPost par) (Participant_lastPost par) = true.
Proof.
  unfold buildConversationByPost_fuel. intros H.
  apply rbind_Ok in H as (refs & _ & H).
  apply rbind_Ok in H as (session0 & _ & H).
  apply rbind_Ok in H as (sessionA & _ & H).
  apply rbind_Ok in H as (sw & Hsw & H).
  eapply finish_ordered; [| |exact H].
  - eapply walk_forwards_keys; eauto.
  - eapply walk_forwards_ordered; eauto.
Qed.

Lemma participant_intervals_ordered_witness :
  buildConversationByPost_fuel 3 (scenario1_store true true) "10"
  = Ok (scenario1_conversation, []) /\
  PyStr.le "20" "40" = true.
Proof.
  assert (H : buildConversationByPost_fuel 3 (scenario1_store true true) "10"
              = Ok (scenario1_conversation, [])) by (vm_compute; reflexivity).
  split; [exact H|].
  apply (participant_intervals_ordered 3 (scenario1_store true true) "10"
           scenario1_conversation [] (mkParticipant "B" "20" "40") H).
  apply elem_of_cons; right. apply elem_of_cons; now left.
Defined.

(** X6.  A reconstructed Conversation lists each contact once: on a
    well-formed store the participants' emails are pairwise distinct, and
    each is the email of a contact of the store. *)
Theorem participants_distinct (fuel : nat) (w : World) (post : string)
    (convo : Conversation) (diags : list Diag) :
  wf_world w ->
  buildConversationByPost_fuel fuel w post = Ok (convo, diags) ->
  NoDup (Participant_email <$> participants convo) /\
  forall par, par ∈ participants convo ->
    Participant_email par ∈ Contact_email <$> contacts w.
Proof.
  intros Hwf. unfold buildConversationByPost_fuel. intros H.
  apply rbind_Ok in H as (refs & _ & H).
  apply rbind_Ok in H as (session0 & _ & H).
  apply rbind_Ok in H as (sessionA & _ & H).
  apply rbind_Ok in H as (sw & Hsw & H).
  assert (Hnd : NoDup (intervals sw).*1) by (eapply walk_forwards_keys; eauto).
  unfold finish in H.
  apply rbind_Ok in H as (pars & Hpars & H).
  apply rbind_Ok in H as (cv & Hcv & [= <- <-]).
  unfold Conversation_init in Hcv.
  apply rbind_Ok in Hcv as (fp & _ & Hcv). apply rbind_Ok in Hcv as (lp & _ & [= <-]).
  simpl.
  apply to_participants_emails in Hpars as (Hdistinct & Hfrom);
    [|assumption|now rewrite close_interval_keys].
  split; [assumption|].
  intros par Hpar. destruct (Hfrom _ Hpar) as (c & _ & He).
  unfold contact_email in He. apply rbind_Ok in He as (x & Hx & [= <-]).
  apply of_option_Ok in Hx. apply list_elem_of_fmap. exists x. split; [reflexivity|].
  eapply list_elem_of_lookup_2; eauto.
Qed.

Lemma participants_distinct_witness :
  exists w convo diags, read_files reentry_files empty_world = Ok w /\
    buildConversationByPost w "10" = Ok (convo, diags) /\
    NoDup (Participant_email <$> participants convo).
Proof.
  destruct (read_files reentry_files empty_world) as [w| |] eqn:E;
    [|vm_compute in E; discriminate..].
  assert (Hwf : wf_world w) by (eapply read_files_wf; [exact wf_empty|exact E]).
  destruct (buildConversationByPost w "10") as [[convo diags]| |] eqn:Eb;
    [|vm_compute in E; injection E as <-; vm_compute in Eb; discriminate..].
  exists w, convo, diags. split; [reflexivity|]. split; [exact Eb|].
  exact (proj1 (participants_distinct _ w "10" convo diags Hwf Eb)).
Defined.

(** X7.  The edge loop gives every contact at least one incoming edge (the
    black fallback edge from the main user when no participant of its first
    conversation is a former contact); every edge points at a contact of
    the store and comes from the main user or from a contact of the
    store. *)
Theorem every_contact_has_incoming_edge (mainUsersEmail : string) (w : World)
    (edges : list Edge) (diags : list Diag) :
  synthesize_edges mainUsersEmail w = Ok (edges, diags) ->
  (forall ci c, contacts w !! ci = Some c ->
     exists e, e ∈ edges /\ dest e = Contact_email c) /\
  (forall e, e ∈ edges ->
     dest e ∈ Contact_email <$> contacts w /\
     (src e = mainUsersEmail \/ src e ∈ Contact_email <$> contacts w)).
Proof.
  unfold synthesize_edges. intros H.
  apply edges_loop_Ok in H as (new & Hnew & Hevery & Hall). simpl in Hnew. subst new.
  split.
  - intros ci c Hc. destruct (Hevery ci) as (e & He & Hce).
    { apply elem_of_seq. apply lookup_lt_Some in Hc. lia. }
    exists e. split; [assumption|].
    unfold contact_email in Hce. rewrite Hc in Hce. simpl in Hce. congruence.
  - intros e He. destruct (Hall e He) as ((ci & _ & Hce) & Hsrc). split; [|assumption].
    unfold contact_email in Hce. apply rbind_Ok in Hce as (x & Hx & [= Hd]).
    apply of_option_Ok in Hx. apply list_elem_of_fmap. exists x.
    split; [now symmetry|]. eapply list_elem_of_lookup_2; eauto.
Qed.

Lemma every_contact_has_incoming_edge_witness :
  synthesize_edges "M" (scenario1_store true true)
  = Ok ([mkEdge "M" "A" black; mkEdge "M" "B" black], []) /\
  exists e, e ∈ [mkEdge "M" "A" black; mkEdge "M" "B" black] /\ dest e = "B".
Proof.
  assert (H : synthesize_edges "M" (scenario1_store true true)
              = Ok ([mkEdge "M" "A" black; mkEdge "M" "B" black], []))
    by (vm_compute; reflexivity).
  split; [exact H|].
  exact (proj1 (every_contact_has_incoming_edge "M" _ _ _ H) 1
               (mkContact "B" [mkSession 1 1 ["20"; "40"]]) eq_refl).
Defined.

(** X8.  The script can only fail while reading the logs or in the
    backfill: once both have returned, the edge synthesis raises nothing
    and [main] returns its edges. *)
Theorem edge_synthesis_never_raises (mainUsersEmail : string)
    (files : list (string * list Elem)) (w w' : World) :
  read_files files empty_world = Ok w -> backfill w = Ok w' ->
  exists edges diags,
    synthesize_edges mainUsersEmail w' = Ok (edges, diags) /\
    main mainUsersEmail files = Ok (edges, stderr w' ++ diags).
Proof.
  intros Hread Hfill.
  assert (Hwf : wf_world w').
  { eapply backfill_wf; [|exact Hfill]. eapply read_files_wf; [exact wf_empty|exact Hread]. }
  assert (Hall : forall ci, ci < length (contacts w') -> has_first w' ci).
  { pose proof Hfill as H. unfold backfill, backfill_from in H.
    apply rbind_Ok in H as (st & H & [= <-]).
    apply backfill_loop_has_first in H as (Hall & _ & Hlen). simpl in Hlen.
    intros ci Hci. apply Hall, elem_of_seq. lia. }
  destruct (foldR_total (edges_for mainUsersEmail w') (fun _ => True)
              (seq 0 (length (contacts w')))) with (s := (@nil Edge, @nil Diag))
    as ([edges diags] & Hr & _); [|exact I|].
  - intros s ci _ Hci. apply elem_of_seq in Hci.
    destruct (edges_for_total mainUsersEmail w' s ci Hwf Hall) as (s' & Hs'); [lia|eauto].
  - exists edges, diags. split; [exact Hr|].
    unfold main. rewrite Hread. simpl. rewrite Hfill. simpl.
    unfold synthesize_edges. rewrite Hr. reflexivity.
Qed.

Lemma edge_synthesis_never_raises_witness :
  exists w w' edges diags,
    read_files introduction_files empty_world = Ok w /\ backfill w = Ok w' /\
    main "M" introduction_files = Ok (edges, stderr w' ++ diags).
Proof.
  destruct (read_files introduction_files empty_world) as [w| |] eqn:E;
    [|vm_compute in E; discriminate..].
  destruct (backfill w) as [w'| |] eqn:E';
    [|vm_compute in E; injection E as <-; vm_compute in E'; discriminate..].
  destruct (edge_synthesis_never_raises "M" introduction_files w w' E E')
    as (edges & diags & _ & Hmain).
  exists w, w', edges, diags. split; [reflexivity|]. split; [exact E'|exact Hmain].
Defined.

(** X9.  The backfill is idempotent: once it has returned, every contact has
    a first post, so a second run changes nothing and warns about
    nothing. *)
Theorem backfill_idempotent (w w' : World) :
  backfill w = Ok w' -> backfill w' = Ok w'.
Proof.
  intros H. unfold backfill, backfill_from in H.
  apply rbind_Ok in H as (st & H & [= <-]).
  apply backfill_loop_has_first in H as (Hall & _ & Hlen). simpl in Hlen.
  unfold backfill, backfill_from. rewrite backfill_loop_id; [reflexivity|].
  simpl. rewrite Hlen. exact Hall.
Qed.

Lemma backfill_idempotent_witness :
  exists w w', read_files missing_first_files empty_world = Ok w /\
    backfill w = Ok w' /\ stderr w' <> stderr w /\ backfill w' = Ok w'.
Proof.
  destruct (read_files missing_first_files empty_world) as [w| |] eqn:E;
    [|vm_compute in E; discriminate..].
  destruct (backfill w) as [w'| |] eqn:E';
    [|vm_compute in E; injection E as <-; vm_compute in E'; discriminate..].
  assert (Hne : stderr w' <> stderr w).
  { vm_compute in E. injection E as <-. vm_compute in E'. injection E' as <-.
    vm_compute. discriminate. }
  exists w, w'. split; [reflexivity|]. split; [exact E'|]. split; [exact Hne|].
  exact (backfill_idempotent w w' E').
Defined.

(** X10.  In every store the script builds, [getSession(k)] for [k >= 1]
    returns the session that was created with id [k], of that contact; for
    [k <= 0] Python's negative indexing makes it return a session counted
    from the end ([getSession(0)] is the last session) instead of
    raising. *)
Theorem getSession_returns_session_by_id (files : list (string * list Elem))
    (w0 w : World) (ci : nat) (sessionId : Z) (r : SessionRef) :
  read_files files empty_world = Ok w0 -> (w = w0 \/ backfill w0 = Ok w) ->
  Contact_getSession w ci sessionId = Ok r ->
  exists c s, contacts w !! ci = Some c /\ lookupSession w r = Some s /\
    Session_contact s = ci /\
    Session_id s = if (1 <=? sessionId)%Z then sessionId
                   else (Z.of_nat (length (Contact_sessions c)) + sessionId)%Z.
Proof.
  intros Hread Hw Hr.
  assert (Hwf0 : wf_world w0) by (eapply read_files_wf; [exact wf_empty|exact Hread]).
  assert (Hid0 : ids_by_position w0) by (eapply read_files_ids; [exact ids_empty|exact Hread]).
  assert (Hw' : wf_world w /\ ids_by_position w).
  { destruct Hw as [->|Hfill]; [now split|].
    split; [eapply backfill_wf; eauto|eapply backfill_ids; eauto]. }
  destruct Hw' as [Hwf Hid].
  destruct (getSession_position w ci sessionId r Hr) as (c & s & Hc & Hs & Hr1 & Hpos).
  exists c, s. split; [assumption|]. split; [assumption|].
  split; [rewrite (wf_backref _ Hwf r s Hs); exact Hr1|].
  rewrite (Hid r s Hs). exact Hpos.
Qed.

Lemma getSession_returns_session_by_id_witness :
  exists w r, read_files missing_first_files empty_world = Ok w /\
    Contact_getSession w 1 0 = Ok r /\
    exists c s, contacts w !! 1 = Some c /\ lookupSession w r = Some s /\
      Session_contact s = 1 /\
      Session_id s = (Z.of_nat (length (Contact_sessions c)) + 0)%Z.
Proof.
  destruct (read_files missing_first_files empty_world) as [w| |] eqn:E;
    [|vm_compute in E; discriminate..].
  destruct (Contact_getSession w 1 0) as [r| |] eqn:Er;
    [|vm_compute in E; injection E as <-; vm_compute in Er; discriminate..].
  exists w, r. split; [reflexivity|]. split; [exact Er|].
  exact (getSession_returns_session_by_id missing_first_files w w 1 0 r E
           (or_introl eq_refl) Er).
Defined.

(** X11.  The ingestion invents no timestamp: every post stored for a
    contact is the DateTime of a retained element of a log of that contact;
    after the backfill a stored post is such a DateTime or a synthetic
    key. *)
Theorem stored_posts_come_from_the_logs (files : list (string * list Elem)) (w : World) :
  read_files files empty_world = Ok w ->
  posts_from (from_logs files) w /\
  forall w', backfill w = Ok w' ->
    posts_from (fun email p => from_logs files email p \/ exists n, p = blank_post n) w'.
Proof.
  intros Hread. split.
  - apply (read_files_posts_from _ files w); [|exact Hread].
    intros f e p Hf He Hret Hp. exists f, e. auto.
  - intros w' Hfill.
    set (Q := fun email p => from_logs files email p \/ exists n, p = blank_post n).
    assert (H : posts_from Q w).
    { apply (read_files_posts_from _ files w); [|exact Hread].
      intros f e p Hf He Hret Hp. left. exists f, e. auto. }
    revert H Hfill. apply (backfill_keeps (posts_from Q) Q).
    + intros. eapply posts_from_addPost; eauto.
    + intros. now apply posts_from_warn.
    + intros email n. right. eauto.
Qed.

Lemma stored_posts_come_from_the_logs_witness :
  exists w, read_files scenario1_files empty_world = Ok w /\
    posts_from (from_logs scenario1_files) w.
Proof.
  destruct (read_files scenario1_files empty_world) as [w| |] eqn:E;
    [|vm_compute in E; discriminate..].
  exists w. split; [reflexivity|].
  exact (proj1 (stored_posts_come_from_the_logs scenario1_files w E)).
Defined.

(** X12.  The store is append-only: reading the logs and the backfill
    keep every contact at its position, every session with its id, owner
    and posts (as a prefix of its later posts), every entry of the global
    index (as a prefix, so the first session registered for a post stays
    first) and every line already written to stderr. *)
Theorem store_is_append_only (files : list (string * list Elem)) (w w1 : World) :
  read_files files w = Ok w1 ->
  extends w w1 /\ forall w2, backfill w1 = Ok w2 -> extends w1 w2.
Proof.
  intros Hread. split; [now apply (read_files_extends files)|].
  intros w2. apply backfill_extends.
Qed.

Lemma store_is_append_only_witness :
  exists w1, read_files [("B", [event "Message" 1 "60"])] (scenario1_store true true) = Ok w1 /\
    extends (scenario1_store true true) w1.
Proof.
  destruct (read_files [("B", [event "Message" 1 "60"])] (scenario1_store true true))
    as [w1| |] eqn:E; [|vm_compute in E; discriminate..].
  exists w1. split; [reflexivity|].
  exact (proj1 (store_is_append_only _ _ w1 E)).
Defined.

(** X13.  [utf8toascii] returns printable ASCII and tabs only, never more
    characters than it was given, and applying it twice is the same as
    applying it once. *)
Theorem utf8toascii_idempotent (str : list N) :
  forallb printable (utf8toascii str) = true /\
  utf8toascii (utf8toascii str) = utf8toascii str /\
  length (utf8toascii str) <= length str.
Proof.
  split; [apply utf8toascii_printable|].
  split; [apply utf8toascii_fixed, utf8toascii_printable|apply utf8toascii_length].
Qed.

(** X14.  When every DateTime the ingestion retains is a real timestamp
    (sorts at or after "0001"), no session of the store mixes real
    timestamps and synthetic keys, before and after the backfill. *)
Theorem real_logs_give_unmixed_store (files : list (string * list Elem)) (w w' : World) :
  logs_real files = true ->
  read_files files empty_world = Ok w -> backfill w = Ok w' ->
  unmixed w = true /\ unmixed w' = true.
Proof.
  intros Hreal Hread Hfill.
  assert (H : sessions_unmixed w).
  { apply real_posts_unmixed.
    apply (read_files_posts_from _ files w); [|exact Hread].
    intros f e p. now apply logs_real_sound. }
  split; apply unmixed_complete; [exact H|].
  eapply backfill_unmixed; eauto.
Qed.

Lemma real_logs_give_unmixed_store_witness :
  exists w w', read_files missing_first_files empty_world = Ok w /\
    backfill w = Ok w' /\ unmixed w = true /\ unmixed w' = true.
Proof.
  destruct (read_files missing_first_files empty_world) as [w| |] eqn:E;
    [|vm_compute in E; discriminate..].
  destruct (backfill w) as [w'| |] eqn:E';
    [|vm_compute in E; injection E as <-; vm_compute in E'; discriminate..].
  exists w, w'. split; [reflexivity|]. split; [exact E'|].
  exact (real_logs_give_unmixed_store missing_first_files w w' eq_refl E E').
Defined.

(** X15.  The backfill raises exactly when some contact has no Session
    object at all (its logs declared none): [getSession(1)] is then out of
    range and the script stops with IndexError; otherwise the backfill
    returns. *)
Theorem backfill_raises_without_sessions (w : World) :
  if all_have_sessions w then exists w', backfill w = Ok w'
  else backfill w = Raise IndexError.
Proof.
  unfold all_have_sessions, backfill, backfill_from.
  rewrite <- forallb_positions.
  pose proof (backfill_loop_result (seq 0 (length (contacts w))) (0%N, w)) as H.
  unfold has_sessions in H. simpl in H.
  destruct (forallb _ _).
  - destruct H as (st' & ->); [|simpl; eauto]. intros ci Hci. apply elem_of_seq in Hci. lia.
  - rewrite H; [reflexivity|]. intros ci Hci. apply elem_of_seq in Hci. lia.
Qed.
